(** * ADMM: a shallow embedding of [Optimization/Convex/ADMM.h]

    The header implements the Alternating Direction Method of Multipliers for

      min f(x) + g(y)   s.t.  Ax + By = c

    together with two penalty-parameter adaptation rules (residual balancing
    and spectral selection).  This file embeds the two update rules, the
    solver loop and the single-space overload, and proves properties of them.

    Conventions of the embedding.

    - [double] arithmetic is reached through the interface [DoubleOps]; its
      instance [binary64] is IEEE 754 binary64 (Rocq's primitive floats,
      round to nearest even, one rounding per operation), the arithmetic the
      compiled code computes with.  The instance [exact_real] is arithmetic
      without rounding, used where a property of the algorithm only holds
      for real numbers.
    - The element types [VariableX], [VariableY], [VariableR] are abstract;
      the operators the header applies to them ([+], [-], unary [-],
      [double * v], default construction) form the interface [VariableOps].
    - The lines [lambda = rho * (A(x) + B(y) - c)], [Ax = A(x)], [By = B(y)]
      and [B(y_prev)] call the operators without the auxiliary pack, so the
      template body only instantiates with an empty [Args...]; operators,
      oracles and inner products are therefore plain functions.
    - [unsigned int] counters are [nat]: the loop counter stays below
      [max_iterations], so no operation on it wraps.  [i % 0] has no defined
      result; the iteration reports it as [Undefined].
    - The clock is a function from the number of readings taken so far to
      the reading: [Stopwatch::tock(start_time)] is read once at the head of
      every pass and once after the loop.
    - Console output is not modelled: the [verbose] branches print and do
      nothing else.  The field width [floor(log10(max_iterations)) + 1] they
      print with is computed on every call, verbose or not, and its
      conversion to [unsigned int] has no defined result when
      [max_iterations] is 0; a call that evaluates it then yields no result.
    - [c_norm], computed once before the loop in the source, is recomputed
      from [c] where it is used. *)

From Stdlib Require Import Bool List Arith PeanoNat Lia ZArith.
From Stdlib Require Import Floats.
From Stdlib Require Import Reals Lra.
Import ListNotations.

Set Implicit Arguments.

(** ** Scalars: the operations the header performs on [double] *)

Class DoubleOps (D : Type) : Type := {
  dadd : D -> D -> D;
  dsub : D -> D -> D;
  dmul : D -> D -> D;
  ddiv : D -> D -> D;
  dsqrt : D -> D;
  (** [dlt a b] is [a < b]; [dle a b] is [a <= b] *)
  dlt : D -> D -> bool;
  dle : D -> D -> bool;
  (** the literal [2] converted to [double] *)
  dtwo : D
}.

Declare Scope double_scope.
Delimit Scope double_scope with D.
Notation "a + b" := (dadd a b) : double_scope.
Notation "a - b" := (dsub a b) : double_scope.
Notation "a * b" := (dmul a b) : double_scope.
Notation "a / b" := (ddiv a b) : double_scope.
Notation "a <? b" := (dlt a b) : double_scope.
Notation "a >? b" := (dlt b a) : double_scope.
Notation "a <=? b" := (dle a b) : double_scope.

(** IEEE 754 binary64: every comparison with a NaN is [false]. *)
#[export] Instance binary64 : DoubleOps float := {|
  dadd := PrimFloat.add;
  dsub := PrimFloat.sub;
  dmul := PrimFloat.mul;
  ddiv := PrimFloat.div;
  dsqrt := PrimFloat.sqrt;
  dlt := PrimFloat.ltb;
  dle := PrimFloat.leb;
  dtwo := 2%float
|}.

Definition Rltb (a b : R) : bool := if Rlt_dec a b then true else false.
Definition Rleb (a b : R) : bool := if Rle_dec a b then true else false.

(** Arithmetic without rounding, overflow or underflow. *)
#[export] Instance exact_real : DoubleOps R := {|
  dadd := Rplus;
  dsub := Rminus;
  dmul := Rmult;
  ddiv := Rdiv;
  dsqrt := sqrt;
  dlt := Rltb;
  dle := Rleb;
  dtwo := 2%R
|}.

(** [std::max<double>({a, b, c})]: [std::max_element] keeps the first
    candidate and replaces it whenever [largest < candidate]. *)
Definition max3 {D} `{DoubleOps D} (a b c : D) : D :=
  let largest := if (a <? b)%D then b else a in
  if (largest <? c)%D then c else largest.

(** ** Signs of binary64 values

    Predicates on the specification of a binary64 value ([Prim2SF]): the
    value is a NaN or has a clear sign bit (so it is positive, +infinity or
    +0); the value is positive (possibly +infinity). *)

Definition sf_not_negative (v : spec_float) : Prop :=
  match v with
  | S754_nan => True
  | S754_zero s | S754_infinity s | S754_finite s _ _ => s = false
  end.

Definition sf_positive (v : spec_float) : Prop :=
  match v with
  | S754_infinity false | S754_finite false _ _ => True
  | _ => False
  end.

(** The specification of the literal [2]. *)
Definition sf_two : spec_float := S754_finite false 4503599627370496 (-51).

(** A binary64 value that is positive, +0 or a NaN: what is left of
    "positive" once a product or quotient of positive numbers may underflow
    to zero, and infinity / infinity or 0 * infinity give a NaN. *)
Definition positive_zero_or_nan (r : float) : Prop :=
  (0 <? r)%float = true \/ r = 0%float \/ r = nan.

(** ** Variables: the vector-space operations the header uses *)

Class VariableOps (D V : Type) : Type := {
  (** the value of a default-constructed variable *)
  vdefault : V;
  vadd : V -> V -> V;
  vsub : V -> V -> V;
  vopp : V -> V;
  vscale : D -> V -> V
}.

Declare Scope variable_scope.
Delimit Scope variable_scope with V.
Notation "u + v" := (vadd u v) : variable_scope.
Notation "u - v" := (vsub u v) : variable_scope.
Notation "- v" := (vopp v) : variable_scope.
Notation "k * v" := (vscale k v) : variable_scope.

(** One-dimensional variables over the scalars themselves. *)
#[export] Instance float_variable : VariableOps float float := {|
  vdefault := 0%float;
  vadd := PrimFloat.add;
  vsub := PrimFloat.sub;
  vopp := PrimFloat.opp;
  vscale := PrimFloat.mul
|}.

#[export] Instance real_variable : VariableOps R R := {|
  vdefault := 0%R;
  vadd := Rplus;
  vsub := Rminus;
  vopp := Ropp;
  vscale := Rmult
|}.

(** ** Enumerations *)

Module ADMMPenaltyAdaptation.
Inductive t : Set := None | Residual_Balance | Spectral.

Definition eqb (a b : t) : bool :=
  match a, b with
  | None, None | Residual_Balance, Residual_Balance | Spectral, Spectral => true
  | _, _ => false
  end.

End ADMMPenaltyAdaptation.

Module ADMMStatus.
Inductive t : Set := RESIDUAL_TOLERANCE | ITERATION_LIMIT | ELAPSED_TIME.
End ADMMStatus.

(** ** Configuration *)

Module Params.
(** Modelled from the spec: the base struct [OptimizerParams] of
    Optimization/Convex/Concepts.h, which is not part of the source tree.
    Section 4.1 lists its members: max_iterations, max_computation_time,
    verbose, precision, log_iterates. *)
Record OptimizerParams (D : Type) : Type := {
  max_iterations : nat;
  max_computation_time : D;
  verbose : bool;
  precision : nat;
  log_iterates : bool
}.

(** [struct ADMMParams : public OptimizerParams] *)
Record ADMMParams (D : Type) : Type := {
  base : OptimizerParams D;
  rho : D;
  penalty_adaptation_mode : ADMMPenaltyAdaptation.t;
  penalty_adaptation_period : nat;
  penalty_adaptation_window : nat;
  residual_balance_mu : D;
  residual_balance_tau : D;
  spectral_penalty_minimum_correlation : D;
  eps_abs_pri : D;
  eps_abs_dual : D;
  eps_rel : D
}.
End Params.

(** ** Result *)

Module Result.
(** Modelled from the spec: the base struct [OptimizerResult] of
    Optimization/Convex/Concepts.h, which is not part of the source tree.
    Section 4.2 lists the members the solver writes: the final estimate,
    the total elapsed time, the per-iteration elapsed times and the
    optional iterate snapshots. *)
Record OptimizerResult (V D : Type) : Type := {
  x : V;
  elapsed_time : D;
  time : list D;
  iterates : list V
}.

(** [struct ADMMResult : OptimizerResult<std::pair<VariableX, VariableY>>] *)
Record ADMMResult (VariableX VariableY D : Type) : Type := {
  base : OptimizerResult (VariableX * VariableY) D;
  status : ADMMStatus.t;
  primal_residuals : list D;
  dual_residuals : list D;
  penalty_parameters : list D
}.
End Result.

(** ** The two penalty-parameter update rules *)

Section UpdateRules.
Context {D : Type} {DO : DoubleOps D}.

Definition residual_balance_penalty_parameter_update
    (primal_residual dual_residual mu tau rho : D) : D :=
  if (primal_residual >? mu * dual_residual)%D then (tau * rho)%D
  else if (dual_residual >? mu * primal_residual)%D then (rho / tau)%D
  else rho.

Context {VariableR : Type}.

Definition spectral_penalty_parameter_update
    (delta_lambda_hat delta_lambda delta_H_hat delta_G_hat : VariableR)
    (inner_product : VariableR -> VariableR -> D)
    (eps_cor rho : D) : D :=
  let delta_lambda_hat_delta_lambda_hat :=
    inner_product delta_lambda_hat delta_lambda_hat in
  let delta_H_hat_delta_lambda_hat :=
    inner_product delta_H_hat delta_lambda_hat in
  let delta_H_hat_delta_H_hat := inner_product delta_H_hat delta_H_hat in
  let delta_lambda_delta_lambda := inner_product delta_lambda delta_lambda in
  let delta_G_hat_delta_lambda := inner_product delta_G_hat delta_lambda in
  let delta_G_hat_delta_G_hat := inner_product delta_G_hat delta_G_hat in
  let alpha_SD :=
    (delta_lambda_hat_delta_lambda_hat / delta_H_hat_delta_lambda_hat)%D in
  let alpha_MG :=
    (delta_H_hat_delta_lambda_hat / delta_H_hat_delta_H_hat)%D in
  let beta_SD := (delta_lambda_delta_lambda / delta_G_hat_delta_lambda)%D in
  let beta_MG := (delta_G_hat_delta_lambda / delta_G_hat_delta_G_hat)%D in
  let alpha :=
    if (dtwo * alpha_MG >? alpha_SD)%D then alpha_MG
    else (alpha_SD - alpha_MG / dtwo)%D in
  let beta :=
    if (dtwo * beta_MG >? beta_SD)%D then beta_MG
    else (beta_SD - beta_MG / dtwo)%D in
  let delta_lambda_hat_norm := dsqrt delta_lambda_hat_delta_lambda_hat in
  let alpha_cor :=
    (delta_H_hat_delta_lambda_hat /
     (dsqrt delta_H_hat_delta_H_hat * delta_lambda_hat_norm))%D in
  let delta_lambda_norm := dsqrt delta_lambda_delta_lambda in
  let beta_cor :=
    (delta_G_hat_delta_lambda /
     (dsqrt delta_G_hat_delta_G_hat * delta_lambda_norm))%D in
  if (alpha_cor >? eps_cor)%D && (beta_cor >? eps_cor)%D
  then dsqrt (alpha * beta)%D
  else if (alpha_cor >? eps_cor)%D && (beta_cor <=? eps_cor)%D then alpha
  else if (alpha_cor <=? eps_cor)%D && (beta_cor >? eps_cor)%D then beta
  else rho.
End UpdateRules.


(** ** The spectral update as section 4.5 of the specification words it *)

Section SpectralSpecification.
Context {D : Type} {DO : DoubleOps D} {VariableR : Type}.
Variable inner_product : VariableR -> VariableR -> D.

(** Steepest-descent candidate: <dl, dl> / <dF, dl> *)
Definition stepsize_SD (delta_lambda delta_F : VariableR) : D :=
  (inner_product delta_lambda delta_lambda
   / inner_product delta_F delta_lambda)%D.

(** Minimum-gradient candidate: <dF, dl> / <dF, dF> *)
Definition stepsize_MG (delta_lambda delta_F : VariableR) : D :=
  (inner_product delta_F delta_lambda / inner_product delta_F delta_F)%D.

(** MG if 2 MG > SD, else SD - MG / 2 *)
Definition hybrid_stepsize (SD MG : D) : D :=
  if (dtwo * MG >? SD)%D then MG else (SD - MG / dtwo)%D.

(** <dF, dl> / (|dF| |dl|) *)
Definition correlation (delta_lambda delta_F : VariableR) : D :=
  (inner_product delta_F delta_lambda
   / (dsqrt (inner_product delta_F delta_F)
      * dsqrt (inner_product delta_lambda delta_lambda)))%D.

(** Both correlations pass: sqrt(alpha beta); only alpha's passes: alpha;
    only beta's passes: beta; neither passes: rho.  A correlation passes
    when it exceeds [eps_cor]. *)
Definition safeguard_selection
    (alpha beta alpha_cor beta_cor eps_cor rho : D) : D :=
  let alpha_passes := (alpha_cor >? eps_cor)%D in
  let beta_passes := (beta_cor >? eps_cor)%D in
  if alpha_passes && beta_passes then dsqrt (alpha * beta)%D
  else if alpha_passes then alpha
  else if beta_passes then beta
  else rho.

Definition spectral_update_spec
    (delta_lambda_hat delta_lambda delta_H delta_G : VariableR)
    (eps_cor rho : D) : D :=
  safeguard_selection
    (hybrid_stepsize (stepsize_SD delta_lambda_hat delta_H)
       (stepsize_MG delta_lambda_hat delta_H))
    (hybrid_stepsize (stepsize_SD delta_lambda delta_G)
       (stepsize_MG delta_lambda delta_G))
    (correlation delta_lambda_hat delta_H)
    (correlation delta_lambda delta_G)
    eps_cor rho.

(** The six denominators of the divisions the update performs, in the
    order alpha_SD, alpha_MG, beta_SD, beta_MG, alpha_cor, beta_cor. *)
Definition spectral_denominators
    (delta_lambda_hat delta_lambda delta_H delta_G : VariableR) : list D :=
  [ inner_product delta_H delta_lambda_hat;
    inner_product delta_H delta_H;
    inner_product delta_G delta_lambda;
    inner_product delta_G delta_G;
    (dsqrt (inner_product delta_H delta_H)
     * dsqrt (inner_product delta_lambda_hat delta_lambda_hat))%D;
    (dsqrt (inner_product delta_G delta_G)
     * dsqrt (inner_product delta_lambda delta_lambda))%D ].
End SpectralSpecification.

(** ** The solver loop *)

Module Vars.
(** The variables of [ADMM] that live across iterations, with the members of
    [result] the loop writes.  The header declares [y_prev] with type
    [VariableX]; it only ever holds values of [y] and is passed to [B], so it
    is given the type of [y] here.  The last three fields are bookkeeping of
    the embedding: how many times [Stopwatch::tock] was read and how many
    times each minimisation oracle was invoked. *)
Record t (VariableX VariableY VariableR D : Type) : Type := make {
  x : VariableX;
  y : VariableY;
  lambda : VariableR;
  y_prev : VariableY;
  rho : D;
  lambda_hat : VariableR;
  x_k0 : VariableX;
  y_k0 : VariableY;
  lambda_k0 : VariableR;
  lambda_hat_k0 : VariableR;
  result_status : ADMMStatus.t;
  result_time : list D;
  result_primal_residuals : list D;
  result_dual_residuals : list D;
  result_penalty_parameters : list D;
  result_iterates : list (VariableX * VariableY);
  tocks : nat;
  minLx_calls : nat;
  minLy_calls : nat
}.
End Vars.

(** What one pass through the loop body does to the control flow: fall
    through to [++i], leave by [break], or evaluate [i % 0]. *)
Inductive Outcome (S : Type) : Type :=
| Continue (st : S)
| Break (st : S)
| Undefined.
Arguments Undefined {S}.

(** [a % b] on [unsigned int] *)
Definition unsigned_mod (a b : nat) : option nat :=
  if b =? 0 then None else Some (a mod b).

(** [unsigned int iter_field_width = floor(log10(params.max_iterations)) + 1]:
    the number of decimal digits of [max_iterations].  For
    [max_iterations = 0] the logarithm is minus infinity, and the conversion
    of minus infinity to [unsigned int] has no defined result. *)
Definition iter_field_width (max_iterations : nat) : option nat :=
  if max_iterations =? 0 then None
  else Some (Decimal.nb_digits (Nat.to_uint max_iterations)).

Section Solver.
Context {D : Type} {DO : DoubleOps D}.
Context {VariableX VariableY VariableR : Type}.
Context {VX : VariableOps D VariableX}.
Context {VY : VariableOps D VariableY}.
Context {VR : VariableOps D VariableR}.

(** [Stopwatch_tock k] is what the [k]-th evaluation (counting from 0) of
    [Stopwatch::tock(start_time)] returns during the call. *)
Variable Stopwatch_tock : nat -> D.

Variable minLx : VariableX -> VariableY -> VariableR -> D -> VariableX.
Variable minLy : VariableX -> VariableY -> VariableR -> D -> VariableY.
Variable A : VariableX -> VariableR.
Variable B : VariableY -> VariableR.
Variable At : VariableR -> VariableX.
Variable inner_product_x : VariableX -> VariableX -> D.
Variable inner_product_r : VariableR -> VariableR -> D.
Variable c : VariableR.
Variable x0 : VariableX.
Variable y0 : VariableY.
Variable params : Params.ADMMParams D.

Local Abbreviation State := (Vars.t VariableX VariableY VariableR D).

(** [guard && ((i % period) == 0) && (i < window)], evaluated left to right
    with short-circuiting: the remainder is only taken when [guard] holds. *)
Definition periodic_trigger (guard : bool) (i : nat) : option bool :=
  if guard then
    match unsigned_mod i (Params.penalty_adaptation_period params) with
    | None => None
    | Some m => Some ((m =? 0) && (i <? Params.penalty_adaptation_window params))
    end
  else Some false.

(** The condition guarding the computation of [lambda_hat]. *)
Definition spectral_trigger (i : nat) : option bool :=
  periodic_trigger
    (ADMMPenaltyAdaptation.eqb (Params.penalty_adaptation_mode params)
       ADMMPenaltyAdaptation.Spectral) i.

(** The condition guarding the penalty parameter update. *)
Definition adaptation_trigger (i : nat) : option bool :=
  periodic_trigger
    (negb (ADMMPenaltyAdaptation.eqb (Params.penalty_adaptation_mode params)
             ADMMPenaltyAdaptation.None)) i.

(** INITIALIZATION *)
Definition admm_init : State :=
  let x := x0 in
  let y := y0 in
  let y_prev := y0 in
  let rho := Params.rho params in
  let lambda := (rho * (A x + B y - c))%V in
  let spectral :=
    ADMMPenaltyAdaptation.eqb (Params.penalty_adaptation_mode params)
      ADMMPenaltyAdaptation.Spectral in
  {| Vars.x := x;
     Vars.y := y;
     Vars.lambda := lambda;
     Vars.y_prev := y_prev;
     Vars.rho := rho;
     Vars.lambda_hat := vdefault;
     Vars.x_k0 := if spectral then x else vdefault;
     Vars.y_k0 := if spectral then y else vdefault;
     Vars.lambda_k0 := if spectral then lambda else vdefault;
     Vars.lambda_hat_k0 := if spectral then lambda else vdefault;
     Vars.result_status := ADMMStatus.ITERATION_LIMIT;
     Vars.result_time := [];
     Vars.result_primal_residuals := [];
     Vars.result_dual_residuals := [];
     Vars.result_penalty_parameters := [];
     Vars.result_iterates := [];
     Vars.tocks := 0;
     Vars.minLx_calls := 0;
     Vars.minLy_calls := 0 |}.

(** The body of the [for] loop at counter value [i]. *)
Definition admm_iteration (i : nat) (st : State) : Outcome State :=
  let elapsed_time := Stopwatch_tock (Vars.tocks st) in
  if (elapsed_time >? Params.max_computation_time (Params.base params))%D then
    Break
      {| Vars.x := Vars.x st;
         Vars.y := Vars.y st;
         Vars.lambda := Vars.lambda st;
         Vars.y_prev := Vars.y_prev st;
         Vars.rho := Vars.rho st;
         Vars.lambda_hat := Vars.lambda_hat st;
         Vars.x_k0 := Vars.x_k0 st;
         Vars.y_k0 := Vars.y_k0 st;
         Vars.lambda_k0 := Vars.lambda_k0 st;
         Vars.lambda_hat_k0 := Vars.lambda_hat_k0 st;
         Vars.result_status := ADMMStatus.ELAPSED_TIME;
         Vars.result_time := Vars.result_time st;
         Vars.result_primal_residuals := Vars.result_primal_residuals st;
         Vars.result_dual_residuals := Vars.result_dual_residuals st;
         Vars.result_penalty_parameters := Vars.result_penalty_parameters st;
         Vars.result_iterates := Vars.result_iterates st;
         Vars.tocks := S (Vars.tocks st);
         Vars.minLx_calls := Vars.minLx_calls st;
         Vars.minLy_calls := Vars.minLy_calls st |}
  else
    let rho := Vars.rho st in
    let y_prev := Vars.y_prev st in
    let x := minLx (Vars.x st) (Vars.y st) (Vars.lambda st) rho in
    let y := minLy x (Vars.y st) (Vars.lambda st) rho in
    let Ax := A x in
    let By := B y in
    let r := (Ax + By - c)%V in
    match spectral_trigger i with
    | None => Undefined
    | Some compute_lambda_hat =>
      let lambda_hat :=
        if compute_lambda_hat
        then (Vars.lambda st + rho * (Ax + B y_prev - c))%V
        else Vars.lambda_hat st in
      let lambda := (Vars.lambda st + rho * r)%V in
      let s := (rho * At (B (y - y_prev)))%V in
      let primal_residual := dsqrt (inner_product_r r r) in
      let dual_residual := dsqrt (inner_product_x s s) in
      let time := Vars.result_time st ++ [elapsed_time] in
      let primal_residuals :=
        Vars.result_primal_residuals st ++ [primal_residual] in
      let dual_residuals := Vars.result_dual_residuals st ++ [dual_residual] in
      let penalty_parameters := Vars.result_penalty_parameters st ++ [rho] in
      let iterates :=
        if Params.log_iterates (Params.base params)
        then Vars.result_iterates st ++ [(x, y)]
        else Vars.result_iterates st in
      let Ax_norm := dsqrt (inner_product_r Ax Ax) in
      let By_norm := dsqrt (inner_product_r By By) in
      let c_norm := dsqrt (inner_product_r c c) in
      let eps_primal :=
        (Params.eps_abs_pri params
         + Params.eps_rel params * max3 Ax_norm By_norm c_norm)%D in
      let At_lambda := At lambda in
      let At_lambda_norm := dsqrt (inner_product_x At_lambda At_lambda) in
      let eps_dual :=
        (Params.eps_abs_dual params + Params.eps_rel params * At_lambda_norm)%D in
      if (primal_residual <? eps_primal)%D && (dual_residual <? eps_dual)%D then
        Break
          {| Vars.x := x;
             Vars.y := y;
             Vars.lambda := lambda;
             Vars.y_prev := y_prev;
             Vars.rho := rho;
             Vars.lambda_hat := lambda_hat;
             Vars.x_k0 := Vars.x_k0 st;
             Vars.y_k0 := Vars.y_k0 st;
             Vars.lambda_k0 := Vars.lambda_k0 st;
             Vars.lambda_hat_k0 := Vars.lambda_hat_k0 st;
             Vars.result_status := ADMMStatus.RESIDUAL_TOLERANCE;
             Vars.result_time := time;
             Vars.result_primal_residuals := primal_residuals;
             Vars.result_dual_residuals := dual_residuals;
             Vars.result_penalty_parameters := penalty_parameters;
             Vars.result_iterates := iterates;
             Vars.tocks := S (Vars.tocks st);
             Vars.minLx_calls := S (Vars.minLx_calls st);
             Vars.minLy_calls := S (Vars.minLy_calls st) |}
      else
        match adaptation_trigger i with
        | None => Undefined
        | Some update_penalty =>
          let mode := Params.penalty_adaptation_mode params in
          let balance :=
            update_penalty
            && ADMMPenaltyAdaptation.eqb mode
                 ADMMPenaltyAdaptation.Residual_Balance in
          let spectral :=
            update_penalty
            && ADMMPenaltyAdaptation.eqb mode ADMMPenaltyAdaptation.Spectral in
          let rho_balanced :=
            if balance
            then residual_balance_penalty_parameter_update
                   primal_residual dual_residual
                   (Params.residual_balance_mu params)
                   (Params.residual_balance_tau params) rho
            else rho in
          let delta_lambda := (lambda - Vars.lambda_k0 st)%V in
          let delta_lambda_hat := (lambda_hat - Vars.lambda_hat_k0 st)%V in
          let delta_H := (- A (x - Vars.x_k0 st))%V in
          let delta_G := (- B (y - Vars.y_k0 st))%V in
          let rho_next :=
            if spectral
            then spectral_penalty_parameter_update
                   delta_lambda_hat delta_lambda delta_H delta_G
                   inner_product_r
                   (Params.spectral_penalty_minimum_correlation params)
                   rho_balanced
            else rho_balanced in
          Continue
            {| Vars.x := x;
               Vars.y := y;
               Vars.lambda := lambda;
               Vars.y_prev := y;
               Vars.rho := rho_next;
               Vars.lambda_hat := lambda_hat;
               Vars.x_k0 := if spectral then x else Vars.x_k0 st;
               Vars.y_k0 := if spectral then y else Vars.y_k0 st;
               Vars.lambda_k0 := if spectral then lambda else Vars.lambda_k0 st;
               Vars.lambda_hat_k0 :=
                 if spectral then lambda_hat else Vars.lambda_hat_k0 st;
               Vars.result_status := Vars.result_status st;
               Vars.result_time := time;
               Vars.result_primal_residuals := primal_residuals;
               Vars.result_dual_residuals := dual_residuals;
               Vars.result_penalty_parameters := penalty_parameters;
               Vars.result_iterates := iterates;
               Vars.tocks := S (Vars.tocks st);
               Vars.minLx_calls := S (Vars.minLx_calls st);
               Vars.minLy_calls := S (Vars.minLy_calls st) |}
        end
    end.

(** [for (unsigned int i = 0; i < params.max_iterations; ++i)], entered at
    counter value [i] with [remaining = max_iterations - i] passes left. *)
Fixpoint admm_loop (remaining i : nat) (st : State) : option State :=
  match remaining with
  | 0 => Some st
  | S remaining' =>
    match admm_iteration i st with
    | Continue st' => admm_loop remaining' (S i) st'
    | Break st' => Some st'
    | Undefined => None
    end
  end.

(** RECORD FINAL OUTPUT *)
Definition admm_result (st : State) : Result.ADMMResult VariableX VariableY D :=
  {| Result.base :=
       {| Result.x := (Vars.x st, Vars.y st);
          Result.elapsed_time := Stopwatch_tock (Vars.tocks st);
          Result.time := Vars.result_time st;
          Result.iterates := Vars.result_iterates st |};
     Result.status := Vars.result_status st;
     Result.primal_residuals := Vars.result_primal_residuals st;
     Result.dual_residuals := Vars.result_dual_residuals st;
     Result.penalty_parameters := Vars.result_penalty_parameters st |}.

(** The three-space solver.  [None] stands for a call whose behaviour the
    language leaves undefined: the field width of a zero [max_iterations],
    computed before the loop, or a remainder by a zero adaptation period. *)
Definition ADMM : option (Result.ADMMResult VariableX VariableY D) :=
  match iter_field_width (Params.max_iterations (Params.base params)) with
  | None => None
  | Some _ =>
    match
      admm_loop (Params.max_iterations (Params.base params)) 0 admm_init
    with
    | Some st => Some (admm_result st)
    | None => None
    end
  end.

(** *** Quantities of one iteration, as functions of the state at its head *)

(** The clock reading taken at the start of the iteration. *)
Definition elapsed_at (st : State) : D := Stopwatch_tock (Vars.tocks st).

(** The elapsed-time stopping criterion. *)
Definition time_exceeded (st : State) : bool :=
  (elapsed_at st >? Params.max_computation_time (Params.base params))%D.

Definition x_next (st : State) : VariableX :=
  minLx (Vars.x st) (Vars.y st) (Vars.lambda st) (Vars.rho st).

Definition y_next (st : State) : VariableY :=
  minLy (x_next st) (Vars.y st) (Vars.lambda st) (Vars.rho st).

(** r = Ax + By - c *)
Definition primal_residual_vector (st : State) : VariableR :=
  (A (x_next st) + B (y_next st) - c)%V.

(** The dual variable after the dual update of the iteration. *)
Definition lambda_next (st : State) : VariableR :=
  (Vars.lambda st + Vars.rho st * primal_residual_vector st)%V.

(** s = rho * At(B(y - y_prev)) *)
Definition dual_residual_vector (st : State) : VariableX :=
  (Vars.rho st * At (B (y_next st - Vars.y_prev st)))%V.

Definition norm_r (v : VariableR) : D := dsqrt (inner_product_r v v).
Definition norm_x (v : VariableX) : D := dsqrt (inner_product_x v v).

Definition primal_residual_norm (st : State) : D :=
  norm_r (primal_residual_vector st).

Definition dual_residual_norm (st : State) : D :=
  norm_x (dual_residual_vector st).

(** eps_pri = eps_abs_pri + eps_rel * max {|Ax|, |By|, |c|} *)
Definition eps_primal_at (st : State) : D :=
  (Params.eps_abs_pri params
   + Params.eps_rel params
     * max3 (norm_r (A (x_next st))) (norm_r (B (y_next st))) (norm_r c))%D.

(** eps_dual = eps_abs_dual + eps_rel * |At lambda| *)
Definition eps_dual_at (st : State) : D :=
  (Params.eps_abs_dual params
   + Params.eps_rel params * norm_x (At (lambda_next st)))%D.

(** The residual-based stopping criterion. *)
Definition residuals_within_tolerance (st : State) : bool :=
  (primal_residual_norm st <? eps_primal_at st)%D
  && (dual_residual_norm st <? eps_dual_at st)%D.

(** [lambda_hat], recomputed when the pass is one with [compute] set. *)
Definition lambda_hat_next (compute : bool) (st : State) : VariableR :=
  if compute
  then (Vars.lambda st
        + Vars.rho st * (A (x_next st) + B (Vars.y_prev st) - c))%V
  else Vars.lambda_hat st.

(** The differences handed to the spectral update. *)
Definition delta_lambda (st : State) : VariableR :=
  (lambda_next st - Vars.lambda_k0 st)%V.

Definition delta_lambda_hat (compute : bool) (st : State) : VariableR :=
  (lambda_hat_next compute st - Vars.lambda_hat_k0 st)%V.

Definition delta_H (st : State) : VariableR :=
  (- A (x_next st - Vars.x_k0 st))%V.

Definition delta_G (st : State) : VariableR :=
  (- B (y_next st - Vars.y_k0 st))%V.

(** The denominators of the spectral update of a pass that performs one
    (such a pass has recomputed [lambda_hat]). *)
Definition pass_denominators (st : State) : list D :=
  spectral_denominators inner_product_r
    (delta_lambda_hat true st) (delta_lambda st) (delta_H st) (delta_G st).

(** The penalty parameter after the residual-balancing branch. *)
Definition rho_balanced (update : bool) (st : State) : D :=
  if update
     && ADMMPenaltyAdaptation.eqb (Params.penalty_adaptation_mode params)
          ADMMPenaltyAdaptation.Residual_Balance
  then residual_balance_penalty_parameter_update
         (primal_residual_norm st) (dual_residual_norm st)
         (Params.residual_balance_mu params)
         (Params.residual_balance_tau params) (Vars.rho st)
  else Vars.rho st.

(** The penalty parameter the next pass starts with. *)
Definition rho_next (compute update : bool) (st : State) : D :=
  if update
     && ADMMPenaltyAdaptation.eqb (Params.penalty_adaptation_mode params)
          ADMMPenaltyAdaptation.Spectral
  then spectral_penalty_parameter_update
         (delta_lambda_hat compute st) (delta_lambda st)
         (delta_H st) (delta_G st) inner_product_r
         (Params.spectral_penalty_minimum_correlation params)
         (rho_balanced update st)
  else rho_balanced update st.

(** The state on leaving through the elapsed-time [break]. *)
Definition state_on_timeout (st : State) : State :=
  {| Vars.x := Vars.x st;
     Vars.y := Vars.y st;
     Vars.lambda := Vars.lambda st;
     Vars.y_prev := Vars.y_prev st;
     Vars.rho := Vars.rho st;
     Vars.lambda_hat := Vars.lambda_hat st;
     Vars.x_k0 := Vars.x_k0 st;
     Vars.y_k0 := Vars.y_k0 st;
     Vars.lambda_k0 := Vars.lambda_k0 st;
     Vars.lambda_hat_k0 := Vars.lambda_hat_k0 st;
     Vars.result_status := ADMMStatus.ELAPSED_TIME;
     Vars.result_time := Vars.result_time st;
     Vars.result_primal_residuals := Vars.result_primal_residuals st;
     Vars.result_dual_residuals := Vars.result_dual_residuals st;
     Vars.result_penalty_parameters := Vars.result_penalty_parameters st;
     Vars.result_iterates := Vars.result_iterates st;
     Vars.tocks := S (Vars.tocks st);
     Vars.minLx_calls := Vars.minLx_calls st;
     Vars.minLy_calls := Vars.minLy_calls st |}.

(** The state once the pass has recorded its output, with the given status
    and the given values of the variables the tail of the pass may change. *)
Definition state_after_record (compute : bool) (st : State)
    (status : ADMMStatus.t) (y_prev : VariableY) (rho : D)
    (checkpoint : bool) : State :=
  {| Vars.x := x_next st;
     Vars.y := y_next st;
     Vars.lambda := lambda_next st;
     Vars.y_prev := y_prev;
     Vars.rho := rho;
     Vars.lambda_hat := lambda_hat_next compute st;
     Vars.x_k0 := if checkpoint then x_next st else Vars.x_k0 st;
     Vars.y_k0 := if checkpoint then y_next st else Vars.y_k0 st;
     Vars.lambda_k0 := if checkpoint then lambda_next st else Vars.lambda_k0 st;
     Vars.lambda_hat_k0 :=
       if checkpoint then lambda_hat_next compute st
       else Vars.lambda_hat_k0 st;
     Vars.result_status := status;
     Vars.result_time := Vars.result_time st ++ [elapsed_at st];
     Vars.result_primal_residuals :=
       Vars.result_primal_residuals st ++ [primal_residual_norm st];
     Vars.result_dual_residuals :=
       Vars.result_dual_residuals st ++ [dual_residual_norm st];
     Vars.result_penalty_parameters :=
       Vars.result_penalty_parameters st ++ [Vars.rho st];
     Vars.result_iterates :=
       if Params.log_iterates (Params.base params)
       then Vars.result_iterates st ++ [(x_next st, y_next st)]
       else Vars.result_iterates st;
     Vars.tocks := S (Vars.tocks st);
     Vars.minLx_calls := S (Vars.minLx_calls st);
     Vars.minLy_calls := S (Vars.minLy_calls st) |}.

(** The state on leaving through the residual-tolerance [break]. *)
Definition state_on_convergence (compute : bool) (st : State) : State :=
  state_after_record compute st ADMMStatus.RESIDUAL_TOLERANCE
    (Vars.y_prev st) (Vars.rho st) false.

(** The state at the end of a pass that falls through to [++i]. *)
Definition state_on_continue (compute update : bool) (st : State) : State :=
  state_after_record compute st (Vars.result_status st)
    (y_next st) (rho_next compute update st)
    (update
     && ADMMPenaltyAdaptation.eqb (Params.penalty_adaptation_mode params)
          ADMMPenaltyAdaptation.Spectral).

(** Telemetry and call counts of a state agree: one record and one call of
    each oracle per completed pass. *)
Definition records_match_calls (st : State) : Prop :=
  Vars.minLx_calls st = length (Vars.result_time st)
  /\ Vars.minLy_calls st = length (Vars.result_time st)
  /\ length (Vars.result_primal_residuals st) = length (Vars.result_time st)
  /\ length (Vars.result_dual_residuals st) = length (Vars.result_time st)
  /\ length (Vars.result_penalty_parameters st)
     = length (Vars.result_time st).

(** The state at the head of the pass with counter [i + k], for a loop that
    is at the head of pass [i] in state [st]; [None] when the loop has left
    before. *)
Fixpoint head_from (k i : nat) (st : State) : option State :=
  match k with
  | 0 => Some st
  | S k' =>
    match admm_iteration i st with
    | Continue st' => head_from k' (S i) st'
    | _ => None
    end
  end.

(** The state at the start of iteration [k] of a call. *)
Definition loop_head (k : nat) : option State := head_from k 0 admm_init.

End Solver.

(** ** The single-space overload *)

Module SingleSpace.
Section Overload.
Context {D : Type} {DO : DoubleOps D}.
Context {Variable_ : Type} {VO : VariableOps D Variable_}.

(** [ADMM<Variable, Variable, Variable, Args...>(minLx, minLy, A, B, At,
    inner_product, inner_product, c, x0, y0, args..., params)] *)
Definition ADMM
    (Stopwatch_tock : nat -> D)
    (minLx minLy : Variable_ -> Variable_ -> Variable_ -> D -> Variable_)
    (A B At : Variable_ -> Variable_)
    (inner_product : Variable_ -> Variable_ -> D)
    (c x0 y0 : Variable_)
    (params : Params.ADMMParams D)
    : option (Result.ADMMResult Variable_ Variable_ D) :=
  ADMM Stopwatch_tock minLx minLy A B At inner_product inner_product
    c x0 y0 params.
End Overload.
End SingleSpace.

(** ** A concrete problem

    f(x) = (x - a)^2 / 2, g(y) = (y - b)^2 / 2, constraint x - y = 0, on the
    real line: A is the identity, B the negation, c = 0.  The minimisers of
    the augmented Lagrangian are available in closed form. *)

Module Quadratic.
Definition minLx (a : float) (x y lambda rho : float) : float :=
  ((a - lambda + rho * y) / (1 + rho))%float.

Definition minLy (b : float) (x y lambda rho : float) : float :=
  ((b + lambda + rho * x) / (1 + rho))%float.

Definition A (x : float) : float := x.
Definition B (y : float) : float := (- y)%float.
Definition At (r : float) : float := r.
Definition inner_product (u v : float) : float := (u * v)%float.

(** A clock that advances by one second per reading. *)
Fixpoint seconds (k : nat) : float :=
  match k with
  | 0 => 0%float
  | S k' => (seconds k' + 1)%float
  end.

Definition budget (max_iterations : nat) (max_computation_time : float)
    : Params.OptimizerParams float :=
  {| Params.max_iterations := max_iterations;
     Params.max_computation_time := max_computation_time;
     Params.verbose := false;
     Params.precision := 3;
     Params.log_iterates := false |}.

(** The default of [spectral_penalty_minimum_correlation]: the double
    nearest to .2 *)
Definition eps_cor : float := 0x1.999999999999ap-3%float.

(** A configuration with a time budget of 1000 seconds and the default
    adaptation window, all other members given. *)
Definition configuration (mode : ADMMPenaltyAdaptation.t)
    (rho mu tau eps_cor eps_abs eps_rel : float)
    (period max_iterations : nat) : Params.ADMMParams float :=
  {| Params.base := budget max_iterations 1000;
     Params.rho := rho;
     Params.penalty_adaptation_mode := mode;
     Params.penalty_adaptation_period := period;
     Params.penalty_adaptation_window := 1000;
     Params.residual_balance_mu := mu;
     Params.residual_balance_tau := tau;
     Params.spectral_penalty_minimum_correlation := eps_cor;
     Params.eps_abs_pri := eps_abs;
     Params.eps_abs_dual := eps_abs;
     Params.eps_rel := eps_rel |}.

(** The default member initialisers of [ADMMParams], with the adaptation
    mode, period and budget left open.  The three tolerances are the doubles
    nearest to 1e-2, 1e-2 and 1e-3. *)
Definition params (mode : ADMMPenaltyAdaptation.t) (period : nat)
    (max_iterations : nat) (max_computation_time : float)
    : Params.ADMMParams float :=
  {| Params.base := budget max_iterations max_computation_time;
     Params.rho := 1%float;
     Params.penalty_adaptation_mode := mode;
     Params.penalty_adaptation_period := period;
     Params.penalty_adaptation_window := 1000;
     Params.residual_balance_mu := 10%float;
     Params.residual_balance_tau := 2%float;
     Params.spectral_penalty_minimum_correlation := eps_cor;
     Params.eps_abs_pri := 0x1.47ae147ae147bp-7%float;
     Params.eps_abs_dual := 0x1.47ae147ae147bp-7%float;
     Params.eps_rel := 0x1.0624dd2f1a9fcp-10%float |}.

(** Residual balancing on every pass with the scale factor tau = -2, from
    rho = 2^-10. *)
Definition negative_tau : Params.ADMMParams float :=
  configuration ADMMPenaltyAdaptation.Residual_Balance
    0x1p-10 10 (-2) eps_cor
    0x1.47ae147ae147bp-7 0x1.0624dd2f1a9fcp-10 1 3.

(** Residual balancing on every pass with the default mu = 10 and tau = 2,
    from the smallest positive double, with zero tolerances. *)
Definition smallest_rho : Params.ADMMParams float :=
  configuration ADMMPenaltyAdaptation.Residual_Balance
    0x1p-1074 10 2 eps_cor 0 0 1 3.

(** Spectral adaptation on every pass with the correlation threshold -2,
    with zero tolerances. *)
Definition negative_threshold : Params.ADMMParams float :=
  configuration ADMMPenaltyAdaptation.Spectral 1 10 2 (-2) 0 0 1 3.

(** The solver on the problem with the given a and b, started at the
    origin. *)
Definition head (a b : float) (p : Params.ADMMParams float) (k : nat) :=
  loop_head seconds (minLx a) (minLy b) A B At inner_product inner_product
    0%float 0%float 0%float p k.

(** The problem with a = 1, b = 3, started at the origin. *)
Definition solve (p : Params.ADMMParams float) :=
  SingleSpace.ADMM seconds (minLx 1) (minLy 3) A B At inner_product
    0%float 0%float 0%float p.
End Quadratic.


(** The same problem in exact arithmetic, with a = 1 and b = 3. *)

Module QuadraticExact.
Definition minLx (x y lambda rho : R) : R :=
  ((1 - lambda + rho * y) / (1 + rho))%R.

Definition minLy (x y lambda rho : R) : R :=
  ((3 + lambda + rho * x) / (1 + rho))%R.

Definition A (x : R) : R := x.
Definition B (y : R) : R := (- y)%R.
Definition At (r : R) : R := r.
Definition inner_product (u v : R) : R := (u * v)%R.

(** A clock that has not advanced at all. *)
Definition clock (k : nat) : R := 0%R.
End QuadraticExact.

(** ** Variations of a configuration and of a state, to compare runs *)

(** [params] with another value of [max_iterations]. *)
Definition with_max_iterations {D : Type} (n : nat)
    (params : Params.ADMMParams D) : Params.ADMMParams D :=
  {| Params.base :=
       {| Params.max_iterations := n;
          Params.max_computation_time :=
            Params.max_computation_time (Params.base params);
          Params.verbose := Params.verbose (Params.base params);
          Params.precision := Params.precision (Params.base params);
          Params.log_iterates := Params.log_iterates (Params.base params) |};
     Params.rho := Params.rho params;
     Params.penalty_adaptation_mode := Params.penalty_adaptation_mode params;
     Params.penalty_adaptation_period :=
       Params.penalty_adaptation_period params;
     Params.penalty_adaptation_window :=
       Params.penalty_adaptation_window params;
     Params.residual_balance_mu := Params.residual_balance_mu params;
     Params.residual_balance_tau := Params.residual_balance_tau params;
     Params.spectral_penalty_minimum_correlation :=
       Params.spectral_penalty_minimum_correlation params;
     Params.eps_abs_pri := Params.eps_abs_pri params;
     Params.eps_abs_dual := Params.eps_abs_dual params;
     Params.eps_rel := Params.eps_rel params |}.

(** [params] with another value of [log_iterates]. *)
Definition with_log_iterates {D : Type} (log : bool)
    (params : Params.ADMMParams D) : Params.ADMMParams D :=
  {| Params.base :=
       {| Params.max_iterations := Params.max_iterations (Params.base params);
          Params.max_computation_time :=
            Params.max_computation_time (Params.base params);
          Params.verbose := Params.verbose (Params.base params);
          Params.precision := Params.precision (Params.base params);
          Params.log_iterates := log |};
     Params.rho := Params.rho params;
     Params.penalty_adaptation_mode := Params.penalty_adaptation_mode params;
     Params.penalty_adaptation_period :=
       Params.penalty_adaptation_period params;
     Params.penalty_adaptation_window :=
       Params.penalty_adaptation_window params;
     Params.residual_balance_mu := Params.residual_balance_mu params;
     Params.residual_balance_tau := Params.residual_balance_tau params;
     Params.spectral_penalty_minimum_correlation :=
       Params.spectral_penalty_minimum_correlation params;
     Params.eps_abs_pri := Params.eps_abs_pri params;
     Params.eps_abs_dual := Params.eps_abs_dual params;
     Params.eps_rel := Params.eps_rel params |}.

(** A state with the recorded elapsed times dropped. *)
Definition without_times {VariableX VariableY VariableR D : Type}
    (st : Vars.t VariableX VariableY VariableR D)
    : Vars.t VariableX VariableY VariableR D :=
  {| Vars.x := Vars.x st;
     Vars.y := Vars.y st;
     Vars.lambda := Vars.lambda st;
     Vars.y_prev := Vars.y_prev st;
     Vars.rho := Vars.rho st;
     Vars.lambda_hat := Vars.lambda_hat st;
     Vars.x_k0 := Vars.x_k0 st;
     Vars.y_k0 := Vars.y_k0 st;
     Vars.lambda_k0 := Vars.lambda_k0 st;
     Vars.lambda_hat_k0 := Vars.lambda_hat_k0 st;
     Vars.result_status := Vars.result_status st;
     Vars.result_time := [];
     Vars.result_primal_residuals := Vars.result_primal_residuals st;
     Vars.result_dual_residuals := Vars.result_dual_residuals st;
     Vars.result_penalty_parameters := Vars.result_penalty_parameters st;
     Vars.result_iterates := Vars.result_iterates st;
     Vars.tocks := Vars.tocks st;
     Vars.minLx_calls := Vars.minLx_calls st;
     Vars.minLy_calls := Vars.minLy_calls st |}.

(** A state with the iterate snapshots dropped. *)
Definition without_iterates {VariableX VariableY VariableR D : Type}
    (st : Vars.t VariableX VariableY VariableR D)
    : Vars.t VariableX VariableY VariableR D :=
  {| Vars.x := Vars.x st;
     Vars.y := Vars.y st;
     Vars.lambda := Vars.lambda st;
     Vars.y_prev := Vars.y_prev st;
     Vars.rho := Vars.rho st;
     Vars.lambda_hat := Vars.lambda_hat st;
     Vars.x_k0 := Vars.x_k0 st;
     Vars.y_k0 := Vars.y_k0 st;
     Vars.lambda_k0 := Vars.lambda_k0 st;
     Vars.lambda_hat_k0 := Vars.lambda_hat_k0 st;
     Vars.result_status := Vars.result_status st;
     Vars.result_time := Vars.result_time st;
     Vars.result_primal_residuals := Vars.result_primal_residuals st;
     Vars.result_dual_residuals := Vars.result_dual_residuals st;
     Vars.result_penalty_parameters := Vars.result_penalty_parameters st;
     Vars.result_iterates := [];
     Vars.tocks := Vars.tocks st;
     Vars.minLx_calls := Vars.minLx_calls st;
     Vars.minLy_calls := Vars.minLy_calls st |}.

(** ** Further concrete runs *)

Module Scenario.
(** The default configuration with snapshots switched on. *)
Definition logged : Params.ADMMParams float :=
  with_log_iterates true
    (Quadratic.params ADMMPenaltyAdaptation.None 2 50 1000).

(** Residual balancing on every pass with mu = 1/2, an adaptation window of
    two passes, zero tolerances and five passes. *)
Definition short_window : Params.ADMMParams float :=
  {| Params.base := Quadratic.budget 5 1000;
     Params.rho := 1%float;
     Params.penalty_adaptation_mode := ADMMPenaltyAdaptation.Residual_Balance;
     Params.penalty_adaptation_period := 1;
     Params.penalty_adaptation_window := 2;
     Params.residual_balance_mu := 0.5%float;
     Params.residual_balance_tau := 2%float;
     Params.spectral_penalty_minimum_correlation := Quadratic.eps_cor;
     Params.eps_abs_pri := 0%float;
     Params.eps_abs_dual := 0%float;
     Params.eps_rel := 0%float |}.

(** The default configuration with an infinite time budget. *)
Definition unlimited : Params.ADMMParams float :=
  Quadratic.params ADMMPenaltyAdaptation.None 2 50 infinity.

(** The default configuration with a negative time budget. *)
Definition no_time : Params.ADMMParams float :=
  Quadratic.params ADMMPenaltyAdaptation.None 2 50 (-1).

(** The default configuration with a time budget of 2.5 seconds. *)
Definition tight_budget : Params.ADMMParams float :=
  Quadratic.params ADMMPenaltyAdaptation.None 2 50 2.5.

(** The default configuration with spectral adaptation and
    max_iterations = 0. *)
Definition no_iterations : Params.ADMMParams float :=
  Quadratic.params ADMMPenaltyAdaptation.Spectral 2 0 1000.

(** Spectral adaptation on every pass from rho = 1, with the default
    correlation threshold and zero tolerances, on the problem with a = 3
    and b = 1. *)
Definition spectral : Params.ADMMParams float :=
  Quadratic.configuration ADMMPenaltyAdaptation.Spectral
    1 10 2 Quadratic.eps_cor 0 0 1 5.

(** A clock that has not advanced at all. *)
Definition still (k : nat) : float := 0%float.

(** Residual balancing on every pass in exact arithmetic, with mu = 1/2
    and tau = 2. *)
Definition exact_balance : Params.ADMMParams R :=
  {| Params.base :=
       {| Params.max_iterations := 2;
          Params.max_computation_time := 1000%R;
          Params.verbose := false;
          Params.precision := 3;
          Params.log_iterates := false |};
     Params.rho := 1%R;
     Params.penalty_adaptation_mode := ADMMPenaltyAdaptation.Residual_Balance;
     Params.penalty_adaptation_period := 1;
     Params.penalty_adaptation_window := 1000;
     Params.residual_balance_mu := (1 / 2)%R;
     Params.residual_balance_tau := 2%R;
     Params.spectral_penalty_minimum_correlation := (1 / 5)%R;
     Params.eps_abs_pri := 0%R;
     Params.eps_abs_dual := 0%R;
     Params.eps_rel := 0%R |}.
End Scenario.

(** * Properties *)

(** ** The residual-balancing rule *)

(** C1: the residual-balancing update depends on its five arguments only and
    is decided by two comparisons: if p > mu * d the result is tau * rho;
    otherwise, if d > mu * p, the result is rho / tau; otherwise the result
    is rho.  This holds for all arguments, in particular for mu > 1, tau > 1
    and rho > 0. *)
Theorem residual_balance_update_cases
    {D : Type} {DO : DoubleOps D} (p d mu tau rho : D) :
  ((p >? mu * d)%D = true ->
   residual_balance_penalty_parameter_update p d mu tau rho = (tau * rho)%D)
  /\ ((p >? mu * d)%D = false -> (d >? mu * p)%D = true ->
      residual_balance_penalty_parameter_update p d mu tau rho = (rho / tau)%D)
  /\ ((p >? mu * d)%D = false -> (d >? mu * p)%D = false ->
      residual_balance_penalty_parameter_update p d mu tau rho = rho).
Proof.
  unfold residual_balance_penalty_parameter_update.
  repeat split; intros; repeat match goal with H : _ = _ |- _ => rewrite H end;
    reflexivity.
Qed.

(** The three cases on binary64 values with mu = 10, tau = 2, rho = 1. *)
Lemma residual_balance_update_cases_witness :
  (residual_balance_penalty_parameter_update 100 1 10 2 1 = 2
   /\ residual_balance_penalty_parameter_update 1 100 10 2 1 = 0.5
   /\ residual_balance_penalty_parameter_update 1 1 10 2 1 = 1)%float.
Proof.
  split; [| split].
  - exact (proj1 (residual_balance_update_cases
                   100%float 1%float 10%float 2%float 1%float) eq_refl).
  - exact (proj1 (proj2 (residual_balance_update_cases
                   1%float 100%float 10%float 2%float 1%float))
             eq_refl eq_refl).
  - exact (proj2 (proj2 (residual_balance_update_cases
                   1%float 1%float 10%float 2%float 1%float))
             eq_refl eq_refl).
Defined.

(** ** The spectral rule *)

Section SpectralProperties.
Context {D : Type} {DO : DoubleOps D} {VariableR : Type}.
Variable inner_product : VariableR -> VariableR -> D.

(** The update written with the quantities of section 4.5: the local
    variables [alpha], [beta], [alpha_cor] and [beta_cor] of the source are
    the hybrid step sizes and the correlations. *)
Lemma spectral_update_unfold
    (delta_lambda_hat delta_lambda delta_H delta_G : VariableR)
    (eps_cor rho : D) :
  spectral_penalty_parameter_update delta_lambda_hat delta_lambda
    delta_H delta_G inner_product eps_cor rho =
  let alpha :=
    hybrid_stepsize (stepsize_SD inner_product delta_lambda_hat delta_H)
      (stepsize_MG inner_product delta_lambda_hat delta_H) in
  let beta :=
    hybrid_stepsize (stepsize_SD inner_product delta_lambda delta_G)
      (stepsize_MG inner_product delta_lambda delta_G) in
  let alpha_cor := correlation inner_product delta_lambda_hat delta_H in
  let beta_cor := correlation inner_product delta_lambda delta_G in
  if (alpha_cor >? eps_cor)%D && (beta_cor >? eps_cor)%D
  then dsqrt (alpha * beta)%D
  else if (alpha_cor >? eps_cor)%D && (beta_cor <=? eps_cor)%D then alpha
  else if (alpha_cor <=? eps_cor)%D && (beta_cor >? eps_cor)%D then beta
  else rho.
Proof. reflexivity. Qed.

(** C2 (amended): the hybrid step sizes are alpha = alpha_MG if
    2 alpha_MG > alpha_SD else alpha_SD - alpha_MG / 2, and beta likewise.
    The update returns sqrt(alpha beta) if both correlations exceed eps_cor;
    alpha if alpha_cor exceeds eps_cor and beta_cor <= eps_cor; beta if
    alpha_cor <= eps_cor and beta_cor exceeds eps_cor; and the current rho in
    every remaining case.  When each correlation either exceeds eps_cor or
    is <= eps_cor (so neither is a NaN), this is the selection "both pass,
    only alpha passes, only beta passes, neither passes". *)
Theorem spectral_update_selection
    (delta_lambda_hat delta_lambda delta_H delta_G : VariableR)
    (eps_cor rho : D) :
  let alpha :=
    hybrid_stepsize (stepsize_SD inner_product delta_lambda_hat delta_H)
      (stepsize_MG inner_product delta_lambda_hat delta_H) in
  let beta :=
    hybrid_stepsize (stepsize_SD inner_product delta_lambda delta_G)
      (stepsize_MG inner_product delta_lambda delta_G) in
  let alpha_cor := correlation inner_product delta_lambda_hat delta_H in
  let beta_cor := correlation inner_product delta_lambda delta_G in
  let rho_new :=
    spectral_penalty_parameter_update delta_lambda_hat delta_lambda
      delta_H delta_G inner_product eps_cor rho in
  ((alpha_cor >? eps_cor)%D = true -> (beta_cor >? eps_cor)%D = true ->
   rho_new = dsqrt (alpha * beta)%D)
  /\ ((alpha_cor >? eps_cor)%D = true -> (beta_cor >? eps_cor)%D = false ->
      (beta_cor <=? eps_cor)%D = true -> rho_new = alpha)
  /\ ((alpha_cor >? eps_cor)%D = false -> (alpha_cor <=? eps_cor)%D = true ->
      (beta_cor >? eps_cor)%D = true -> rho_new = beta)
  /\ ((alpha_cor >? eps_cor)%D = false -> (beta_cor >? eps_cor)%D = false ->
      rho_new = rho)
  /\ ((alpha_cor >? eps_cor)%D = true -> (beta_cor >? eps_cor)%D = false ->
      (beta_cor <=? eps_cor)%D = false -> rho_new = rho)
  /\ ((alpha_cor >? eps_cor)%D = false -> (alpha_cor <=? eps_cor)%D = false ->
      (beta_cor >? eps_cor)%D = true -> rho_new = rho)
  /\ ((alpha_cor <=? eps_cor)%D = negb (alpha_cor >? eps_cor)%D ->
      (beta_cor <=? eps_cor)%D = negb (beta_cor >? eps_cor)%D ->
      rho_new =
      spectral_update_spec inner_product delta_lambda_hat delta_lambda
        delta_H delta_G eps_cor rho).
Proof.
  cbv zeta. rewrite spectral_update_unfold. cbv zeta.
  unfold spectral_update_spec, safeguard_selection.
  set (a_gt := (correlation inner_product delta_lambda_hat delta_H
                >? eps_cor)%D).
  set (b_gt := (correlation inner_product delta_lambda delta_G >? eps_cor)%D).
  set (a_le := (correlation inner_product delta_lambda_hat delta_H
                <=? eps_cor)%D).
  set (b_le := (correlation inner_product delta_lambda delta_G <=? eps_cor)%D).
  clearbody a_gt b_gt a_le b_le.
  destruct a_gt, b_gt, a_le, b_le; simpl;
    repeat split; intros; try discriminate; reflexivity.
Qed.
End SpectralProperties.

(** On the line, with alpha_cor = 1 and beta_cor = -1, only alpha passes and
    the update returns alpha = 1. *)
Lemma spectral_update_selection_witness :
  spectral_penalty_parameter_update 1%float 1%float 1%float (-1)%float
    Quadratic.inner_product Quadratic.eps_cor 5%float = 1%float
  /\ spectral_penalty_parameter_update 1%float 1%float 1%float (-1)%float
       Quadratic.inner_product Quadratic.eps_cor 5%float
     = spectral_update_spec Quadratic.inner_product
         1%float 1%float 1%float (-1)%float Quadratic.eps_cor 5%float.
Proof.
  pose proof (spectral_update_selection Quadratic.inner_product
                1%float 1%float 1%float (-1)%float
                Quadratic.eps_cor 5%float) as H.
  cbv zeta in H.
  destruct H as (_ & Honly_alpha & _ & _ & _ & _ & Hspec).
  split.
  - exact (Honly_alpha eq_refl eq_refl eq_refl).
  - exact (Hspec eq_refl eq_refl).
Defined.

(** C2 (as stated) fails on a NaN correlation: with delta_lambda_hat =
    delta_H = 1 the correlation alpha_cor is 1 and exceeds eps_cor = .2; with
    delta_lambda = delta_G = 0 the correlation beta_cor is 0/0, which does
    not exceed eps_cor.  Only alpha_cor passes and alpha is 1, yet the update
    returns the current rho = 5: beta_cor <= eps_cor is false as well. *)
Lemma spectral_update_selection_counterexample :
  (correlation Quadratic.inner_product 1%float 1%float
   >? Quadratic.eps_cor)%D = true
  /\ (correlation Quadratic.inner_product 0%float 0%float
      >? Quadratic.eps_cor)%D = false
  /\ hybrid_stepsize (stepsize_SD Quadratic.inner_product 1%float 1%float)
       (stepsize_MG Quadratic.inner_product 1%float 1%float) = 1%float
  /\ spectral_update_spec Quadratic.inner_product
       1%float 0%float 1%float 0%float Quadratic.eps_cor 5%float
     = 1%float
  /\ spectral_penalty_parameter_update 1%float 0%float 1%float 0%float
       Quadratic.inner_product Quadratic.eps_cor 5%float = 5%float
  /\ spectral_penalty_parameter_update 1%float 0%float 1%float 0%float
       Quadratic.inner_product Quadratic.eps_cor 5%float
     <> spectral_update_spec Quadratic.inner_product
          1%float 0%float 1%float 0%float Quadratic.eps_cor 5%float.
Proof.
  repeat split; try (vm_compute; reflexivity).
  vm_compute. intro H.
  assert (Hb : PrimFloat.eqb 5 1 = true) by (rewrite H; reflexivity).
  vm_compute in Hb. discriminate Hb.
Qed.

(** *** Division by zero in binary64 *)

(** A NaN is neither greater than, nor less than or equal to, any value. *)
Lemma nan_not_greater (x : float) : (nan >? x)%D = false.
Proof.
  cbn. rewrite ltb_spec. change (Prim2SF nan) with S754_nan.
  unfold SFltb, SFcompare. destruct (Prim2SF x) as [| | |[] ? ?]; reflexivity.
Qed.

Lemma nan_not_le (x : float) : (nan <=? x)%D = false.
Proof.
  cbn. rewrite leb_spec. change (Prim2SF nan) with S754_nan. reflexivity.
Qed.

Lemma SFcompare_refl (v : spec_float) :
  v <> S754_nan -> SFcompare v v = Some Eq.
Proof.
  destruct v as [s | s | | s m e]; intros Hv; try reflexivity.
  - destruct s; reflexivity.
  - contradiction.
  - cbn. rewrite Z.compare_refl, Pos.compare_refl.
    destruct s; reflexivity.
Qed.

Lemma is_nan_spec (x : float) :
  PrimFloat.is_nan x = true -> Prim2SF x = S754_nan.
Proof.
  unfold PrimFloat.is_nan. rewrite FloatAxioms.eqb_spec. unfold SFeqb.
  destruct (Prim2SF x) as [s | s | | s m e] eqn:Hx; try reflexivity;
    rewrite SFcompare_refl by discriminate; discriminate.
Qed.

Lemma is_zero_spec (x : float) :
  PrimFloat.is_zero x = true -> exists s, Prim2SF x = S754_zero s.
Proof.
  unfold PrimFloat.is_zero. rewrite FloatAxioms.eqb_spec.
  change (Prim2SF zero) with (S754_zero false). unfold SFeqb, SFcompare.
  destruct (Prim2SF x) as [s | s | | s m e]; try discriminate; eauto.
  - destruct s; discriminate.
  - destruct s; discriminate.
Qed.

(** Every comparison with a NaN is false. *)
Lemma nan_compares_false (x y : float) :
  Prim2SF x = S754_nan ->
  (x <? y)%float = false /\ (y <? x)%float = false
  /\ (x <=? y)%float = false /\ (y <=? x)%float = false.
Proof.
  intros Hx. rewrite !ltb_spec, !leb_spec, Hx.
  unfold SFltb, SFleb, SFcompare.
  destruct (Prim2SF y) as [s | s | | s m e]; auto.
Qed.

Lemma mul_nan (x y : float) :
  Prim2SF x = S754_nan \/ Prim2SF y = S754_nan ->
  Prim2SF (x * y)%float = S754_nan.
Proof.
  intros H. rewrite mul_spec. unfold SF64mul, SFmul.
  destruct H as [-> | ->]; [reflexivity |].
  destruct (Prim2SF x) as [s | s | | s m e]; reflexivity.
Qed.

(** 0 / (sqrt 0 * n) is a NaN whatever n is. *)
Lemma vanishing_correlation (cross square n : float) :
  PrimFloat.is_zero cross = true -> PrimFloat.is_zero square = true ->
  Prim2SF (cross / (PrimFloat.sqrt square * n))%float = S754_nan.
Proof.
  intros Hcross Hsquare.
  apply is_zero_spec in Hcross as (s1 & Hcross).
  apply is_zero_spec in Hsquare as (s2 & Hsquare).
  rewrite div_spec, mul_spec, sqrt_spec, Hcross, Hsquare.
  unfold SF64div, SF64mul, SF64sqrt, SFdiv, SFmul, SFsqrt.
  destruct (Prim2SF n) as [s | s | | s m e]; reflexivity.
Qed.

(** The only value that is a NaN is [nan]. *)
Lemma Prim2SF_nan_eq (x : float) : Prim2SF x = S754_nan -> x = nan.
Proof.
  intros H. rewrite <- (SF2Prim_Prim2SF x), H. reflexivity.
Qed.

Lemma is_zero_intro (x : float) (s : bool) :
  Prim2SF x = S754_zero s -> PrimFloat.is_zero x = true.
Proof.
  intros H. unfold PrimFloat.is_zero. rewrite FloatAxioms.eqb_spec, H.
  reflexivity.
Qed.

(** 0 / 0 is a NaN, whatever the signs of the zeros. *)
Lemma zero_by_zero (a b : float) :
  PrimFloat.is_zero a = true -> PrimFloat.is_zero b = true ->
  (a / b)%float = nan.
Proof.
  intros Ha Hb. apply Prim2SF_nan_eq.
  apply is_zero_spec in Ha as (sa & Ha). apply is_zero_spec in Hb as (sb & Hb).
  rewrite div_spec, Ha, Hb. reflexivity.
Qed.

(** sqrt 0 * sqrt 0 is a zero. *)
Lemma zero_norm_product (a b : float) :
  PrimFloat.is_zero a = true -> PrimFloat.is_zero b = true ->
  PrimFloat.is_zero (PrimFloat.sqrt a * PrimFloat.sqrt b)%float = true.
Proof.
  intros Ha Hb.
  apply is_zero_spec in Ha as (sa & Ha). apply is_zero_spec in Hb as (sb & Hb).
  apply is_zero_intro with (s := xorb sa sb).
  rewrite mul_spec, !sqrt_spec, Ha, Hb. reflexivity.
Qed.


(** C8 (amended): the spectral update does not guard its denominators.  When
    the six inner products vanish (are +0 or -0), as for identically zero
    deltas, every one of the six divisions is by zero and every quotient
    (the four step-size candidates and both correlations) is a NaN; a NaN
    correlation fails both [> eps_cor] and [<= eps_cor], so the update then
    returns the current rho unchanged.  A non-finite rho is produced for
    other inputs: on the line, with delta_H = 2^-600 and
    delta_lambda_hat = 1, <delta_H, delta_H> underflows to zero, alpha_MG
    and alpha_cor are infinite, and the update returns +infinity. *)
Theorem spectral_update_division_by_zero :
  (forall (VariableR : Type) (inner_product : VariableR -> VariableR -> float)
          (delta_lambda_hat delta_lambda delta_H delta_G : VariableR)
          (eps_cor rho : float),
      PrimFloat.is_zero (inner_product delta_lambda_hat delta_lambda_hat)
      = true ->
      PrimFloat.is_zero (inner_product delta_H delta_lambda_hat) = true ->
      PrimFloat.is_zero (inner_product delta_H delta_H) = true ->
      PrimFloat.is_zero (inner_product delta_lambda delta_lambda) = true ->
      PrimFloat.is_zero (inner_product delta_G delta_lambda) = true ->
      PrimFloat.is_zero (inner_product delta_G delta_G) = true ->
      Forall (fun d => PrimFloat.is_zero d = true)
        (spectral_denominators inner_product
           delta_lambda_hat delta_lambda delta_H delta_G)
      /\ stepsize_SD inner_product delta_lambda_hat delta_H = nan
      /\ stepsize_MG inner_product delta_lambda_hat delta_H = nan
      /\ stepsize_SD inner_product delta_lambda delta_G = nan
      /\ stepsize_MG inner_product delta_lambda delta_G = nan
      /\ correlation inner_product delta_lambda_hat delta_H = nan
      /\ correlation inner_product delta_lambda delta_G = nan
      /\ spectral_penalty_parameter_update delta_lambda_hat delta_lambda
           delta_H delta_G inner_product eps_cor rho = rho)
  /\ In 0%float
       (spectral_denominators Quadratic.inner_product
          1%float 1%float 0x1p-600%float (-1)%float)
  /\ spectral_penalty_parameter_update
       1%float 1%float 0x1p-600%float (-1)%float
       Quadratic.inner_product Quadratic.eps_cor 1%float = infinity.
Proof.
  split; [| split].
  - intros V ip dlh dl dH dG eps rho Hll HHl HHH Hdd HGd HGG.
    assert (Hcor : forall u v : V,
               PrimFloat.is_zero (ip v u) = true ->
               PrimFloat.is_zero (ip v v) = true ->
               correlation ip u v = nan).
    { intros u v Hvu Hvv. apply Prim2SF_nan_eq. unfold correlation.
      cbn [ddiv dmul dsqrt binary64].
      apply vanishing_correlation; assumption. }
    repeat split.
    + unfold spectral_denominators. cbn [dmul dsqrt binary64].
      repeat constructor; try assumption;
        apply zero_norm_product; assumption.
    + unfold stepsize_SD. cbn. apply zero_by_zero; assumption.
    + unfold stepsize_MG. cbn. apply zero_by_zero; assumption.
    + unfold stepsize_SD. cbn. apply zero_by_zero; assumption.
    + unfold stepsize_MG. cbn. apply zero_by_zero; assumption.
    + apply Hcor; assumption.
    + apply Hcor; assumption.
    + rewrite spectral_update_unfold. cbv zeta.
      rewrite !Hcor by assumption.
      rewrite !nan_not_greater, !nan_not_le. reflexivity.
  - unfold spectral_denominators. right. left. vm_compute. reflexivity.
  - vm_compute. reflexivity.
Qed.

(** The first part on the line at deltas that are zero, with delta_H and
    delta_G the negative zero that negating A(0) and B(0) gives: the inner
    product <delta_H, delta_lambda_hat> is then -0. *)
Lemma spectral_update_division_by_zero_witness :
  Quadratic.inner_product (-0)%float 0%float = (-0)%float
  /\ Forall (fun d => PrimFloat.is_zero d = true)
       (spectral_denominators Quadratic.inner_product
          0%float 0%float (-0)%float (-0)%float)
  /\ correlation Quadratic.inner_product 0%float (-0)%float = nan
  /\ spectral_penalty_parameter_update 0%float 0%float (-0)%float (-0)%float
       Quadratic.inner_product Quadratic.eps_cor 1%float = 1%float.
Proof.
  split; [vm_compute; reflexivity |].
  destruct (proj1 spectral_update_division_by_zero float
              Quadratic.inner_product 0%float 0%float (-0)%float (-0)%float
              Quadratic.eps_cor 1%float)
    as (Hden & _ & _ & _ & _ & Hcor & _ & Hrho);
    try (vm_compute; reflexivity).
  exact (conj Hden (conj Hcor Hrho)).
Defined.


(** C8 (as stated) names identically zero deltas as an input for which a
    non-finite rho is produced.  There every denominator is zero, but the
    value returned is the current rho, here the finite number 1. *)
Lemma spectral_update_zero_deltas_counterexample :
  Forall (fun d => d = 0%float)
    (spectral_denominators Quadratic.inner_product
       0%float 0%float 0%float 0%float)
  /\ spectral_penalty_parameter_update 0%float 0%float 0%float 0%float
       Quadratic.inner_product Quadratic.eps_cor 1%float = 1%float
  /\ PrimFloat.is_finite
       (spectral_penalty_parameter_update 0%float 0%float 0%float 0%float
          Quadratic.inner_product Quadratic.eps_cor 1%float) = true.
Proof.
  split; [| split].
  - vm_compute. repeat constructor.
  - vm_compute. reflexivity.
  - vm_compute. reflexivity.
Qed.

(** ** The solver loop *)

Lemma penalty_adaptation_eqb_spec (a b : ADMMPenaltyAdaptation.t) :
  reflect (a = b) (ADMMPenaltyAdaptation.eqb a b).
Proof. destruct a, b; constructor; congruence. Qed.

Lemma unsigned_mod_defined (a b : nat) :
  b <> 0 -> unsigned_mod a b = Some (a mod b).
Proof.
  intros Hb. unfold unsigned_mod.
  destruct (Nat.eqb_spec b 0); [contradiction | reflexivity].
Qed.

Section SolverProperties.
Context {D : Type} {DO : DoubleOps D}.
Context {VariableX VariableY VariableR : Type}.
Context {VX : VariableOps D VariableX}.
Context {VY : VariableOps D VariableY}.
Context {VR : VariableOps D VariableR}.
Variable Stopwatch_tock : nat -> D.
Variable minLx : VariableX -> VariableY -> VariableR -> D -> VariableX.
Variable minLy : VariableX -> VariableY -> VariableR -> D -> VariableY.
Variable A : VariableX -> VariableR.
Variable B : VariableY -> VariableR.
Variable At : VariableR -> VariableX.
Variable inner_product_x : VariableX -> VariableX -> D.
Variable inner_product_r : VariableR -> VariableR -> D.
Variable c : VariableR.
Variable x0 : VariableX.
Variable y0 : VariableY.
Variable params : Params.ADMMParams D.

Local Abbreviation State := (Vars.t VariableX VariableY VariableR D).
Local Abbreviation mode := (Params.penalty_adaptation_mode params).
Local Abbreviation period := (Params.penalty_adaptation_period params).
Local Abbreviation window := (Params.penalty_adaptation_window params).
Local Abbreviation max_iterations :=
  (Params.max_iterations (Params.base params)).
Local Abbreviation iteration :=
  (admm_iteration Stopwatch_tock minLx minLy A B At
     inner_product_x inner_product_r c params).
Local Abbreviation loop :=
  (admm_loop Stopwatch_tock minLx minLy A B At
     inner_product_x inner_product_r c params).
Local Abbreviation heads :=
  (head_from Stopwatch_tock minLx minLy A B At
     inner_product_x inner_product_r c params).
Local Abbreviation init := (admm_init A B c x0 y0 params).
Local Abbreviation head :=
  (loop_head Stopwatch_tock minLx minLy A B At
     inner_product_x inner_product_r c x0 y0 params).
Local Abbreviation solve :=
  (ADMM Stopwatch_tock minLx minLy A B At
     inner_product_x inner_product_r c x0 y0 params).
Local Abbreviation result_of := (admm_result Stopwatch_tock).
Local Abbreviation on_timeout := (@state_on_timeout D VariableX VariableY VariableR).
Local Abbreviation on_convergence :=
  (state_on_convergence Stopwatch_tock minLx minLy A B At
     inner_product_x inner_product_r c params).
Local Abbreviation on_continue :=
  (state_on_continue Stopwatch_tock minLx minLy A B At
     inner_product_x inner_product_r c params).
Local Abbreviation timed_out := (time_exceeded Stopwatch_tock params).
Local Abbreviation converged :=
  (residuals_within_tolerance minLx minLy A B At
     inner_product_x inner_product_r c params).

(** The three ways out of the loop body, in the order the source tests
    them. *)
Lemma admm_iteration_unfold (i : nat) (st : State) :
  iteration i st =
  if timed_out st then Break (on_timeout st)
  else
    match spectral_trigger params i with
    | None => Undefined
    | Some compute =>
      if converged st then Break (on_convergence compute st)
      else
        match adaptation_trigger params i with
        | None => Undefined
        | Some update => Continue (on_continue compute update st)
        end
    end.
Proof. reflexivity. Qed.

Lemma iteration_Continue (i : nat) (st st' : State) :
  iteration i st = Continue st' ->
  exists compute update,
    timed_out st = false
    /\ spectral_trigger params i = Some compute
    /\ converged st = false
    /\ adaptation_trigger params i = Some update
    /\ st' = on_continue compute update st.
Proof.
  rewrite admm_iteration_unfold.
  destruct (timed_out st); [discriminate |].
  destruct (spectral_trigger params i) as [compute |]; [| discriminate].
  destruct (converged st); [discriminate |].
  destruct (adaptation_trigger params i) as [update |]; [| discriminate].
  intros H. injection H as <-. exists compute, update. auto.
Qed.

Lemma iteration_Break (i : nat) (st st' : State) :
  iteration i st = Break st' ->
  (timed_out st = true /\ st' = on_timeout st)
  \/ (timed_out st = false
      /\ converged st = true
      /\ exists compute,
           spectral_trigger params i = Some compute
           /\ st' = on_convergence compute st).
Proof.
  rewrite admm_iteration_unfold.
  destruct (timed_out st).
  - intros H. injection H as <-. left. auto.
  - destruct (spectral_trigger params i) as [compute |]; [| discriminate].
    destruct (converged st).
    + intros H. injection H as <-. right. eauto.
    + destruct (adaptation_trigger params i); discriminate.
Qed.

(** *** The adaptation trigger *)

Lemma periodic_trigger_true (guard : bool) (i : nat) :
  periodic_trigger params guard i = Some true ->
  guard = true /\ unsigned_mod i period = Some 0 /\ i < window.
Proof.
  unfold periodic_trigger. destruct guard; [| discriminate].
  destruct (unsigned_mod i period) as [m |]; [| discriminate].
  intros H. injection H as H. apply andb_prop in H as [Hm Hw].
  apply Nat.eqb_eq in Hm. apply Nat.ltb_lt in Hw. subst m. auto.
Qed.

Lemma periodic_trigger_defined (guard : bool) (i : nat) :
  guard = false \/ period <> 0 ->
  exists b, periodic_trigger params guard i = Some b.
Proof.
  unfold periodic_trigger. intros [-> | Hp]; [eauto |].
  destruct guard; [| eauto].
  rewrite unsigned_mod_defined by assumption. eauto.
Qed.

Lemma adaptation_trigger_true (i : nat) :
  adaptation_trigger params i = Some true ->
  mode <> ADMMPenaltyAdaptation.None
  /\ unsigned_mod i period = Some 0 /\ i < window.
Proof.
  intros H. apply periodic_trigger_true in H as (Hg & Hm & Hw).
  repeat split; try assumption.
  intros Hnone. rewrite Hnone in Hg. discriminate.
Qed.

Lemma triggers_defined (i : nat) :
  mode = ADMMPenaltyAdaptation.None \/ period <> 0 ->
  (exists b, spectral_trigger params i = Some b)
  /\ (exists b, adaptation_trigger params i = Some b).
Proof.
  intros H. split; apply periodic_trigger_defined;
    (destruct H as [-> | H]; [left; reflexivity | right; assumption]).
Qed.

(** In spectral mode the two guards of the source coincide: [lambda_hat] is
    recomputed exactly on the passes that update the penalty parameter. *)
Lemma spectral_triggers_agree (i : nat) :
  mode = ADMMPenaltyAdaptation.Spectral ->
  spectral_trigger params i = adaptation_trigger params i.
Proof.
  intros Hm. unfold spectral_trigger, adaptation_trigger. rewrite Hm.
  reflexivity.
Qed.

(** *** Loop heads *)

Lemma head_from_S (k i : nat) (st : State) :
  heads (S k) i st =
  match heads k i st with
  | Some st1 =>
    match iteration (i + k) st1 with
    | Continue st2 => Some st2
    | _ => None
    end
  | None => None
  end.
Proof.
  revert i st. induction k as [| k IH]; intros i st.
  - cbn [head_from]. rewrite Nat.add_0_r.
    destruct (iteration i st); reflexivity.
  - change (heads (S (S k)) i st) with
      (match iteration i st with
       | Continue st' => heads (S k) (S i) st'
       | _ => None
       end).
    change (heads (S k) i st) with
      (match iteration i st with
       | Continue st' => heads k (S i) st'
       | _ => None
       end).
    destruct (iteration i st) as [st' | st' |]; try reflexivity.
    rewrite IH. replace (S i + k) with (i + S k) by lia. reflexivity.
Qed.

(** A loop that has reached the head of pass [i + k] goes on from there. *)
Lemma loop_from_head (k n i : nat) (st0 st : State) :
  heads k i st0 = Some st -> loop (k + n) i st0 = loop n (i + k) st.
Proof.
  revert i st0. induction k as [| k IH]; intros i st0 Hhead.
  - injection Hhead as <-. rewrite Nat.add_0_r. reflexivity.
  - cbn [head_from] in Hhead. cbn [Nat.add admm_loop].
    destruct (iteration i st0) as [st1 | st1 |]; try discriminate.
    rewrite (IH _ _ Hhead). f_equal. lia.
Qed.

(** Every pass that falls through has left one entry in each sequence. *)
Lemma head_records (k i : nat) (st0 st : State) :
  heads k i st0 = Some st ->
  length (Vars.result_time st) = length (Vars.result_time st0) + k
  /\ length (Vars.result_primal_residuals st)
     = length (Vars.result_primal_residuals st0) + k
  /\ length (Vars.result_dual_residuals st)
     = length (Vars.result_dual_residuals st0) + k
  /\ length (Vars.result_penalty_parameters st)
     = length (Vars.result_penalty_parameters st0) + k
  /\ Vars.result_status st = Vars.result_status st0.
Proof.
  revert i st0. induction k as [| k IH]; intros i st0 Hhead.
  - injection Hhead as <-. repeat split; lia.
  - cbn [head_from] in Hhead.
    destruct (iteration i st0) as [st1 | st1 |] eqn:Hit; try discriminate.
    apply iteration_Continue in Hit
      as (compute & update & _ & _ & _ & _ & ->).
    destruct (IH _ _ Hhead) as (Ht & Hpr & Hd & Hp & Hs).
    cbn in Ht, Hpr, Hd, Hp, Hs.
    rewrite length_app in Ht, Hpr, Hd, Hp. cbn in Ht, Hpr, Hd, Hp.
    repeat split; [lia | lia | lia | lia | exact Hs].
Qed.

(** *** The call *)

Lemma iter_field_width_defined (n : nat) :
  n <> 0 -> exists w, iter_field_width n = Some w.
Proof.
  intros Hn. unfold iter_field_width.
  destruct (Nat.eqb_spec n 0); [contradiction | eauto].
Qed.

(** A call with a zero iteration budget has no defined result. *)
Lemma ADMM_zero_iterations : max_iterations = 0 -> solve = None.
Proof. intros Hzero. unfold ADMM. rewrite Hzero. reflexivity. Qed.

(** The result of a call is read off the state its loop ends with. *)
Lemma ADMM_returns res :
  solve = Some res ->
  max_iterations <> 0
  /\ exists st, loop max_iterations 0 init = Some st /\ res = result_of st.
Proof.
  unfold ADMM, iter_field_width.
  destruct (Nat.eqb_spec max_iterations 0) as [Hzero | Hpos];
    [discriminate |].
  destruct (loop max_iterations 0 init) as [st |]; [| discriminate].
  intros H. injection H as <-. eauto.
Qed.

Lemma ADMM_of_loop (st : State) :
  max_iterations <> 0 -> loop max_iterations 0 init = Some st ->
  solve = Some (result_of st).
Proof.
  intros Hpos Hloop. unfold ADMM.
  destruct (iter_field_width_defined Hpos) as (w & ->).
  rewrite Hloop. reflexivity.
Qed.

(** A call that reaches the head of pass [k] goes on from there. *)
Lemma loop_of_head (k : nat) (st : State) :
  k <= max_iterations -> head k = Some st ->
  loop max_iterations 0 init = loop (max_iterations - k) k st.
Proof.
  intros Hk Hhead. unfold loop_head in Hhead.
  change (loop (max_iterations - k) k st)
    with (loop (max_iterations - k) (0 + k) st).
  rewrite <- (@loop_from_head k (max_iterations - k) 0 init st Hhead).
  f_equal. lia.
Qed.

(** Without adaptation the penalty parameter keeps its configured value, in
    any arithmetic. *)
Lemma penalty_constant_without_adaptation (k : nat) (st : State) :
  mode = ADMMPenaltyAdaptation.None ->
  head k = Some st -> Vars.rho st = Params.rho params.
Proof.
  intros Hmode. unfold loop_head.
  assert (Hgen : forall (k i : nat) (st0 st : State),
             heads k i st0 = Some st -> Vars.rho st = Vars.rho st0).
  { clear k st. induction k as [| k IH]; intros i st0 st Hhead.
    - injection Hhead as <-. reflexivity.
    - cbn [head_from] in Hhead.
      destruct (iteration i st0) as [st1 | st1 |] eqn:Hit; try discriminate.
      rewrite (IH _ _ _ Hhead).
      apply iteration_Continue in Hit
        as (compute & update & _ & _ & _ & Hup & ->).
      destruct update; [| reflexivity].
      apply adaptation_trigger_true in Hup as (Hnot & _). contradiction. }
  intros Hhead. rewrite (Hgen _ _ _ _ Hhead). reflexivity.
Qed.

(** C4: the penalty parameter is changed only by a pass whose counter i
    satisfies i mod period = 0 and i < window, in a mode other than None: a
    pass that is not such a pass, and every pass in mode None, ends with the
    rho it started with, whether it falls through or leaves the loop.  The
    same holds between consecutive loop heads of a call. *)
Theorem penalty_changes_only_when_triggered :
  (forall (i : nat) (st st' : State),
      iteration i st = Continue st' \/ iteration i st = Break st' ->
      mode = ADMMPenaltyAdaptation.None
      \/ ~ (unsigned_mod i period = Some 0 /\ i < window) ->
      Vars.rho st' = Vars.rho st)
  /\ (forall (k : nat) (st st' : State),
         head k = Some st -> head (S k) = Some st' ->
         mode = ADMMPenaltyAdaptation.None
         \/ ~ (unsigned_mod k period = Some 0 /\ k < window) ->
         Vars.rho st' = Vars.rho st).
Proof.
  assert (Hstep : forall (i : nat) (st st' : State),
             iteration i st = Continue st' \/ iteration i st = Break st' ->
             mode = ADMMPenaltyAdaptation.None
             \/ ~ (unsigned_mod i period = Some 0 /\ i < window) ->
             Vars.rho st' = Vars.rho st).
  { intros i st st' [Hc | Hb] Hoff.
    - apply iteration_Continue in Hc
        as (compute & update & _ & _ & _ & Hup & ->).
      destruct update.
      + apply adaptation_trigger_true in Hup as (Hmode & Hm & Hw).
        destruct Hoff as [Hnone | Hoff]; [contradiction |].
        exfalso. apply Hoff. auto.
      + reflexivity.
    - apply iteration_Break in Hb
        as [(_ & ->) | (_ & _ & compute & _ & ->)]; reflexivity. }
  split; [exact Hstep |].
  intros k st st' Hk HSk Hoff.
  unfold loop_head in *. rewrite head_from_S, Hk in HSk. cbn in HSk.
  destruct (iteration k st) as [st2 | st2 |] eqn:Hit; try discriminate.
  injection HSk as <-. eapply Hstep; eauto.
Qed.

(** *** Stopping criteria *)

(** A loop that ends with status RESIDUAL_TOLERANCE ended in some pass by
    the residual test, with the iterates that pass computed. *)
Lemma residual_tolerance_loop_exit (n i : nat) (st st' : State) :
  loop n i st = Some st' ->
  Vars.result_status st <> ADMMStatus.RESIDUAL_TOLERANCE ->
  Vars.result_status st' = ADMMStatus.RESIDUAL_TOLERANCE ->
  exists (k : nat) (stk : State) (compute : bool),
    k < n /\ heads k i st = Some stk
    /\ timed_out stk = false /\ converged stk = true
    /\ st' = on_convergence compute stk.
Proof.
  revert i st. induction n as [| n IH]; intros i st Hloop Hst Hst'.
  - injection Hloop as <-. contradiction.
  - cbn [admm_loop] in Hloop.
    destruct (iteration i st) as [st1 | st1 |] eqn:Hit; try discriminate.
    + destruct (IH (S i) st1 Hloop)
        as (k & stk & compute & Hk & Hhead & Htime & Hconv & ->).
      * apply iteration_Continue in Hit
          as (compute & update & _ & _ & _ & _ & ->).
        exact Hst.
      * exact Hst'.
      * exists (S k), stk, compute. repeat split; try assumption; try lia.
        cbn [head_from]. rewrite Hit. exact Hhead.
    + injection Hloop as <-.
      apply iteration_Break in Hit
        as [(_ & ->) | (Htime & Hconv & compute & _ & ->)].
      * discriminate Hst'.
      * exists 0, st, compute. repeat split; try assumption; try lia.
Qed.

(** C5: a pass leaves the loop with status RESIDUAL_TOLERANCE exactly when
    its body is executed (the elapsed-time test did not fire and no
    remainder by a zero period is taken) and the primal residual norm is
    strictly below eps_pri = eps_abs_pri + eps_rel * max(|Ax|, |By|, |c|)
    and the dual residual norm is strictly below
    eps_dual = eps_abs_dual + eps_rel * |At lambda|, with lambda the dual
    variable after the dual update of that pass.  The same holds of the
    call: a call that returns RESIDUAL_TOLERANCE returns the iterates of
    such a pass, and as soon as a pass the loop reaches meets the test, the
    call returns RESIDUAL_TOLERANCE with the iterates of that pass and one
    telemetry entry per pass up to and including it. *)
Theorem residual_tolerance_stop :
  (forall (i : nat) (st : State),
      let x := minLx (Vars.x st) (Vars.y st) (Vars.lambda st) (Vars.rho st) in
      let y := minLy x (Vars.y st) (Vars.lambda st) (Vars.rho st) in
      let r := (A x + B y - c)%V in
      let lambda := (Vars.lambda st + Vars.rho st * r)%V in
      let s := (Vars.rho st * At (B (y - Vars.y_prev st)))%V in
      let eps_pri :=
        (Params.eps_abs_pri params
         + Params.eps_rel params
           * max3 (norm_r inner_product_r (A x))
               (norm_r inner_product_r (B y))
               (norm_r inner_product_r c))%D in
      let eps_dual :=
        (Params.eps_abs_dual params
         + Params.eps_rel params * norm_x inner_product_x (At lambda))%D in
      (exists st',
          iteration i st = Break st'
          /\ Vars.result_status st' = ADMMStatus.RESIDUAL_TOLERANCE)
      <-> (timed_out st = false
           /\ spectral_trigger params i <> None
           /\ (norm_r inner_product_r r <? eps_pri)%D = true
           /\ (norm_x inner_product_x s <? eps_dual)%D = true))
  /\ (forall res,
         solve = Some res ->
         Result.status res = ADMMStatus.RESIDUAL_TOLERANCE ->
         exists (k : nat) (st : State),
           k < max_iterations /\ head k = Some st
           /\ timed_out st = false /\ converged st = true
           /\ Result.x (Result.base res)
              = (x_next minLx st, y_next minLx minLy st))
  /\ (forall (k : nat) (st : State),
         k < max_iterations -> head k = Some st ->
         timed_out st = false -> spectral_trigger params k <> None ->
         converged st = true ->
         exists res,
           solve = Some res
           /\ Result.status res = ADMMStatus.RESIDUAL_TOLERANCE
           /\ Result.x (Result.base res)
              = (x_next minLx st, y_next minLx minLy st)
           /\ length (Result.time (Result.base res)) = S k
           /\ length (Result.primal_residuals res) = S k
           /\ length (Result.dual_residuals res) = S k
           /\ length (Result.penalty_parameters res) = S k).
Proof.
  split; [| split].
  - intros i st. cbv zeta. split.
    + intros (st' & Hb & Hstatus).
      apply iteration_Break in Hb
        as [(_ & ->) | (Htime & Hconv & compute & Htrig & ->)].
      * discriminate Hstatus.
      * apply andb_prop in Hconv as [Hp Hd].
        repeat split; try assumption. congruence.
    + intros (Htime & Htrig & Hp & Hd).
      destruct (spectral_trigger params i) as [compute |] eqn:Hc;
        [| contradiction].
      exists (on_convergence compute st). split; [| reflexivity].
      rewrite admm_iteration_unfold, Htime, Hc.
      unfold residuals_within_tolerance, primal_residual_norm,
        dual_residual_norm, eps_primal_at, eps_dual_at,
        primal_residual_vector, dual_residual_vector, lambda_next,
        primal_residual_vector, y_next, x_next.
      rewrite Hp, Hd. reflexivity.
  - intros res Hsolve Hstatus.
    apply ADMM_returns in Hsolve as (_ & st' & Hloop & ->).
    cbn in Hstatus.
    destruct (residual_tolerance_loop_exit _ _ _ Hloop)
      as (k & stk & compute & Hk & Hhead & Htime & Hconv & ->).
    + cbn. discriminate.
    + exact Hstatus.
    + exists k, stk. repeat split; assumption.
  - intros k st Hk Hhead Htime Htrig Hconv.
    destruct (spectral_trigger params k) as [compute |] eqn:Hc;
      [| contradiction].
    assert (Hloop : loop max_iterations 0 init
                    = Some (on_convergence compute st)).
    { rewrite (loop_of_head (Nat.lt_le_incl _ _ Hk) Hhead).
      destruct (max_iterations - k) as [| n] eqn:Hn; [lia |].
      cbn [admm_loop]. rewrite admm_iteration_unfold, Htime, Hc, Hconv.
      reflexivity. }
    exists (result_of (on_convergence compute st)).
    split; [apply ADMM_of_loop; [lia | exact Hloop] |].
    destruct (head_records _ _ _ Hhead) as (Ht & Hpr & Hd & Hp & _).
    cbn in Ht, Hpr, Hd, Hp.
    cbn. rewrite !length_app. cbn.
    repeat split; lia.
Qed.

Lemma records_match_calls_after_record
    (compute : bool) (st : State) (status : ADMMStatus.t)
    (y_prev : VariableY) (rho : D) (checkpoint : bool) :
  records_match_calls st ->
  records_match_calls
    (state_after_record Stopwatch_tock minLx minLy A B At
       inner_product_x inner_product_r c params
       compute st status y_prev rho checkpoint).
Proof.
  unfold records_match_calls. cbn. rewrite !length_app. cbn. lia.
Qed.

Lemma records_match_calls_iteration (i : nat) (st st' : State) :
  iteration i st = Continue st' \/ iteration i st = Break st' ->
  records_match_calls st -> records_match_calls st'.
Proof.
  intros [Hc | Hb] Hst.
  - apply iteration_Continue in Hc as (compute & update & _ & _ & _ & _ & ->).
    apply records_match_calls_after_record, Hst.
  - apply iteration_Break in Hb
      as [(_ & ->) | (_ & _ & compute & _ & ->)].
    + exact Hst.
    + apply records_match_calls_after_record, Hst.
Qed.

Lemma records_match_calls_loop (n i : nat) (st st' : State) :
  loop n i st = Some st' ->
  records_match_calls st -> records_match_calls st'.
Proof.
  revert i st. induction n as [| n IH]; intros i st Hloop Hst.
  - injection Hloop as <-. exact Hst.
  - cbn [admm_loop] in Hloop.
    destruct (iteration i st) as [st1 | st1 |] eqn:Hit; try discriminate.
    + eapply IH; [exact Hloop |].
      eapply records_match_calls_iteration; eauto.
    + injection Hloop as <-.
      eapply records_match_calls_iteration; eauto.
Qed.

(** A loop that ends with status ELAPSED_TIME ended at the head of some
    pass, by the elapsed-time test, in the state that pass started with. *)
Lemma elapsed_time_loop_exit (n i : nat) (st st' : State) :
  loop n i st = Some st' ->
  Vars.result_status st <> ADMMStatus.ELAPSED_TIME ->
  Vars.result_status st' = ADMMStatus.ELAPSED_TIME ->
  exists (k : nat) (stk : State),
    k < n /\ heads k i st = Some stk
    /\ timed_out stk = true /\ st' = on_timeout stk.
Proof.
  revert i st. induction n as [| n IH]; intros i st Hloop Hst Hst'.
  - injection Hloop as <-. contradiction.
  - cbn [admm_loop] in Hloop.
    destruct (iteration i st) as [st1 | st1 |] eqn:Hit; try discriminate.
    + destruct (IH (S i) st1 Hloop) as (k & stk & Hk & Hhead & Htime & ->).
      * apply iteration_Continue in Hit
          as (compute & update & _ & _ & _ & _ & ->).
        exact Hst.
      * exact Hst'.
      * exists (S k), stk. repeat split; try assumption; try lia.
        cbn [head_from]. rewrite Hit. exact Hhead.
    + injection Hloop as <-.
      apply iteration_Break in Hit
        as [(Htime & ->) | (_ & _ & compute & _ & ->)].
      * exists 0, st. repeat split; try assumption; try lia.
      * discriminate Hst'.
Qed.



(** *** Termination status and telemetry *)

Lemma loop_defined (n i : nat) (st : State) :
  mode = ADMMPenaltyAdaptation.None \/ period <> 0 ->
  exists st', loop n i st = Some st'.
Proof.
  intros Hdef. revert i st. induction n as [| n IH]; intros i st.
  - cbn. eauto.
  - cbn [admm_loop]. rewrite admm_iteration_unfold.
    destruct (triggers_defined i Hdef) as ((compute & ->) & (update & ->)).
    destruct (timed_out st); [eauto |].
    destruct (converged st); [eauto |].
    apply IH.
Qed.

Lemma loop_iteration_limit (n i : nat) (st st' : State) :
  loop n i st = Some st' ->
  Vars.result_status st = ADMMStatus.ITERATION_LIMIT ->
  Vars.result_status st' = ADMMStatus.ITERATION_LIMIT ->
  length (Vars.result_time st') = length (Vars.result_time st) + n
  /\ length (Vars.result_primal_residuals st')
     = length (Vars.result_primal_residuals st) + n
  /\ length (Vars.result_dual_residuals st')
     = length (Vars.result_dual_residuals st) + n
  /\ length (Vars.result_penalty_parameters st')
     = length (Vars.result_penalty_parameters st) + n.
Proof.
  revert i st. induction n as [| n IH]; intros i st Hloop Hst Hst'.
  - injection Hloop as <-. repeat split; lia.
  - cbn [admm_loop] in Hloop.
    destruct (iteration i st) as [st1 | st1 |] eqn:Hit; try discriminate.
    + apply iteration_Continue in Hit
        as (compute & update & _ & _ & _ & _ & ->).
      specialize (IH _ _ Hloop Hst Hst'). cbn in IH.
      rewrite !length_app in IH. cbn in IH.
      repeat split; lia.
    + injection Hloop as <-.
      apply iteration_Break in Hit
        as [(_ & ->) | (_ & _ & compute & _ & ->)]; discriminate Hst'.
Qed.

(** A loop that ends with the status it was entered with, ITERATION_LIMIT,
    has run all its passes, and each of them fell through. *)
Lemma iteration_limit_loop_exit (n i : nat) (st st' : State) :
  loop n i st = Some st' ->
  Vars.result_status st' = ADMMStatus.ITERATION_LIMIT ->
  heads n i st = Some st'.
Proof.
  revert i st. induction n as [| n IH]; intros i st Hloop Hst'.
  - exact Hloop.
  - cbn [admm_loop] in Hloop. cbn [head_from].
    destruct (iteration i st) as [st1 | st1 |] eqn:Hit; try discriminate.
    + apply IH; assumption.
    + injection Hloop as <-.
      apply iteration_Break in Hit
        as [(_ & ->) | (_ & _ & compute & _ & ->)]; discriminate Hst'.
Qed.



(** *** Recorded penalty parameters *)

Lemma loop_penalty_prefix (n i : nat) (st st' : State) :
  loop n i st = Some st' ->
  exists suffix,
    Vars.result_penalty_parameters st'
    = Vars.result_penalty_parameters st ++ suffix.
Proof.
  revert i st. induction n as [| n IH]; intros i st Hloop.
  - injection Hloop as <-. exists []. symmetry. apply app_nil_r.
  - cbn [admm_loop] in Hloop.
    destruct (iteration i st) as [st1 | st1 |] eqn:Hit; try discriminate.
    + apply iteration_Continue in Hit
        as (compute & update & _ & _ & _ & _ & ->).
      destruct (IH _ _ Hloop) as (suffix & Hsuffix). cbn in Hsuffix.
      exists (Vars.rho st :: suffix). rewrite Hsuffix, <- app_assoc.
      reflexivity.
    + injection Hloop as <-.
      apply iteration_Break in Hit
        as [(_ & ->) | (_ & _ & compute & _ & ->)].
      * exists []. symmetry. apply app_nil_r.
      * exists [Vars.rho st]. reflexivity.
Qed.

(** The entry recorded by the k-th pass after the current one is the penalty
    parameter of the state that pass started with. *)
Lemma loop_penalty_recorded (n i : nat) (st st' : State) :
  loop n i st = Some st' ->
  forall (k : nat) (r : D),
    nth_error (Vars.result_penalty_parameters st')
      (length (Vars.result_penalty_parameters st) + k) = Some r ->
    exists stk, heads k i st = Some stk /\ Vars.rho stk = r.
Proof.
  revert i st. induction n as [| n IH]; intros i st Hloop k r Hnth.
  - injection Hloop as <-.
    assert (Hnone : nth_error (Vars.result_penalty_parameters st)
                      (length (Vars.result_penalty_parameters st) + k) = None)
      by (apply nth_error_None; lia).
    congruence.
  - cbn [admm_loop] in Hloop.
    destruct (iteration i st) as [st1 | st1 |] eqn:Hit; try discriminate.
    + pose proof Hit as Hc. apply iteration_Continue in Hc
        as (compute & update & _ & _ & _ & _ & Hst1).
      destruct k as [| k].
      * exists st. split; [reflexivity |].
        destruct (loop_penalty_prefix _ _ _ Hloop) as (suffix & Hsuffix).
        rewrite Hst1 in Hsuffix. cbn in Hsuffix.
        rewrite Hsuffix, <- app_assoc, Nat.add_0_r, nth_error_app2 in Hnth
          by lia.
        rewrite Nat.sub_diag in Hnth. cbn in Hnth. congruence.
      * destruct (IH _ _ Hloop k r) as (stk & Hhead & Hrho).
        { rewrite Hst1. cbn. rewrite length_app. cbn.
          replace (length (Vars.result_penalty_parameters st) + 1 + k)
            with (length (Vars.result_penalty_parameters st) + S k) by lia.
          exact Hnth. }
        exists stk. split; [| exact Hrho].
        cbn [head_from]. rewrite Hit. exact Hhead.
    + injection Hloop as <-.
      apply iteration_Break in Hit
        as [(_ & ->) | (_ & _ & compute & _ & ->)].
      * cbn in Hnth.
        assert (Hnone : nth_error (Vars.result_penalty_parameters st)
                          (length (Vars.result_penalty_parameters st) + k)
                        = None)
          by (apply nth_error_None; lia).
        congruence.
      * cbn in Hnth. destruct k as [| k].
        -- rewrite Nat.add_0_r, nth_error_app2 in Hnth by lia.
           rewrite Nat.sub_diag in Hnth. cbn in Hnth.
           exists st. split; [reflexivity | congruence].
        -- assert (Hnone : nth_error
                             (Vars.result_penalty_parameters st
                              ++ [Vars.rho st])
                             (length (Vars.result_penalty_parameters st) + S k)
                           = None)
             by (apply nth_error_None; rewrite length_app; cbn; lia).
           congruence.
Qed.



End SolverProperties.

(** ** The single-space overload *)

(** C9: the single-space overload returns what the three-space solver
    returns when it is called with the same oracles, operators, initial
    values and configuration, and with the one inner product in both the
    x-space and the constraint-space role: the same status, the same
    telemetry and the same final pair. *)
Theorem single_space_overload_forwards
    {D : Type} {DO : DoubleOps D} {Variable_ : Type}
    {VO : VariableOps D Variable_}
    (Stopwatch_tock : nat -> D)
    (minLx minLy : Variable_ -> Variable_ -> Variable_ -> D -> Variable_)
    (A B At : Variable_ -> Variable_)
    (inner_product : Variable_ -> Variable_ -> D)
    (c x0 y0 : Variable_)
    (params : Params.ADMMParams D) :
  SingleSpace.ADMM Stopwatch_tock minLx minLy A B At inner_product
    c x0 y0 params
  = ADMM (VariableX := Variable_) (VariableY := Variable_)
      (VariableR := Variable_) Stopwatch_tock minLx minLy A B At
      inner_product inner_product c x0 y0 params.
Proof. reflexivity. Qed.

(** ** The penalty parameter in exact arithmetic *)

Lemma Rltb_true (a b : R) : Rltb a b = true -> (a < b)%R.
Proof. unfold Rltb. destruct (Rlt_dec a b); [trivial | discriminate]. Qed.

Lemma Rltb_false (a b : R) : Rltb a b = false -> (b <= a)%R.
Proof.
  unfold Rltb. destruct (Rlt_dec a b); [discriminate |].
  intros _. apply Rnot_lt_le. assumption.
Qed.

Lemma Rltb_intro_false (a b : R) : (b <= a)%R -> Rltb a b = false.
Proof.
  intros H. unfold Rltb. destruct (Rlt_dec a b); [lra | reflexivity].
Qed.

(** Residual balancing with a positive scale keeps a positive penalty
    parameter positive. *)
Lemma residual_balance_positive (p d mu tau rho : R) :
  (0 < tau)%R -> (0 < rho)%R ->
  (0 < residual_balance_penalty_parameter_update p d mu tau rho)%R.
Proof.
  intros Htau Hrho. unfold residual_balance_penalty_parameter_update. cbn.
  destruct (Rltb (mu * d) p).
  - apply Rmult_lt_0_compat; assumption.
  - destruct (Rltb (mu * p) d).
    + apply Rdiv_lt_0_compat; assumption.
    + assumption.
Qed.

Lemma hybrid_stepsize_positive (SD MG : R) :
  (0 < SD)%R -> (0 < MG)%R -> (0 < hybrid_stepsize SD MG)%R.
Proof.
  intros HSD HMG. unfold hybrid_stepsize. cbn.
  destruct (Rltb SD (2 * MG)) eqn:Hcmp.
  - assumption.
  - apply Rltb_false in Hcmp. unfold Rdiv. lra.
Qed.

Section ExactSpectral.
Context {VariableR : Type}.
Variable inner_product : VariableR -> VariableR -> R.

(** A correlation with a non-zero denominator that exceeds a non-negative
    threshold has positive squared norms and a positive cross term, so both
    step-size candidates, and with them the hybrid step size, are
    positive. *)
Lemma accepted_stepsize_positive (delta_lambda delta_F : VariableR) (eps : R) :
  (0 <= eps)%R ->
  (sqrt (inner_product delta_F delta_F)
   * sqrt (inner_product delta_lambda delta_lambda) <> 0)%R ->
  (correlation inner_product delta_lambda delta_F >? eps)%D = true ->
  (0 < hybrid_stepsize (stepsize_SD inner_product delta_lambda delta_F)
         (stepsize_MG inner_product delta_lambda delta_F))%R.
Proof.
  intros Heps Hden Hcor. apply Rltb_true in Hcor.
  unfold correlation in Hcor. cbn in Hcor.
  set (FF := inner_product delta_F delta_F) in *.
  set (ll := inner_product delta_lambda delta_lambda) in *.
  set (Fl := inner_product delta_F delta_lambda) in *.
  assert (HFF : (0 < FF)%R).
  { destruct (Rlt_dec 0 FF) as [Hpos | Hneg]; [exact Hpos |].
    exfalso. apply Hden. rewrite (sqrt_neg_0 FF) by lra. ring. }
  assert (Hll : (0 < ll)%R).
  { destruct (Rlt_dec 0 ll) as [Hpos | Hneg]; [exact Hpos |].
    exfalso. apply Hden. rewrite (sqrt_neg_0 ll) by lra. ring. }
  assert (Hprod : (0 < sqrt FF * sqrt ll)%R)
    by (apply Rmult_lt_0_compat; apply sqrt_lt_R0; assumption).
  assert (HFl : (0 < Fl)%R).
  { replace Fl with (Fl / (sqrt FF * sqrt ll) * (sqrt FF * sqrt ll))%R
      by (unfold Rdiv; rewrite Rmult_assoc, Rinv_l by exact Hden; ring).
    apply Rmult_lt_0_compat; lra. }
  apply hybrid_stepsize_positive.
  - unfold stepsize_SD. cbn. fold ll Fl. apply Rdiv_lt_0_compat; assumption.
  - unfold stepsize_MG. cbn. fold FF Fl. apply Rdiv_lt_0_compat; assumption.
Qed.

(** A spectral step taken with no zero denominator under a non-negative
    correlation threshold returns a positive penalty parameter. *)
Lemma spectral_update_positive
    (delta_lambda_hat delta_lambda delta_H delta_G : VariableR)
    (eps_cor rho : R) :
  (0 <= eps_cor)%R -> (0 < rho)%R ->
  Forall (fun d => d <> 0%R)
    (spectral_denominators inner_product
       delta_lambda_hat delta_lambda delta_H delta_G) ->
  (0 < spectral_penalty_parameter_update delta_lambda_hat delta_lambda
         delta_H delta_G inner_product eps_cor rho)%R.
Proof.
  intros Heps Hrho Hden.
  rewrite Forall_forall in Hden.
  assert (Ha : (sqrt (inner_product delta_H delta_H)
                * sqrt (inner_product delta_lambda_hat delta_lambda_hat)
                <> 0)%R)
    by (apply Hden; do 4 right; left; reflexivity).
  assert (Hb : (sqrt (inner_product delta_G delta_G)
                * sqrt (inner_product delta_lambda delta_lambda) <> 0)%R)
    by (apply Hden; do 5 right; left; reflexivity).
  pose proof (fun Hc => accepted_stepsize_positive
                          delta_lambda_hat delta_H Heps Ha Hc) as Halpha.
  pose proof (fun Hc => accepted_stepsize_positive
                          delta_lambda delta_G Heps Hb Hc) as Hbeta.
  rewrite spectral_update_unfold. cbv zeta.
  destruct (correlation inner_product delta_lambda_hat delta_H >? eps_cor)%D;
    destruct (correlation inner_product delta_lambda delta_G >? eps_cor)%D;
    cbn [andb];
    try specialize (Halpha eq_refl); try specialize (Hbeta eq_refl).
  - cbn. apply sqrt_lt_R0. apply Rmult_lt_0_compat; assumption.
  - destruct (correlation inner_product delta_lambda delta_G <=? eps_cor)%D;
      [assumption |].
    rewrite andb_false_r. assumption.
  - destruct (correlation inner_product delta_lambda_hat delta_H
              <=? eps_cor)%D; cbn [andb]; assumption.
  - rewrite andb_false_r. assumption.
Qed.
End ExactSpectral.

Section ExactSolver.
Context {VariableX VariableY VariableR : Type}.
Context {VX : VariableOps R VariableX}.
Context {VY : VariableOps R VariableY}.
Context {VR : VariableOps R VariableR}.
Variable Stopwatch_tock : nat -> R.
Variable minLx : VariableX -> VariableY -> VariableR -> R -> VariableX.
Variable minLy : VariableX -> VariableY -> VariableR -> R -> VariableY.
Variable A : VariableX -> VariableR.
Variable B : VariableY -> VariableR.
Variable At : VariableR -> VariableX.
Variable inner_product_x : VariableX -> VariableX -> R.
Variable inner_product_r : VariableR -> VariableR -> R.
Variable c : VariableR.
Variable x0 : VariableX.
Variable y0 : VariableY.
Variable params : Params.ADMMParams R.

Local Abbreviation State := (Vars.t VariableX VariableY VariableR R).
Local Abbreviation mode := (Params.penalty_adaptation_mode params).
Local Abbreviation max_iterations :=
  (Params.max_iterations (Params.base params)).
Local Abbreviation iteration :=
  (admm_iteration Stopwatch_tock minLx minLy A B At
     inner_product_x inner_product_r c params).
Local Abbreviation heads :=
  (head_from Stopwatch_tock minLx minLy A B At
     inner_product_x inner_product_r c params).
Local Abbreviation head :=
  (loop_head Stopwatch_tock minLx minLy A B At
     inner_product_x inner_product_r c x0 y0 params).
Local Abbreviation denominators :=
  (pass_denominators minLx minLy A B inner_product_r c).

Hypothesis rho_positive : (0 < Params.rho params)%R.
Hypothesis tau_positive : (0 < Params.residual_balance_tau params)%R.
Hypothesis eps_cor_nonnegative :
  (0 <= Params.spectral_penalty_minimum_correlation params)%R.

Lemma iteration_rho_positive (i : nat) (st st' : State) :
  iteration i st = Continue st' ->
  (0 < Vars.rho st)%R ->
  (mode = ADMMPenaltyAdaptation.Spectral ->
   adaptation_trigger params i = Some true ->
   Forall (fun d => d <> 0%R) (denominators st)) ->
  (0 < Vars.rho st')%R.
Proof.
  intros Hit Hrho Hden.
  apply iteration_Continue in Hit
    as (compute & update & _ & Hsp & _ & Had & ->).
  cbn [Vars.rho state_on_continue state_after_record].
  assert (Hbal : (0 < rho_balanced minLx minLy A B At inner_product_x
                        inner_product_r c params update st)%R).
  { unfold rho_balanced.
    destruct (update && _); [| exact Hrho].
    apply residual_balance_positive; assumption. }
  unfold rho_next.
  destruct (update
            && ADMMPenaltyAdaptation.eqb mode ADMMPenaltyAdaptation.Spectral)
    eqn:Hspectral; [| exact Hbal].
  apply andb_prop in Hspectral as [-> Hmode].
  destruct (penalty_adaptation_eqb_spec mode ADMMPenaltyAdaptation.Spectral)
    as [Hmode' |]; [| discriminate].
  rewrite (spectral_triggers_agree params i Hmode') in Hsp.
  assert (compute = true) by congruence. subst compute.
  apply spectral_update_positive; auto.
Qed.

Lemma heads_rho_positive (k i : nat) (st0 st : State) :
  (0 < Vars.rho st0)%R ->
  (forall (j : nat) (stj : State),
      j < k -> heads j i st0 = Some stj ->
      mode = ADMMPenaltyAdaptation.Spectral ->
      adaptation_trigger params (i + j) = Some true ->
      Forall (fun d => d <> 0%R) (denominators stj)) ->
  heads k i st0 = Some st ->
  (0 < Vars.rho st)%R.
Proof.
  revert i st0. induction k as [| k IH]; intros i st0 Hrho Hden Hhead.
  - injection Hhead as <-. exact Hrho.
  - cbn [head_from] in Hhead.
    destruct (iteration i st0) as [st1 | st1 |] eqn:Hit; try discriminate.
    apply (IH (S i) st1).
    + eapply iteration_rho_positive; [exact Hit | exact Hrho |].
      intros Hmode Htrig. apply (Hden 0 st0); try assumption; try lia.
      * reflexivity.
      * rewrite Nat.add_0_r. exact Htrig.
    + intros j stj Hj Hheadj Hmode Htrig.
      apply (Hden (S j) stj); try assumption; try lia.
      * cbn [head_from]. rewrite Hit. exact Hheadj.
      * replace (i + S j) with (S i + j) by lia. exact Htrig.
    + exact Hhead.
Qed.

(** In arithmetic without rounding, overflow or underflow, for a
    configuration with rho > 0, residual_balance_tau > 0 and a non-negative
    spectral_penalty_minimum_correlation, the penalty parameter is strictly
    positive at the start of every pass of the loop and when the loop ends,
    in every adaptation mode, provided no spectral step taken on the way
    divides by zero.  In particular residual balancing maps a positive rho
    to a positive rho, and so does a spectral step without a zero
    denominator. *)
Lemma penalty_parameter_positive_in_exact_arithmetic :
  (forall p d mu rho : R,
      (0 < rho)%R ->
      (0 < residual_balance_penalty_parameter_update p d mu
             (Params.residual_balance_tau params) rho)%R)
  /\ (forall (delta_lambda_hat delta_lambda delta_H delta_G : VariableR)
             (rho : R),
         (0 < rho)%R ->
         Forall (fun d => d <> 0%R)
           (spectral_denominators inner_product_r
              delta_lambda_hat delta_lambda delta_H delta_G) ->
         (0 < spectral_penalty_parameter_update delta_lambda_hat delta_lambda
                delta_H delta_G inner_product_r
                (Params.spectral_penalty_minimum_correlation params) rho)%R)
  /\ ((forall (k : nat) (st : State),
          k < max_iterations -> head k = Some st ->
          mode = ADMMPenaltyAdaptation.Spectral ->
          adaptation_trigger params k = Some true ->
          Forall (fun d => d <> 0%R) (denominators st)) ->
      forall (k : nat) (st : State),
        k <= max_iterations -> head k = Some st -> (0 < Vars.rho st)%R).
Proof.
  split; [| split].
  - intros p d mu rho Hrho. apply residual_balance_positive; assumption.
  - intros dlh dl dH dG rho Hrho Hden.
    apply spectral_update_positive; assumption.
  - intros Hden k st Hk Hhead.
    unfold loop_head in Hhead.
    refine (@heads_rho_positive k 0 _ st _ _ Hhead).
    + exact rho_positive.
    + intros j stj Hj Hheadj Hmode Htrig.
      apply (Hden j stj); try assumption. lia.
Qed.
End ExactSolver.

(** ** The penalty parameter in binary64

    The sign of what the update rules compute, from the specification of
    the binary64 operations. *)

Section SpecFloatSigns.
Local Open Scope Z_scope.

Lemma digits2_pos_bounds (m : positive) :
  2 ^ (Zpos (digits2_pos m) - 1) <= Zpos m < 2 ^ Zpos (digits2_pos m).
Proof.
  induction m as [m IH | m IH |]; cbn [digits2_pos].
  - rewrite Pos2Z.inj_succ, (Pos2Z.inj_xI m).
    replace (Z.succ (Zpos (digits2_pos m)) - 1)
      with (Z.succ (Zpos (digits2_pos m) - 1)) by lia.
    rewrite !Z.pow_succ_r by lia.
    set (a := 2 ^ (Zpos (digits2_pos m) - 1)) in *.
    set (b := 2 ^ Zpos (digits2_pos m)) in *. clearbody a b. lia.
  - rewrite Pos2Z.inj_succ, (Pos2Z.inj_xO m).
    replace (Z.succ (Zpos (digits2_pos m)) - 1)
      with (Z.succ (Zpos (digits2_pos m) - 1)) by lia.
    rewrite !Z.pow_succ_r by lia.
    set (a := 2 ^ (Zpos (digits2_pos m) - 1)) in *.
    set (b := 2 ^ Zpos (digits2_pos m)) in *. clearbody a b. lia.
  - cbn. lia.
Qed.

Lemma iter_xO_value (m d : positive) :
  Zpos (Pos.iter xO m d) = Zpos m * 2 ^ Zpos d.
Proof.
  induction d as [| d IH] using Pos.peano_ind.
  - cbn. lia.
  - rewrite Pos.iter_succ, (Pos2Z.inj_xO (Pos.iter xO m d)), IH,
      Pos2Z.inj_succ, Z.pow_succ_r by lia.
    lia.
Qed.

Lemma shl_align_value (m : positive) (e e' : Z) :
  e' <= e ->
  Zpos (fst (shl_align m e e')) = Zpos m * 2 ^ (e - e').
Proof.
  intros Hle. unfold shl_align.
  destruct (e' - e) as [| d | d] eqn:Hd.
  - replace (e - e') with 0 by lia. cbn [fst]. lia.
  - lia.
  - cbn [fst]. rewrite iter_xO_value. f_equal. f_equal. lia.
Qed.

Lemma binary_round_aux_sign (s : bool) (mx ex : Z) (lx : SpecFloat.location) :
  match binary_round_aux prec emax s mx ex lx with
  | S754_nan => True
  | S754_zero s' | S754_infinity s' | S754_finite s' _ _ => s' = s
  end.
Proof.
  unfold binary_round_aux.
  destruct (shr_fexp prec emax mx ex lx) as [mrs' e'].
  destruct (shr_fexp prec emax
              (round_nearest_even (shr_m mrs') (loc_of_shr_record mrs'))
              e' loc_Exact) as [mrs'' e''].
  destruct (shr_m mrs'') as [| m | m]; try reflexivity.
  destruct (Z.leb e'' (emax - prec)); reflexivity.
Qed.

Lemma binary_round_aux_not_neg (mx ex : Z) (lx : SpecFloat.location) :
  sf_not_negative (binary_round_aux prec emax false mx ex lx).
Proof.
  pose proof (binary_round_aux_sign false mx ex lx) as H.
  destruct (binary_round_aux prec emax false mx ex lx); exact H.
Qed.

(** canonical mantissas *)
Lemma canonical_cases (m : positive) (e : Z) :
  canonical_mantissa prec emax m e = true ->
  (Zpos (digits2_pos m) = 53 /\ -1074 <= e)
  \/ (Zpos (digits2_pos m) < 53 /\ e = -1074).
Proof.
  unfold canonical_mantissa, fexp, SpecFloat.emin, prec, emax.
  intros H. apply Z.eqb_eq in H. lia.
Qed.

Lemma valid_finite (s : bool) (m : positive) (e : Z) :
  valid_binary (S754_finite s m e) = true ->
  canonical_mantissa prec emax m e = true /\ e <= 971.
Proof.
  cbn. unfold bounded. intros H. apply andb_prop in H as [Hc He].
  split; [exact Hc |]. apply Z.leb_le in He. exact He.
Qed.

Lemma SFcompare_finite (m1 m2 : positive) (e1 e2 : Z) :
  SFcompare (S754_finite false m1 e1) (S754_finite false m2 e2)
  = Some (match e1 ?= e2 with
          | Lt => Lt | Gt => Gt | Eq => (m1 ?= m2)%positive end).
Proof. reflexivity. Qed.

(** Subtracting a smaller valid positive number gives no negative result. *)
Lemma SFsub_not_negative (mx my : positive) (ex ey : Z) :
  valid_binary (S754_finite false mx ex) = true ->
  valid_binary (S754_finite false my ey) = true ->
  SFcompare (S754_finite false my ey) (S754_finite false mx ex) = Some Lt ->
  sf_not_negative
    (SFsub prec emax (S754_finite false mx ex) (S754_finite false my ey)).
Proof.
  intros Hx Hy Hcmp.
  apply valid_finite in Hx as (Hcx & _). apply valid_finite in Hy as (Hcy & _).
  apply canonical_cases in Hcx, Hcy.
  rewrite SFcompare_finite in Hcmp.
  assert (Hle : Zpos (fst (shl_align my ey (Z.min ex ey)))
                <= Zpos (fst (shl_align mx ex (Z.min ex ey)))).
  { rewrite !shl_align_value by lia.
    destruct (ey ?= ex) eqn:He.
    - apply Z.compare_eq in He. subst ey.
      injection Hcmp as Hm. change (my < mx)%positive in Hm.
      rewrite Z.min_id, Z.sub_diag. change (2 ^ 0) with 1. lia.
    - change (ey < ex) in He.
      rewrite Z.min_r by lia. rewrite Z.sub_diag.
      assert (Hdx : Zpos (digits2_pos mx) = 53) by lia.
      pose proof (digits2_pos_bounds mx) as Hmx. rewrite Hdx in Hmx.
      assert (Hmy : Zpos my < 2 ^ 53).
      { pose proof (digits2_pos_bounds my) as [_ Hmy].
        eapply Z.lt_le_trans; [exact Hmy |].
        apply Z.pow_le_mono_r; lia. }
      assert (Hpow : 2 ^ 1 <= 2 ^ (ex - ey)) by (apply Z.pow_le_mono_r; lia).
      change (2 ^ (53 - 1)) with 4503599627370496 in Hmx.
      change (2 ^ 53) with 9007199254740992 in Hmy.
      change (2 ^ 1) with 2 in Hpow. change (2 ^ 0) with 1.
      set (p := 2 ^ (ex - ey)) in *. clearbody p. nia.
    - discriminate. }
  unfold SFsub, cond_Zopp, binary_normalize.
  destruct (Zpos (fst (shl_align mx ex (Z.min ex ey)))
            - Zpos (fst (shl_align my ey (Z.min ex ey)))) as [| d | d] eqn:Hd.
  - reflexivity.
  - unfold binary_round.
    destruct (shl_align d (Z.min ex ey) _) as [mz ez].
    apply binary_round_aux_not_neg.
  - lia.
Qed.

Lemma digits_iter_xO (m p : positive) :
  Zpos (digits2_pos (Pos.iter xO m p)) = Zpos (digits2_pos m) + Zpos p.
Proof.
  induction p as [| p IH] using Pos.peano_ind.
  - cbn [Pos.iter digits2_pos]. rewrite Pos2Z.inj_succ. lia.
  - rewrite (Pos.iter_succ p positive xO m). cbn [digits2_pos].
    rewrite !Pos2Z.inj_succ, IH. lia.
Qed.

Lemma iter_pos_eq {T : Type} (f : T -> T) (p : positive) (x : T) :
  SpecFloat.iter_pos f p x = Pos.iter f x p.
Proof.
  revert x. induction p as [p IH | p IH |]; intros x; cbn [SpecFloat.iter_pos Pos.iter].
  - rewrite !IH, <- !Pos.iter_swap. reflexivity.
  - rewrite !IH. reflexivity.
  - reflexivity.
Qed.

Lemma shr_iter_xO (m p : positive) :
  SpecFloat.iter_pos shr_1 p
    {| shr_m := Zpos (Pos.iter xO m p); shr_r := false; shr_s := false |}
  = {| shr_m := Zpos m; shr_r := false; shr_s := false |}.
Proof.
  rewrite iter_pos_eq.
  induction p as [| p IH] using Pos.peano_ind.
  - reflexivity.
  - rewrite (Pos.iter_succ p positive xO m).
    rewrite (Pos.iter_succ p shr_record shr_1), <- Pos.iter_swap.
    cbn [shr_1 orb]. exact IH.
Qed.

Lemma canonical_fexp (m : positive) (e : Z) :
  canonical_mantissa prec emax m e = true ->
  fexp prec emax (Zpos (digits2_pos m) + e) = e.
Proof. unfold canonical_mantissa. apply Z.eqb_eq. Qed.

(** Rounding an exact value that is representable returns it. *)
Lemma binary_round_aux_exact (m : positive) (e : Z) :
  canonical_mantissa prec emax m e = true ->
  binary_round_aux prec emax false (Zpos m) e loc_Exact
  = if e <=? emax - prec then S754_finite false m e else S754_infinity false.
Proof.
  intros Hc. apply canonical_fexp in Hc.
  unfold binary_round_aux, shr_fexp. cbn [Zdigits2 shr_record_of_loc].
  rewrite Hc, Z.sub_diag. cbn [shr shr_m loc_of_shr_record round_nearest_even].
  cbn [Zdigits2 shr_record_of_loc]. rewrite Hc, Z.sub_diag.
  reflexivity.
Qed.

Lemma binary_round_aux_exact_shift (m p : positive) (e : Z) :
  canonical_mantissa prec emax m e = true ->
  binary_round_aux prec emax false (Zpos (Pos.iter xO m p)) (e - Zpos p)
    loc_Exact
  = if e <=? emax - prec then S754_finite false m e else S754_infinity false.
Proof.
  intros Hc. apply canonical_fexp in Hc.
  unfold binary_round_aux, shr_fexp. cbn [Zdigits2 shr_record_of_loc].
  rewrite digits_iter_xO.
  replace (Zpos (digits2_pos m) + Zpos p + (e - Zpos p))
    with (Zpos (digits2_pos m) + e) by lia.
  rewrite Hc.
  replace (e - (e - Zpos p)) with (Zpos p) by lia.
  cbn [shr]. rewrite shr_iter_xO.
  cbn [shr_m loc_of_shr_record round_nearest_even Zdigits2 shr_record_of_loc].
  replace (e - Zpos p + Zpos p) with e by lia.
  rewrite Hc, Z.sub_diag. reflexivity.
Qed.

(** Twice a positive number is a larger positive number, or +infinity. *)
Lemma SFmul_two_greater (m : positive) (e : Z) :
  valid_binary (S754_finite false m e) = true ->
  sf_positive (SFmul prec emax sf_two (S754_finite false m e))
  /\ SFcompare (S754_finite false m e)
       (SFmul prec emax sf_two (S754_finite false m e)) = Some Lt.
Proof.
  intros Hv. apply valid_finite in Hv as (Hc & He).
  cbn [SFmul sf_two xorb].
  change (4503599627370496 * m)%positive with (Pos.iter xO m 52).
  destruct (canonical_cases _ _ Hc) as [(Hd & Hmin) | (Hd & Hmin)].
  - replace (-51 + e) with (e + 1 - 52) by lia.
    rewrite binary_round_aux_exact_shift.
    + destruct (e + 1 <=? emax - prec).
      * split; [exact I |]. rewrite SFcompare_finite.
        rewrite (proj2 (Z.compare_lt_iff e (e + 1))) by lia. reflexivity.
      * split; [exact I | reflexivity].
    + unfold canonical_mantissa, fexp, SpecFloat.emin, prec, emax.
      apply Z.eqb_eq. lia.
  - subst e.
    change (Pos.iter xO m 52) with (Pos.iter xO (xO m) 51).
    change (-51 + -1074) with (-1074 - 51).
    rewrite binary_round_aux_exact_shift.
    + change (-1074 <=? emax - prec) with true. cbv iota.
      split; [exact I |]. rewrite SFcompare_finite, Z.compare_refl.
      f_equal. apply Pos.compare_lt_iff. lia.
    + unfold canonical_mantissa, fexp, SpecFloat.emin, prec, emax.
      cbn [digits2_pos]. rewrite Pos2Z.inj_succ.
      apply Z.eqb_eq. lia.
Qed.

Lemma digits2_pos_upper (q : positive) (n : Z) :
  Zpos q < 2 ^ n -> Zpos (digits2_pos q) <= n.
Proof.
  intros Hq. pose proof (digits2_pos_bounds q) as [Hlow _].
  destruct (Z_le_gt_dec (Zpos (digits2_pos q)) n) as [Hle | Hgt];
    [exact Hle |].
  exfalso.
  assert (Hpow : 2 ^ n <= 2 ^ (Zpos (digits2_pos q) - 1))
    by (apply Z.pow_le_mono_r; lia).
  lia.
Qed.

Lemma canonical_subnormal (q : positive) :
  Zpos (digits2_pos q) <= 53 ->
  canonical_mantissa prec emax q (-1074) = true.
Proof.
  intros Hd. unfold canonical_mantissa, fexp, SpecFloat.emin, prec, emax.
  apply Z.eqb_eq. lia.
Qed.

Lemma div_eucl_unique (a b q r : Z) :
  0 < b -> a = b * q + r -> 0 <= r < b -> Z.div_eucl a b = (q, r).
Proof.
  intros Hb Ha Hr.
  pose proof (Z_div_mod a b (Z.lt_gt _ _ Hb)) as H.
  destruct (Z.div_eucl a b) as [q' r'].
  destruct H as [Ha' Hr'].
  assert (q' = q) by nia. subst q'.
  assert (r' = r) by lia. subst r'. reflexivity.
Qed.

(** Rounding a tie at the smallest exponent. *)
Lemma binary_round_aux_tie (p : positive) :
  Zpos (digits2_pos p) <= 52 ->
  exists p' : positive,
    binary_round_aux prec emax false (Zpos p) (-1074) (loc_Inexact Eq)
    = S754_finite false p' (-1074)
    /\ Zpos p' <= Zpos p + 1.
Proof.
  intros Hd.
  assert (Hfexp : forall q : positive,
             Zpos (digits2_pos q) <= 53 ->
             fexp prec emax (Zpos (digits2_pos q) + -1074) - -1074 = 0).
  { intros q Hq. unfold fexp, SpecFloat.emin, prec, emax. lia. }
  unfold binary_round_aux, shr_fexp. cbn [Zdigits2 shr_record_of_loc].
  rewrite Hfexp by lia.
  cbn [shr shr_m loc_of_shr_record round_nearest_even].
  destruct (Z.even (Zpos p)).
  - cbn [Zdigits2 shr_record_of_loc]. rewrite Hfexp by lia.
    cbn [shr shr_m]. exists p. split; [reflexivity | lia].
  - change (Zpos p + 1) with (Zpos (p + 1)).
    cbn [Zdigits2 shr_record_of_loc].
    assert (Hd' : Zpos (digits2_pos (p + 1)) <= 53).
    { apply digits2_pos_upper.
      pose proof (digits2_pos_bounds p) as [_ Hup].
      assert (Hpow : 2 ^ Zpos (digits2_pos p) <= 2 ^ 52)
        by (apply Z.pow_le_mono_r; lia).
      change (2 ^ 52) with 4503599627370496 in Hpow.
      change (2 ^ 53) with 9007199254740992. lia. }
    rewrite Hfexp by exact Hd'.
    cbn [shr shr_m]. exists (p + 1)%positive. split; [reflexivity | lia].
Qed.

(** Half a positive number is a smaller number that is not negative. *)
Lemma SFdiv_two_smaller (m : positive) (e : Z) :
  valid_binary (S754_finite false m e) = true ->
  sf_not_negative (SFdiv prec emax (S754_finite false m e) sf_two)
  /\ SFcompare (SFdiv prec emax (S754_finite false m e) sf_two)
       (S754_finite false m e) = Some Lt.
Proof.
  intros Hv. apply valid_finite in Hv as (Hc & He).
  pose proof (canonical_cases _ _ Hc) as Hcases.
  cbn [SFdiv sf_two xorb]. unfold SFdiv_core_binary.
  cbn [Zdigits2].
  change (Zpos (digits2_pos 4503599627370496)) with 53.
  destruct (Z_le_gt_dec (-1072) e) as [Hnormal | Hlow].
  - (* the quotient is normal *)
    assert (Hd : Zpos (digits2_pos m) = 53) by lia.
    assert (He' : Z.min (fexp prec emax (Zpos (digits2_pos m) + e - (53 + -51)))
                    (e - -51) = e - 2)
      by (unfold fexp, SpecFloat.emin, prec, emax; lia).
    rewrite He'.
    replace (e - -51 - (e - 2)) with 53 by lia.
    rewrite (@div_eucl_unique (Z.shiftl (Zpos m) 53) 4503599627370496
               (Zpos (xO m)) 0).
    + change (new_location 4503599627370496 0) with loc_Exact.
      change (xO m) with (Pos.iter xO m 1).
      replace (e - 2) with (e - 1 - 1) by lia.
      rewrite binary_round_aux_exact_shift.
      * destruct (Z.leb_spec (e - 1) (emax - prec)) as [_ | Hbig];
          [| unfold emax, prec in Hbig; lia].
        split; [reflexivity |]. rewrite SFcompare_finite.
        rewrite (proj2 (Z.compare_lt_iff (e - 1) e)) by lia. reflexivity.
      * unfold canonical_mantissa, fexp, SpecFloat.emin, prec, emax.
        apply Z.eqb_eq. lia.
    + lia.
    + rewrite Z.shiftl_mul_pow2 by lia.
      change (2 ^ 53) with 9007199254740992.
      rewrite (Pos2Z.inj_xO m). lia.
    + lia.
  - destruct (Z.eq_dec e (-1073)) as [-> | Hmin].
    + (* the quotient is the largest subnormal exponent *)
      assert (Hd : Zpos (digits2_pos m) = 53) by lia.
      assert (He' : Z.min (fexp prec emax
                             (Zpos (digits2_pos m) + -1073 - (53 + -51)))
                      (-1073 - -51) = -1074)
        by (unfold fexp, SpecFloat.emin, prec, emax; lia).
      rewrite He'.
      change (-1073 - -51 - -1074) with 52. cbv iota.
      rewrite (@div_eucl_unique (Z.shiftl (Zpos m) 52) 4503599627370496
                 (Zpos m) 0).
      * change (new_location 4503599627370496 0) with loc_Exact.
        rewrite binary_round_aux_exact by (apply canonical_subnormal; lia).
        change (-1074 <=? emax - prec) with true. cbv iota.
        split; [reflexivity |]. rewrite SFcompare_finite. reflexivity.
      * lia.
      * rewrite Z.shiftl_mul_pow2 by lia.
        change (2 ^ 52) with 4503599627370496. lia.
      * lia.
    + (* the smallest exponent: the quotient is rounded *)
      assert (e = -1074) by lia. subst e.
      assert (Hd : Zpos (digits2_pos m) <= 53) by lia.
      assert (He' : Z.min (fexp prec emax
                             (Zpos (digits2_pos m) + -1074 - (53 + -51)))
                      (-1074 - -51) = -1074)
        by (unfold fexp, SpecFloat.emin, prec, emax; lia).
      rewrite He'.
      change (-1074 - -51 - -1074) with 51. cbv iota.
      destruct m as [p | p |].
      * cbn [digits2_pos] in Hd. rewrite Pos2Z.inj_succ in Hd.
        rewrite (@div_eucl_unique (Z.shiftl (Zpos (xI p)) 51)
                   4503599627370496 (Zpos p) 2251799813685248).
        -- change (new_location 4503599627370496 2251799813685248)
             with (loc_Inexact Eq).
           destruct (@binary_round_aux_tie p) as (p' & -> & Hp'); [lia |].
           split; [reflexivity |]. rewrite SFcompare_finite.
           rewrite Z.compare_refl. f_equal.
           apply Pos.compare_lt_iff. lia.
        -- lia.
        -- rewrite Z.shiftl_mul_pow2 by lia.
           change (2 ^ 51) with 2251799813685248.
           rewrite (Pos2Z.inj_xI p). lia.
        -- lia.
      * cbn [digits2_pos] in Hd. rewrite Pos2Z.inj_succ in Hd.
        rewrite (@div_eucl_unique (Z.shiftl (Zpos (xO p)) 51)
                   4503599627370496 (Zpos p) 0).
        -- change (new_location 4503599627370496 0) with loc_Exact.
           rewrite binary_round_aux_exact by (apply canonical_subnormal; lia).
           change (-1074 <=? emax - prec) with true. cbv iota.
           split; [reflexivity |]. rewrite SFcompare_finite.
           rewrite Z.compare_refl. f_equal.
           apply Pos.compare_lt_iff. lia.
        -- lia.
        -- rewrite Z.shiftl_mul_pow2 by lia.
           change (2 ^ 51) with 2251799813685248.
           rewrite (Pos2Z.inj_xO p). lia.
        -- lia.
      * vm_compute. split; reflexivity.
Qed.

Lemma SFltb_finite (m1 m2 : positive) (e1 e2 : Z) :
  SFltb (S754_finite false m1 e1) (S754_finite false m2 e2) = true
  <-> (e1 < e2 \/ (e1 = e2 /\ (m1 < m2)%positive))%Z.
Proof.
  unfold SFltb. rewrite SFcompare_finite.
  destruct (Z.compare_spec e1 e2) as [He | He | He].
  - destruct (Pos.compare_spec m1 m2) as [Hm | Hm | Hm]; split;
      try discriminate; try lia; intros _; try reflexivity.
  - split; [lia | reflexivity].
  - split; [discriminate | lia].
Qed.

Lemma SFcompare_Lt_finite (m1 m2 : positive) (e1 e2 : Z) :
  SFcompare (S754_finite false m1 e1) (S754_finite false m2 e2) = Some Lt
  <-> (e1 < e2 \/ (e1 = e2 /\ (m1 < m2)%positive))%Z.
Proof.
  rewrite <- SFltb_finite. unfold SFltb.
  destruct (SFcompare _ _) as [[| |] |]; split; congruence.
Qed.

(** The subtraction of the hybrid step size: when SD is not below 2 MG,
    SD - MG / 2 is not negative. *)
Lemma hybrid_difference_not_negative (SD MG : spec_float) :
  valid_binary SD = true -> valid_binary MG = true ->
  valid_binary (SFdiv prec emax MG sf_two) = true ->
  sf_not_negative SD -> sf_not_negative MG ->
  SFltb SD (SFmul prec emax sf_two MG) = false ->
  sf_not_negative (SFsub prec emax SD (SFdiv prec emax MG sf_two)).
Proof.
  intros HvSD HvMG Hvh HSD HMG Hcmp.
  destruct MG as [s | s | | s m e]; cbn in HMG; try subst s.
  - (* MG = +0 *)
    destruct SD as [s | s | | s ms es]; cbn in HSD; try subst s;
      cbn; auto.
  - (* MG = +infinity *)
    destruct SD as [s | s | | s ms es]; cbn in HSD; try subst s;
      cbn in Hcmp; try discriminate; cbn; auto.
  - (* MG is a NaN *)
    destruct SD as [s | s | | s ms es]; exact I.
  - (* MG is a positive number *)
    destruct (@SFmul_two_greater m e HvMG) as (Htpos & Htwice).
    destruct (@SFdiv_two_smaller m e HvMG) as (Hhnn & Hhalf).
    destruct (SFdiv prec emax (S754_finite false m e) sf_two)
      as [sh | sh | | sh mh eh] eqn:Hh;
      cbn in Hhnn; try subst sh; try discriminate Hhalf.
    + (* MG / 2 = +0 *)
      destruct SD as [s | s | | s ms es]; cbn in HSD; try subst s;
        cbn; auto.
    + (* MG / 2 is a positive number *)
      destruct SD as [s | s | | s ms es]; cbn in HSD; try subst s.
      * (* SD = +0 is below 2 MG *)
        exfalso.
        destruct (SFmul prec emax sf_two (S754_finite false m e))
          as [st | st | | st mt et]; cbn in Htpos; try contradiction;
          destruct st; try contradiction; discriminate Hcmp.
      * reflexivity.
      * exact I.
      * destruct (SFmul prec emax sf_two (S754_finite false m e))
          as [st | st | | st mt et]; cbn in Htpos; try contradiction;
          destruct st; try contradiction.
        -- discriminate Hcmp.
        -- apply SFsub_not_negative; try assumption.
           apply SFcompare_Lt_finite.
           apply SFcompare_Lt_finite in Hhalf, Htwice.
           assert (Hge : ~ (es < et \/ (es = et /\ (ms < mt)%positive))%Z).
           { intros H. apply SFltb_finite in H. congruence. }
           lia.
Qed.

Lemma SFmul_not_negative (a b : spec_float) :
  sf_not_negative a -> sf_not_negative b ->
  sf_not_negative (SFmul prec emax a b).
Proof.
  intros Ha Hb.
  destruct a as [sa | sa | | sa ma ea]; cbn in Ha; try subst sa;
    destruct b as [sb | sb | | sb mb eb]; cbn in Hb; try subst sb;
    try exact I; try reflexivity.
  apply binary_round_aux_not_neg.
Qed.

Lemma SFdiv_not_negative (a b : spec_float) :
  sf_not_negative a -> sf_not_negative b ->
  sf_not_negative (SFdiv prec emax a b).
Proof.
  intros Ha Hb.
  destruct a as [sa | sa | | sa ma ea]; cbn in Ha; try subst sa;
    destruct b as [sb | sb | | sb mb eb]; cbn in Hb; try subst sb;
    try exact I; try reflexivity.
  cbn [SFdiv xorb].
  destruct (SFdiv_core_binary prec emax (Zpos ma) ea (Zpos mb) eb)
    as [[mz ez] lz].
  apply binary_round_aux_not_neg.
Qed.

Lemma SFsqrt_not_negative (a : spec_float) :
  sf_not_negative a -> sf_not_negative (SFsqrt prec emax a).
Proof.
  intros Ha.
  destruct a as [sa | sa | | sa ma ea]; cbn in Ha; try subst sa;
    try exact I; try reflexivity.
  cbn [SFsqrt].
  destruct (SFsqrt_core_binary prec emax (Zpos ma) ea) as [[mz ez] lz].
  apply binary_round_aux_not_neg.
Qed.

Lemma sf_positive_not_negative (v : spec_float) :
  sf_positive v -> sf_not_negative v.
Proof.
  destruct v as [s | s | | s m e]; cbn; try contradiction;
    destruct s; try contradiction; reflexivity.
Qed.

(** A value above a threshold that is not negative is positive. *)
Lemma above_threshold_positive (eps v : spec_float) :
  SFleb (S754_zero false) eps = true -> SFltb eps v = true ->
  sf_positive v.
Proof.
  intros Heps Hv.
  destruct eps as [se | se | | se me ee]; try discriminate Heps;
    try (destruct se; try discriminate Heps);
    destruct v as [sv | sv | | sv mv ev]; try discriminate Hv;
    destruct sv; try discriminate Hv; exact I.
Qed.

(** The denominator of a correlation, sqrt a * sqrt b, is a NaN, a zero or
    positive; it is positive only for positive a and b. *)
Lemma norm_product_cases (a b : spec_float) :
  let d := SFmul prec emax (SFsqrt prec emax a) (SFsqrt prec emax b) in
  d = S754_nan \/ (exists s, d = S754_zero s)
  \/ (sf_positive a /\ sf_positive b /\ sf_positive d).
Proof.
  assert (Hsqrt : forall v : spec_float,
             let r := SFsqrt prec emax v in
             r = S754_nan \/ (exists s, r = S754_zero s)
             \/ (sf_positive v /\ sf_positive r)).
  { intros v. destruct v as [s | s | | s m e]; cbn [SFsqrt]; eauto;
      destruct s; eauto.
    - right. right. split; exact I.
    - destruct (SFsqrt_core_binary prec emax (Zpos m) e) as [[mz ez] lz].
      pose proof (binary_round_aux_sign false mz ez lz) as Hs.
      destruct (binary_round_aux prec emax false mz ez lz)
        as [s | s | | s m' e']; eauto; subst s; right; right; split; exact I. }
  cbv zeta.
  destruct (Hsqrt a) as [Ha | [(sa & Ha) | (Hpa & Ha)]];
    destruct (Hsqrt b) as [Hb | [(sb & Hb) | (Hpb & Hb)]];
    cbv zeta in *;
    destruct (SFsqrt prec emax a) as [s1 | s1 | | s1 m1 e1];
    destruct (SFsqrt prec emax b) as [s2 | s2 | | s2 m2 e2];
    try discriminate; try contradiction; cbn [SFmul]; eauto;
    try (destruct s1; try contradiction);
    try (destruct s2; try contradiction);
    cbn [xorb]; eauto.
  pose proof (binary_round_aux_sign false (Zpos (m1 * m2)) (e1 + e2)
                loc_Exact) as Hs.
  destruct (binary_round_aux prec emax false (Zpos (m1 * m2)) (e1 + e2)
              loc_Exact) as [s | s | | s m' e']; eauto; subst s;
    right; right; repeat split; try assumption; exact I.
Qed.

(** A positive quotient by a positive denominator has a positive
    numerator. *)
Lemma positive_quotient_numerator (n d : spec_float) :
  sf_positive d -> sf_positive (SFdiv prec emax n d) -> sf_positive n.
Proof.
  intros Hd Hq.
  destruct d as [sd | sd | | sd md ed]; cbn in Hd; try contradiction;
    destruct sd; try contradiction;
    destruct n as [sn | sn | | sn mn en]; cbn in Hq; try contradiction;
    destruct sn; try contradiction; try exact I.
  - cbn [SFdiv xorb] in Hq.
    destruct (SFdiv_core_binary prec emax (Zpos mn) en (Zpos md) ed)
      as [[mz ez] lz].
    pose proof (binary_round_aux_sign true mz ez lz) as Hs.
    destruct (binary_round_aux prec emax true mz ez lz)
      as [s | s | | s m' e']; cbn in Hq; try contradiction;
      subst s; contradiction.
Qed.
End SpecFloatSigns.

(** *** The penalty parameter in binary64 *)

Lemma positive_spec (r : float) :
  (0 <? r)%float = true <-> sf_positive (Prim2SF r).
Proof.
  rewrite ltb_spec. change (Prim2SF 0) with (S754_zero false).
  destruct (Prim2SF r) as [s | s | | s m e]; cbn;
    try (destruct s; cbn); split; intros H;
    try discriminate; try contradiction; try reflexivity; exact I.
Qed.

Lemma positive_zero_or_nan_spec (r : float) :
  positive_zero_or_nan r <-> sf_not_negative (Prim2SF r).
Proof.
  unfold positive_zero_or_nan. split.
  - intros [H | [-> | ->]]; [| reflexivity | exact I].
    apply positive_spec in H. apply sf_positive_not_negative, H.
  - intros H.
    destruct (Prim2SF r) as [s | s | | s m e] eqn:Hr; cbn in H;
      try subst s.
    + right. left. apply Prim2SF_inj. exact Hr.
    + left. apply positive_spec. rewrite Hr. exact I.
    + right. right. apply Prim2SF_nan_eq, Hr.
    + left. apply positive_spec. rewrite Hr. exact I.
Qed.

Lemma SFdiv_by_nan (n : spec_float) : SFdiv prec emax n S754_nan = S754_nan.
Proof. destruct n; reflexivity. Qed.

(** Residual balancing keeps a penalty parameter that is not negative so
    when the scale is positive. *)
Lemma residual_balance_not_negative (p d mu tau rho : float) :
  (0 <? tau)%float = true ->
  sf_not_negative (Prim2SF rho) ->
  sf_not_negative
    (Prim2SF (residual_balance_penalty_parameter_update p d mu tau rho)).
Proof.
  intros Htau Hrho.
  apply positive_spec, sf_positive_not_negative in Htau.
  unfold residual_balance_penalty_parameter_update.
  cbn [dlt dmul ddiv binary64].
  destruct (mu * d <? p)%float.
  - rewrite mul_spec. apply SFmul_not_negative; assumption.
  - destruct (mu * p <? d)%float; [| exact Hrho].
    rewrite div_spec. apply SFdiv_not_negative; assumption.
Qed.

Lemma hybrid_stepsize_not_negative (SD MG : float) :
  sf_not_negative (Prim2SF SD) -> sf_not_negative (Prim2SF MG) ->
  sf_not_negative (Prim2SF (hybrid_stepsize SD MG)).
Proof.
  intros HSD HMG. unfold hybrid_stepsize.
  cbn [dlt dmul dsub ddiv dtwo binary64].
  destruct (SD <? 2 * MG)%float eqn:Hcmp; [exact HMG |].
  rewrite ltb_spec, mul_spec in Hcmp.
  rewrite sub_spec, div_spec.
  apply hybrid_difference_not_negative; try assumption.
  - apply Prim2SF_valid.
  - apply Prim2SF_valid.
  - change (SFdiv prec emax (Prim2SF MG) sf_two)
      with (SF64div (Prim2SF MG) (Prim2SF 2)).
    rewrite <- div_spec. apply Prim2SF_valid.
Qed.

Section Binary64Spectral.
Context {VariableR : Type}.
Variable inner_product : VariableR -> VariableR -> float.

(** A correlation with a non-zero denominator that exceeds a threshold
    that is not negative has positive squared norms and a positive cross
    term, so neither step-size candidate, nor the hybrid step size, is
    negative. *)
Lemma accepted_stepsize_not_negative
    (delta_lambda delta_F : VariableR) (eps : float) :
  (0 <=? eps)%float = true ->
  PrimFloat.is_zero
    (PrimFloat.sqrt (inner_product delta_F delta_F)
     * PrimFloat.sqrt (inner_product delta_lambda delta_lambda))%float
  = false ->
  (correlation inner_product delta_lambda delta_F >? eps)%D = true ->
  sf_not_negative
    (Prim2SF
       (hybrid_stepsize (stepsize_SD inner_product delta_lambda delta_F)
          (stepsize_MG inner_product delta_lambda delta_F))).
Proof.
  intros Heps Hden Hcor.
  unfold correlation in Hcor. cbn [dlt ddiv dmul dsqrt binary64] in Hcor.
  set (FF := inner_product delta_F delta_F) in *.
  set (ll := inner_product delta_lambda delta_lambda) in *.
  set (Fl := inner_product delta_F delta_lambda) in *.
  rewrite leb_spec in Heps. change (Prim2SF 0) with (S754_zero false) in Heps.
  rewrite ltb_spec in Hcor.
  pose proof (above_threshold_positive _ _ Heps Hcor) as Hpos.
  rewrite div_spec, mul_spec, !sqrt_spec in Hpos.
  unfold SF64div, SF64mul, SF64sqrt in Hpos.
  assert (Hnz : forall s,
             SFmul prec emax (SFsqrt prec emax (Prim2SF FF))
               (SFsqrt prec emax (Prim2SF ll)) <> S754_zero s).
  { intros s Hs.
    assert (Hz : PrimFloat.is_zero
                   (PrimFloat.sqrt FF * PrimFloat.sqrt ll)%float = true).
    { apply is_zero_intro with (s := s).
      rewrite mul_spec, !sqrt_spec. exact Hs. }
    congruence. }
  destruct (norm_product_cases (Prim2SF FF) (Prim2SF ll))
    as [Hnan | [(s & Hzero) | (HFF & Hll & Hd)]].
  - cbv zeta in Hnan. rewrite Hnan, SFdiv_by_nan in Hpos. contradiction.
  - exfalso. exact (Hnz s Hzero).
  - cbv zeta in Hd.
    pose proof (positive_quotient_numerator _ _ Hd Hpos) as HFl.
    apply hybrid_stepsize_not_negative.
    + unfold stepsize_SD. cbn [ddiv binary64]. fold ll Fl.
      rewrite div_spec.
      apply SFdiv_not_negative; apply sf_positive_not_negative; assumption.
    + unfold stepsize_MG. cbn [ddiv binary64]. fold FF Fl.
      rewrite div_spec.
      apply SFdiv_not_negative; apply sf_positive_not_negative; assumption.
Qed.

(** A spectral step with no zero denominator under a threshold that is not
    negative keeps a penalty parameter that is not negative so. *)
Lemma spectral_update_not_negative
    (delta_lambda_hat delta_lambda delta_H delta_G : VariableR)
    (eps_cor rho : float) :
  (0 <=? eps_cor)%float = true ->
  sf_not_negative (Prim2SF rho) ->
  Forall (fun d => PrimFloat.is_zero d = false)
    (spectral_denominators inner_product
       delta_lambda_hat delta_lambda delta_H delta_G) ->
  sf_not_negative
    (Prim2SF
       (spectral_penalty_parameter_update delta_lambda_hat delta_lambda
          delta_H delta_G inner_product eps_cor rho)).
Proof.
  intros Heps Hrho Hden.
  rewrite Forall_forall in Hden.
  assert (Ha : PrimFloat.is_zero
                 (PrimFloat.sqrt (inner_product delta_H delta_H)
                  * PrimFloat.sqrt
                      (inner_product delta_lambda_hat delta_lambda_hat))%float
               = false)
    by (apply Hden; do 4 right; left; reflexivity).
  assert (Hb : PrimFloat.is_zero
                 (PrimFloat.sqrt (inner_product delta_G delta_G)
                  * PrimFloat.sqrt
                      (inner_product delta_lambda delta_lambda))%float
               = false)
    by (apply Hden; do 5 right; left; reflexivity).
  pose proof (fun Hc => @accepted_stepsize_not_negative
                          delta_lambda_hat delta_H eps_cor Heps Ha Hc)
    as Halpha.
  pose proof (fun Hc => @accepted_stepsize_not_negative
                          delta_lambda delta_G eps_cor Heps Hb Hc) as Hbeta.
  rewrite spectral_update_unfold. cbv zeta.
  destruct (correlation inner_product delta_lambda_hat delta_H >? eps_cor)%D;
    destruct (correlation inner_product delta_lambda delta_G >? eps_cor)%D;
    cbn [andb];
    try specialize (Halpha eq_refl); try specialize (Hbeta eq_refl).
  - cbn [dsqrt dmul binary64]. rewrite sqrt_spec, mul_spec.
    apply SFsqrt_not_negative, SFmul_not_negative; assumption.
  - destruct (correlation inner_product delta_lambda delta_G <=? eps_cor)%D;
      [assumption |].
    rewrite andb_false_r. assumption.
  - destruct (correlation inner_product delta_lambda_hat delta_H
              <=? eps_cor)%D; cbn [andb]; assumption.
  - rewrite andb_false_r. assumption.
Qed.
End Binary64Spectral.

Section Binary64Penalty.
Context {VariableX VariableY VariableR : Type}.
Context {VX : VariableOps float VariableX}.
Context {VY : VariableOps float VariableY}.
Context {VR : VariableOps float VariableR}.
Variable Stopwatch_tock : nat -> float.
Variable minLx : VariableX -> VariableY -> VariableR -> float -> VariableX.
Variable minLy : VariableX -> VariableY -> VariableR -> float -> VariableY.
Variable A : VariableX -> VariableR.
Variable B : VariableY -> VariableR.
Variable At : VariableR -> VariableX.
Variable inner_product_x : VariableX -> VariableX -> float.
Variable inner_product_r : VariableR -> VariableR -> float.
Variable c : VariableR.
Variable x0 : VariableX.
Variable y0 : VariableY.
Variable params : Params.ADMMParams float.

Local Abbreviation State := (Vars.t VariableX VariableY VariableR float).
Local Abbreviation mode := (Params.penalty_adaptation_mode params).
Local Abbreviation iteration :=
  (admm_iteration Stopwatch_tock minLx minLy A B At
     inner_product_x inner_product_r c params).
Local Abbreviation heads :=
  (head_from Stopwatch_tock minLx minLy A B At
     inner_product_x inner_product_r c params).
Local Abbreviation head :=
  (loop_head Stopwatch_tock minLx minLy A B At
     inner_product_x inner_product_r c x0 y0 params).
Local Abbreviation denominators :=
  (pass_denominators minLx minLy A B inner_product_r c).

Hypothesis rho_positive : (0 <? Params.rho params)%float = true.
Hypothesis tau_positive :
  (0 <? Params.residual_balance_tau params)%float = true.
Hypothesis eps_cor_not_negative :
  (0 <=? Params.spectral_penalty_minimum_correlation params)%float = true.

Lemma iteration_rho_not_negative (i : nat) (st st' : State) :
  iteration i st = Continue st' ->
  sf_not_negative (Prim2SF (Vars.rho st)) ->
  (mode = ADMMPenaltyAdaptation.Spectral ->
   adaptation_trigger params i = Some true ->
   Forall (fun d => PrimFloat.is_zero d = false) (denominators st)) ->
  sf_not_negative (Prim2SF (Vars.rho st')).
Proof.
  intros Hit Hrho Hden.
  apply iteration_Continue in Hit
    as (compute & update & _ & Hsp & _ & Had & ->).
  cbn [Vars.rho state_on_continue state_after_record].
  assert (Hbal : sf_not_negative
                   (Prim2SF
                      (rho_balanced minLx minLy A B At inner_product_x
                         inner_product_r c params update st))).
  { unfold rho_balanced.
    destruct (update && _); [| exact Hrho].
    apply residual_balance_not_negative; assumption. }
  unfold rho_next.
  destruct (update
            && ADMMPenaltyAdaptation.eqb mode ADMMPenaltyAdaptation.Spectral)
    eqn:Hspectral; [| exact Hbal].
  apply andb_prop in Hspectral as [-> Hmode].
  destruct (penalty_adaptation_eqb_spec mode ADMMPenaltyAdaptation.Spectral)
    as [Hmode' |]; [| discriminate].
  rewrite (spectral_triggers_agree params i Hmode') in Hsp.
  assert (compute = true) by congruence. subst compute.
  apply spectral_update_not_negative; auto.
Qed.

Lemma heads_rho_not_negative (k i : nat) (st0 st : State) :
  sf_not_negative (Prim2SF (Vars.rho st0)) ->
  (forall (j : nat) (stj : State),
      j < k -> heads j i st0 = Some stj ->
      mode = ADMMPenaltyAdaptation.Spectral ->
      adaptation_trigger params (i + j) = Some true ->
      Forall (fun d => PrimFloat.is_zero d = false) (denominators stj)) ->
  heads k i st0 = Some st ->
  sf_not_negative (Prim2SF (Vars.rho st)).
Proof.
  revert i st0. induction k as [| k IH]; intros i st0 Hrho Hden Hhead.
  - injection Hhead as <-. exact Hrho.
  - cbn [head_from] in Hhead.
    destruct (iteration i st0) as [st1 | st1 |] eqn:Hit; try discriminate.
    apply (IH (S i) st1).
    + eapply iteration_rho_not_negative; [exact Hit | exact Hrho |].
      intros Hmode Htrig. apply (Hden 0 st0); try assumption; try lia.
      * reflexivity.
      * rewrite Nat.add_0_r. exact Htrig.
    + intros j stj Hj Hheadj Hmode Htrig.
      apply (Hden (S j) stj); try assumption; try lia.
      * cbn [head_from]. rewrite Hit. exact Hheadj.
      * replace (i + S j) with (S i + j) by lia. exact Htrig.
    + exact Hhead.
Qed.

End Binary64Penalty.



(** ** The solver on the concrete problem *)

(** The end-to-end scenario of the specification, on the line: with the
    default configuration and no adaptation the solver stops by the residual
    test after six passes, within 1e-2 of the minimiser x = y = 2. *)
Example quadratic_converges :
  exists res,
    Quadratic.solve (Quadratic.params ADMMPenaltyAdaptation.None 2 50 1000)
    = Some res
    /\ Result.status res = ADMMStatus.RESIDUAL_TOLERANCE
    /\ Result.x (Result.base res) = (2, 1.9921875)%float
    /\ length (Result.penalty_parameters res) = 6.
Proof.
  eexists. split; [vm_compute; reflexivity |].
  repeat split.
Qed.

(** With residual balancing every second pass, pass 1 is not an adaptation
    pass and leaves rho as it found it. *)
Lemma penalty_changes_only_when_triggered_witness :
  exists st st',
    Quadratic.head 1 3
      (Quadratic.params ADMMPenaltyAdaptation.Residual_Balance 2 50 1000) 1
    = Some st
    /\ Quadratic.head 1 3
         (Quadratic.params ADMMPenaltyAdaptation.Residual_Balance 2 50 1000) 2
       = Some st'
    /\ Vars.rho st' = Vars.rho st.
Proof.
  eexists. eexists.
  split; [vm_compute; reflexivity |].
  split; [vm_compute; reflexivity |].
  refine (proj2 (penalty_changes_only_when_triggered
                   Quadratic.seconds (Quadratic.minLx 1) (Quadratic.minLy 3)
                   Quadratic.A Quadratic.B Quadratic.At
                   Quadratic.inner_product Quadratic.inner_product
                   0%float 0%float 0%float
                   (Quadratic.params ADMMPenaltyAdaptation.Residual_Balance
                      2 50 1000))
            1 _ _ _ _ _).
  - vm_compute. reflexivity.
  - vm_compute. reflexivity.
  - right. intros [Hmod _]. vm_compute in Hmod. discriminate Hmod.
Defined.

(** On the line the sixth pass of the default configuration meets the
    residual test, and the call returns RESIDUAL_TOLERANCE with six entries
    in each sequence. *)
Lemma residual_tolerance_stop_witness :
  exists st res,
    Quadratic.head 1 3 Scenario.logged 5 = Some st
    /\ Quadratic.solve Scenario.logged = Some res
    /\ Result.status res = ADMMStatus.RESIDUAL_TOLERANCE
    /\ Result.x (Result.base res)
       = (x_next (Quadratic.minLx 1) st,
          y_next (Quadratic.minLx 1) (Quadratic.minLy 3) st)
    /\ length (Result.time (Result.base res)) = 6.
Proof.
  unfold Quadratic.head, Quadratic.solve, SingleSpace.ADMM.
  match goal with
  | |- exists st res, ?head = Some st /\ _ =>
    assert (Hst : exists st,
               head = Some st
               /\ time_exceeded Quadratic.seconds Scenario.logged st = false
               /\ residuals_within_tolerance
                    (Quadratic.minLx 1) (Quadratic.minLy 3)
                    Quadratic.A Quadratic.B Quadratic.At
                    Quadratic.inner_product Quadratic.inner_product
                    0%float Scenario.logged st = true)
      by (eexists; split; [vm_compute; reflexivity |];
          split; vm_compute; reflexivity)
  end.
  destruct Hst as (st & Hhead & Htime & Hconv).
  destruct (proj2 (proj2 (residual_tolerance_stop
                            Quadratic.seconds
                            (Quadratic.minLx 1) (Quadratic.minLy 3)
                            Quadratic.A Quadratic.B Quadratic.At
                            Quadratic.inner_product Quadratic.inner_product
                            0%float 0%float 0%float Scenario.logged))
              5 st)
    as (res & Hres & Hstatus & Hx & Hlen & _).
  - vm_compute. lia.
  - exact Hhead.
  - exact Htime.
  - vm_compute. discriminate.
  - exact Hconv.
  - exists st, res. repeat split; assumption.
Defined.







(** * Further properties of the solver *)

Section TelemetryProperties.
Context {D : Type} {DO : DoubleOps D}.
Context {VariableX VariableY VariableR : Type}.
Context {VX : VariableOps D VariableX}.
Context {VY : VariableOps D VariableY}.
Context {VR : VariableOps D VariableR}.
Variable Stopwatch_tock : nat -> D.
Variable minLx : VariableX -> VariableY -> VariableR -> D -> VariableX.
Variable minLy : VariableX -> VariableY -> VariableR -> D -> VariableY.
Variable A : VariableX -> VariableR.
Variable B : VariableY -> VariableR.
Variable At : VariableR -> VariableX.
Variable inner_product_x : VariableX -> VariableX -> D.
Variable inner_product_r : VariableR -> VariableR -> D.
Variable c : VariableR.
Variable x0 : VariableX.
Variable y0 : VariableY.
Variable params : Params.ADMMParams D.

Local Abbreviation State := (Vars.t VariableX VariableY VariableR D).
Local Abbreviation mode := (Params.penalty_adaptation_mode params).
Local Abbreviation period := (Params.penalty_adaptation_period params).
Local Abbreviation window := (Params.penalty_adaptation_window params).
Local Abbreviation max_iterations :=
  (Params.max_iterations (Params.base params)).
Local Abbreviation max_computation_time :=
  (Params.max_computation_time (Params.base params)).
Local Abbreviation log_iterates :=
  (Params.log_iterates (Params.base params)).
Local Abbreviation iteration :=
  (admm_iteration Stopwatch_tock minLx minLy A B At
     inner_product_x inner_product_r c params).
Local Abbreviation loop :=
  (admm_loop Stopwatch_tock minLx minLy A B At
     inner_product_x inner_product_r c params).
Local Abbreviation heads :=
  (head_from Stopwatch_tock minLx minLy A B At
     inner_product_x inner_product_r c params).
Local Abbreviation init := (admm_init A B c x0 y0 params).
Local Abbreviation head :=
  (loop_head Stopwatch_tock minLx minLy A B At
     inner_product_x inner_product_r c x0 y0 params).
Local Abbreviation solve :=
  (ADMM Stopwatch_tock minLx minLy A B At
     inner_product_x inner_product_r c x0 y0 params).

(** Reasoning about a call by an invariant [P] of the loop heads and a
    property [Q] of the state the loop ends with. *)
Lemma run_rule (P : nat -> State -> Prop) (Q : State -> Prop) :
  P 0 init ->
  (forall (i : nat) (st st' : State),
      i < max_iterations -> P i st -> iteration i st = Continue st' ->
      P (S i) st') ->
  (forall (i : nat) (st st' : State),
      i < max_iterations -> P i st -> iteration i st = Break st' -> Q st') ->
  (forall st : State, P max_iterations st -> Q st) ->
  forall st' : State, loop max_iterations 0 init = Some st' -> Q st'.
Proof.
  intros Hinit Hcontinue Hbreak Hlimit st'.
  assert (Hgen : forall (n i : nat) (st : State),
             i + n = max_iterations -> P i st ->
             loop n i st = Some st' -> Q st').
  { induction n as [| n IH]; intros i st Hsum HP Hloop.
    - injection Hloop as <-. apply Hlimit.
      rewrite <- Hsum, Nat.add_0_r. exact HP.
    - cbn [admm_loop] in Hloop.
      destruct (iteration i st) as [st1 | st1 |] eqn:Hit; try discriminate.
      + apply (IH (S i) st1); [lia | | exact Hloop].
        apply (Hcontinue i st st1); [lia | exact HP | exact Hit].
      + injection Hloop as <-.
        apply (Hbreak i st st1); [lia | exact HP | exact Hit]. }
  apply (Hgen max_iterations 0 init); [reflexivity | exact Hinit].
Qed.

(** The result of a call is read off the state its loop ends with. *)
Lemma solve_final_state res :
  solve = Some res ->
  exists st',
    loop max_iterations 0 init = Some st'
    /\ res = admm_result Stopwatch_tock st'.
Proof.
  intros H. apply ADMM_returns in H as (_ & st' & Hloop & ->). eauto.
Qed.

(** X1: in every result the four per-pass sequences (elapsed times, primal
    residuals, dual residuals, penalty parameters) have the same length; the
    snapshot sequence has that length too when log_iterates is set and is
    empty otherwise. *)
Theorem telemetry_lengths_agree res :
  solve = Some res ->
  length (Result.primal_residuals res) = length (Result.time (Result.base res))
  /\ length (Result.dual_residuals res)
     = length (Result.time (Result.base res))
  /\ length (Result.penalty_parameters res)
     = length (Result.time (Result.base res))
  /\ length (Result.iterates (Result.base res))
     = if log_iterates then length (Result.time (Result.base res)) else 0.
Proof.
  intros Hsolve.
  destruct (solve_final_state Hsolve) as (st' & Hloop & ->). cbn.
  pose (P := fun (st : State) =>
               length (Vars.result_primal_residuals st)
               = length (Vars.result_time st)
               /\ length (Vars.result_dual_residuals st)
                  = length (Vars.result_time st)
               /\ length (Vars.result_penalty_parameters st)
                  = length (Vars.result_time st)
               /\ length (Vars.result_iterates st)
                  = if log_iterates
                    then length (Vars.result_time st) else 0).
  assert (Hrecord : forall compute st status y_prev rho checkpoint,
             P st ->
             P (state_after_record Stopwatch_tock minLx minLy A B At
                  inner_product_x inner_product_r c params
                  compute st status y_prev rho checkpoint)).
  { unfold P. intros compute st status y_prev rho checkpoint.
    cbn. destruct log_iterates; rewrite !length_app; cbn; lia. }
  apply (run_rule (fun _ => P) P) with (st' := st').
  - unfold P. cbn. destruct log_iterates; auto.
  - intros i st st1 _ HP Hit.
    apply iteration_Continue in Hit as (compute & update & _ & _ & _ & _ & ->).
    apply Hrecord, HP.
  - intros i st st1 _ HP Hit.
    apply iteration_Break in Hit as [(_ & ->) | (_ & _ & compute & _ & ->)].
    + exact HP.
    + apply Hrecord, HP.
  - auto.
  - exact Hloop.
Qed.

(** X2: the number of recorded passes never exceeds max_iterations; a result
    with status ELAPSED_TIME has recorded fewer than max_iterations passes,
    and a result with status RESIDUAL_TOLERANCE at least one. *)
Theorem recorded_passes_and_status res :
  solve = Some res ->
  length (Result.time (Result.base res)) <= max_iterations
  /\ (Result.status res = ADMMStatus.ELAPSED_TIME ->
      length (Result.time (Result.base res)) < max_iterations)
  /\ (Result.status res = ADMMStatus.RESIDUAL_TOLERANCE ->
      0 < length (Result.time (Result.base res))).
Proof.
  intros Hsolve.
  destruct (solve_final_state Hsolve) as (st' & Hloop & ->). cbn.
  apply (run_rule
           (fun i st =>
              length (Vars.result_time st) = i
              /\ Vars.result_status st = ADMMStatus.ITERATION_LIMIT)
           (fun st =>
              length (Vars.result_time st) <= max_iterations
              /\ (Vars.result_status st = ADMMStatus.ELAPSED_TIME ->
                  length (Vars.result_time st) < max_iterations)
              /\ (Vars.result_status st = ADMMStatus.RESIDUAL_TOLERANCE ->
                  0 < length (Vars.result_time st))))
    with (st' := st').
  - auto.
  - intros i st st1 _ (Hlen & Hstatus) Hit.
    apply iteration_Continue in Hit as (compute & update & _ & _ & _ & _ & ->).
    cbn. rewrite length_app. cbn. split; [lia | exact Hstatus].
  - intros i st st1 Hi (Hlen & Hstatus) Hit.
    apply iteration_Break in Hit as [(_ & ->) | (_ & _ & compute & _ & ->)];
      cbn; rewrite ?length_app; cbn;
      repeat split; intros; try discriminate; lia.
  - intros st (Hlen & Hstatus). rewrite Hstatus.
    repeat split; intros; try discriminate; lia.
  - exact Hloop.
Qed.

(** X3: with log_iterates set, the final pair of a result is the last
    snapshot, and the initial pair (x0, y0) when no pass was recorded. *)
Theorem final_pair_is_last_snapshot res :
  solve = Some res ->
  log_iterates = true ->
  Result.x (Result.base res)
  = last (Result.iterates (Result.base res)) (x0, y0).
Proof.
  intros Hsolve Hlog.
  destruct (solve_final_state Hsolve) as (st' & Hloop & ->). cbn.
  pose (P := fun (st : State) =>
               (Vars.x st, Vars.y st) = last (Vars.result_iterates st) (x0, y0)).
  assert (Hrecord : forall compute st status y_prev rho checkpoint,
             P (state_after_record Stopwatch_tock minLx minLy A B At
                  inner_product_x inner_product_r c params
                  compute st status y_prev rho checkpoint)).
  { unfold P. intros. cbn. rewrite Hlog, last_last. reflexivity. }
  apply (run_rule (fun _ => P) P) with (st' := st').
  - reflexivity.
  - intros i st st1 _ _ Hit.
    apply iteration_Continue in Hit as (compute & update & _ & _ & _ & _ & ->).
    apply Hrecord.
  - intros i st st1 _ HP Hit.
    apply iteration_Break in Hit as [(_ & ->) | (_ & _ & compute & _ & ->)].
    + exact HP.
    + apply Hrecord.
  - auto.
  - exact Hloop.
Qed.

(** X4: the recorded elapsed times are the successive clock readings, in
    order; none of them exceeded max_computation_time; and the total elapsed
    time is the next reading after those the loop took: the reading after
    the last recorded one, or, for status ELAPSED_TIME, the one after the
    reading that exceeded the budget. *)
Theorem recorded_times_are_clock_readings res :
  solve = Some res ->
  let n := length (Result.time (Result.base res)) in
  Result.time (Result.base res) = map Stopwatch_tock (seq 0 n)
  /\ Forall (fun t => (t >? max_computation_time)%D = false)
       (Result.time (Result.base res))
  /\ (Result.status res <> ADMMStatus.ELAPSED_TIME ->
      Result.elapsed_time (Result.base res) = Stopwatch_tock n)
  /\ (Result.status res = ADMMStatus.ELAPSED_TIME ->
      (Stopwatch_tock n >? max_computation_time)%D = true
      /\ Result.elapsed_time (Result.base res) = Stopwatch_tock (S n)).
Proof.
  intros Hsolve.
  destruct (solve_final_state Hsolve) as (st' & Hloop & ->). cbn.
  pose (T := fun (st : State) =>
               Vars.result_time st
               = map Stopwatch_tock (seq 0 (length (Vars.result_time st)))
               /\ Forall (fun t => (t >? max_computation_time)%D = false)
                    (Vars.result_time st)).
  assert (Hrecord : forall compute st status y_prev rho checkpoint,
             T st -> Vars.tocks st = length (Vars.result_time st) ->
             time_exceeded Stopwatch_tock params st = false ->
             T (state_after_record Stopwatch_tock minLx minLy A B At
                  inner_product_x inner_product_r c params
                  compute st status y_prev rho checkpoint)).
  { unfold T. intros compute st status y_prev rho checkpoint
      (Htimes & Hbelow) Htocks Htime.
    cbn. rewrite length_app. cbn. rewrite Nat.add_1_r, seq_S, map_app.
    cbn. unfold elapsed_at. rewrite Htocks, <- Htimes. split; [reflexivity |].
    apply Forall_app. split; [exact Hbelow |].
    constructor; [| constructor].
    unfold time_exceeded, elapsed_at in Htime. rewrite Htocks in Htime.
    exact Htime. }
  apply (run_rule
           (fun _ st =>
              T st /\ Vars.tocks st = length (Vars.result_time st)
              /\ Vars.result_status st = ADMMStatus.ITERATION_LIMIT)
           (fun st =>
              T st
              /\ (Vars.result_status st <> ADMMStatus.ELAPSED_TIME ->
                  Vars.tocks st = length (Vars.result_time st))
              /\ (Vars.result_status st = ADMMStatus.ELAPSED_TIME ->
                  (Stopwatch_tock (length (Vars.result_time st))
                   >? max_computation_time)%D = true
                  /\ Vars.tocks st = S (length (Vars.result_time st)))))
    with (st' := st') in Hloop.
  - destruct Hloop as ((Htimes & Hbelow) & Hother & Helapsed).
    split; [exact Htimes |]. split; [exact Hbelow |]. split.
    + intros Hstatus. rewrite (Hother Hstatus). reflexivity.
    + intros Hstatus. destruct (Helapsed Hstatus) as (Hexceeded & Htocks).
      split; [exact Hexceeded | rewrite Htocks; reflexivity].
  - unfold T. cbn. repeat split. constructor.
  - intros i st st1 _ (HT & Htocks & Hstatus) Hit.
    apply iteration_Continue in Hit
      as (compute & update & Htime & _ & _ & _ & ->).
    split; [apply Hrecord; assumption |].
    cbn. rewrite length_app. cbn. split; [lia | exact Hstatus].
  - intros i st st1 _ (HT & Htocks & Hstatus) Hit.
    apply iteration_Break in Hit
      as [(Htime & ->) | (Htime & _ & compute & _ & ->)].
    + split; [exact HT |]. cbn. split; [intros Hne; contradiction |].
      intros _. unfold time_exceeded, elapsed_at in Htime.
      rewrite Htocks in Htime. split; [exact Htime | lia].
    + split; [apply Hrecord; assumption |].
      cbn. rewrite length_app. cbn.
      split; [intros _; lia | intros Hs; discriminate Hs].
  - intros st (HT & Htocks & Hstatus). rewrite Hstatus.
    repeat split; try apply HT; intros; try discriminate; assumption.
Qed.

End TelemetryProperties.

Section PenaltyProperties.
Context {D : Type} {DO : DoubleOps D}.
Context {VariableX VariableY VariableR : Type}.
Context {VX : VariableOps D VariableX}.
Context {VY : VariableOps D VariableY}.
Context {VR : VariableOps D VariableR}.
Variable Stopwatch_tock : nat -> D.
Variable minLx : VariableX -> VariableY -> VariableR -> D -> VariableX.
Variable minLy : VariableX -> VariableY -> VariableR -> D -> VariableY.
Variable A : VariableX -> VariableR.
Variable B : VariableY -> VariableR.
Variable At : VariableR -> VariableX.
Variable inner_product_x : VariableX -> VariableX -> D.
Variable inner_product_r : VariableR -> VariableR -> D.
Variable c : VariableR.
Variable x0 : VariableX.
Variable y0 : VariableY.
Variable params : Params.ADMMParams D.

Local Abbreviation State := (Vars.t VariableX VariableY VariableR D).
Local Abbreviation mode := (Params.penalty_adaptation_mode params).
Local Abbreviation period := (Params.penalty_adaptation_period params).
Local Abbreviation window := (Params.penalty_adaptation_window params).
Local Abbreviation max_iterations :=
  (Params.max_iterations (Params.base params)).
Local Abbreviation iteration :=
  (admm_iteration Stopwatch_tock minLx minLy A B At
     inner_product_x inner_product_r c params).
Local Abbreviation loop :=
  (admm_loop Stopwatch_tock minLx minLy A B At
     inner_product_x inner_product_r c params).
Local Abbreviation heads :=
  (head_from Stopwatch_tock minLx minLy A B At
     inner_product_x inner_product_r c params).
Local Abbreviation init := (admm_init A B c x0 y0 params).
Local Abbreviation head :=
  (loop_head Stopwatch_tock minLx minLy A B At
     inner_product_x inner_product_r c x0 y0 params).
Local Abbreviation solve :=
  (ADMM Stopwatch_tock minLx minLy A B At
     inner_product_x inner_product_r c x0 y0 params).

(** A pass that is not an adaptation pass hands on the penalty parameter it
    started with. *)
Lemma iteration_rho_unchanged (i : nat) (st st' : State) :
  iteration i st = Continue st' ->
  adaptation_trigger params i <> Some true ->
  Vars.rho st' = Vars.rho st.
Proof.
  intros Hit Hoff.
  apply iteration_Continue in Hit as (compute & update & _ & _ & _ & Hup & ->).
  destruct update; [contradiction | reflexivity].
Qed.

Lemma no_adaptation_in_mode_None (i : nat) :
  mode = ADMMPenaltyAdaptation.None ->
  adaptation_trigger params i <> Some true.
Proof.
  intros Hmode Htrig.
  apply adaptation_trigger_true in Htrig as (Hnot & _). contradiction.
Qed.

Lemma no_adaptation_after_window (i : nat) :
  window <= i -> adaptation_trigger params i <> Some true.
Proof.
  intros Hwindow Htrig.
  apply adaptation_trigger_true in Htrig as (_ & _ & Hlt). lia.
Qed.

(** X5: without adaptation (mode None) every recorded penalty parameter is
    the configured rho, in any arithmetic. *)
Theorem penalties_constant_without_adaptation res :
  mode = ADMMPenaltyAdaptation.None ->
  solve = Some res ->
  Forall (fun r => r = Params.rho params) (Result.penalty_parameters res).
Proof.
  intros Hmode Hsolve.
  destruct (solve_final_state _ _ _ _ _ _ _ _ _ _ _ _ Hsolve)
    as (st' & Hloop & ->). cbn.
  pose (P := fun (st : State) =>
               Forall (fun r => r = Params.rho params)
                 (Vars.result_penalty_parameters st)
               /\ Vars.rho st = Params.rho params).
  assert (HP : P st'); [| exact (proj1 HP)].
  assert (Hrecord : forall compute st status y_prev checkpoint,
             P st ->
             P (state_after_record Stopwatch_tock minLx minLy A B At
                  inner_product_x inner_product_r c params
                  compute st status y_prev (Vars.rho st) checkpoint)).
  { unfold P. intros compute st status y_prev checkpoint (Hall & Hrho).
    cbn. split; [| exact Hrho].
    apply Forall_app. split; [exact Hall |].
    constructor; [exact Hrho | constructor]. }
  revert st' Hloop Hsolve. intros st' Hloop _. revert st' Hloop.
  apply run_rule with (P := fun _ : nat => P).
  - unfold P. cbn. split; [constructor | reflexivity].
  - intros i st st1 _ HPst Hit.
    pose proof (@iteration_rho_unchanged i st st1 Hit
                  (@no_adaptation_in_mode_None i Hmode)) as Hrho.
    apply iteration_Continue in Hit as (compute & update & _ & _ & _ & _ & E).
    rewrite E in Hrho |- *. unfold state_on_continue in *. cbn in Hrho.
    rewrite Hrho. apply Hrecord, HPst.
  - intros i st st1 _ HPst Hit.
    apply iteration_Break in Hit as [(_ & ->) | (_ & _ & compute & _ & ->)].
    + exact HPst.
    + apply Hrecord, HPst.
  - auto.
Qed.

(** X6: with residual balancing, the penalty parameter a pass hands to the
    next is tau * rho, rho / tau or rho, where rho is the one it started
    with. *)
Theorem residual_balance_steps (k : nat) (st st' : State) :
  mode = ADMMPenaltyAdaptation.Residual_Balance ->
  head k = Some st -> head (S k) = Some st' ->
  Vars.rho st' = (Params.residual_balance_tau params * Vars.rho st)%D
  \/ Vars.rho st' = (Vars.rho st / Params.residual_balance_tau params)%D
  \/ Vars.rho st' = Vars.rho st.
Proof.
  intros Hmode Hk HSk.
  unfold loop_head in *. rewrite head_from_S, Hk in HSk. cbn in HSk.
  destruct (iteration k st) as [st2 | st2 |] eqn:Hit; try discriminate.
  injection HSk as <-.
  apply iteration_Continue in Hit as (compute & update & _ & _ & _ & _ & ->).
  cbn. unfold rho_next, rho_balanced. rewrite Hmode. cbn.
  rewrite andb_false_r.
  destruct (update && true); [| auto].
  unfold residual_balance_penalty_parameter_update.
  repeat match goal with |- context [if ?b then _ else _] => destruct b end;
    auto.
Qed.

(** X7: from the adaptation window on the penalty parameter is constant:
    all passes with counter at least penalty_adaptation_window start with
    the same rho. *)
Theorem penalty_constant_after_window (k j : nat) (st st' : State) :
  window <= k ->
  head k = Some st -> head (k + j) = Some st' ->
  Vars.rho st' = Vars.rho st.
Proof.
  intros Hwindow Hk. revert st'.
  induction j as [| j IH]; intros st' Hkj.
  - rewrite Nat.add_0_r in Hkj. congruence.
  - replace (k + S j) with (S (k + j)) in Hkj by lia.
    unfold loop_head in *. rewrite head_from_S in Hkj.
    destruct (heads (k + j) 0 init) as [st1 |] eqn:Hhead; [| discriminate].
    cbn in Hkj.
    destruct (iteration (k + j) st1) as [st2 | st2 |] eqn:Hit;
      try discriminate.
    injection Hkj as <-.
    rewrite (@iteration_rho_unchanged (k + j) st1 st2 Hit).
    + apply IH. reflexivity.
    + apply no_adaptation_after_window. lia.
Qed.

End PenaltyProperties.

(** * Not-a-number and infinity in binary64 *)

Section NaNSpectral.
Context {VariableR : Type}.
Variable inner_product : VariableR -> VariableR -> float.

Lemma nan_correlation_rejected
    (delta_lambda_hat delta_lambda delta_H delta_G : VariableR)
    (eps_cor rho : float) :
  Prim2SF (correlation inner_product delta_lambda_hat delta_H) = S754_nan
  \/ Prim2SF (correlation inner_product delta_lambda delta_G) = S754_nan ->
  spectral_penalty_parameter_update delta_lambda_hat delta_lambda
    delta_H delta_G inner_product eps_cor rho = rho.
Proof.
  intros H. rewrite spectral_update_unfold. cbv zeta. cbn [dlt dle binary64].
  destruct H as [H | H];
    destruct (nan_compares_false _ eps_cor H) as (Hlt1 & Hlt2 & Hle1 & Hle2);
    rewrite ?Hlt1, ?Hlt2, ?Hle1, ?Hle2; cbn [andb];
    rewrite ?andb_false_r; reflexivity.
Qed.

(** X8: in binary64 the spectral update never accepts a step size whose
    correlation is a NaN: if either correlation is a NaN it returns the
    current rho, whatever the other correlation and the step sizes are. *)
Theorem nan_correlation_keeps_rho
    (delta_lambda_hat delta_lambda delta_H delta_G : VariableR)
    (eps_cor rho : float) :
  PrimFloat.is_nan (correlation inner_product delta_lambda_hat delta_H) = true
  \/ PrimFloat.is_nan (correlation inner_product delta_lambda delta_G) = true ->
  spectral_penalty_parameter_update delta_lambda_hat delta_lambda
    delta_H delta_G inner_product eps_cor rho = rho.
Proof.
  intros [H | H]; apply nan_correlation_rejected;
    [left | right]; apply is_nan_spec, H.
Qed.

(** X9: in binary64, when <delta_H, delta_lambda_hat> and <delta_H, delta_H>
    are both zero (as when x has not moved since the last checkpoint, so
    delta_H = 0), or <delta_G, delta_lambda> and <delta_G, delta_G> are, the
    spectral update returns the current rho. *)
Theorem vanishing_step_keeps_rho
    (delta_lambda_hat delta_lambda delta_H delta_G : VariableR)
    (eps_cor rho : float) :
  (PrimFloat.is_zero (inner_product delta_H delta_lambda_hat) = true
   /\ PrimFloat.is_zero (inner_product delta_H delta_H) = true)
  \/ (PrimFloat.is_zero (inner_product delta_G delta_lambda) = true
      /\ PrimFloat.is_zero (inner_product delta_G delta_G) = true) ->
  spectral_penalty_parameter_update delta_lambda_hat delta_lambda
    delta_H delta_G inner_product eps_cor rho = rho.
Proof.
  intros [(Hcross & Hsquare) | (Hcross & Hsquare)];
    apply nan_correlation_rejected; [left | right];
    unfold correlation; cbn [ddiv dmul dsqrt binary64];
    apply vanishing_correlation; assumption.
Qed.
End NaNSpectral.

(** X10: in binary64, residual balancing with a NaN primal or dual residual
    returns the current rho. *)
Theorem nan_residual_keeps_rho (p d mu tau rho : float) :
  PrimFloat.is_nan p = true \/ PrimFloat.is_nan d = true ->
  residual_balance_penalty_parameter_update p d mu tau rho = rho.
Proof.
  intros H. unfold residual_balance_penalty_parameter_update.
  cbn [dlt dmul ddiv binary64].
  assert (Hcmp : (mu * d <? p)%float = false /\ (mu * p <? d)%float = false).
  { destruct H as [H | H]; apply is_nan_spec in H.
    - split.
      + apply (nan_compares_false p (mu * d)%float H).
      + apply (nan_compares_false (mu * p)%float d). apply mul_nan. auto.
    - split.
      + apply (nan_compares_false (mu * d)%float p). apply mul_nan. auto.
      + apply (nan_compares_false d (mu * p)%float H). }
  destruct Hcmp as (-> & ->). reflexivity.
Qed.

Lemma infinity_not_exceeded (t : float) : (t >? infinity)%D = false.
Proof.
  cbn [dlt binary64]. rewrite ltb_spec.
  change (Prim2SF infinity) with (S754_infinity false).
  unfold SFltb, SFcompare.
  destruct (Prim2SF t) as [s | s | | s m e]; try reflexivity.
  destruct s; reflexivity.
Qed.

Section Binary64Solver.
Context {VariableX VariableY VariableR : Type}.
Context {VX : VariableOps float VariableX}.
Context {VY : VariableOps float VariableY}.
Context {VR : VariableOps float VariableR}.
Variable Stopwatch_tock : nat -> float.
Variable minLx : VariableX -> VariableY -> VariableR -> float -> VariableX.
Variable minLy : VariableX -> VariableY -> VariableR -> float -> VariableY.
Variable A : VariableX -> VariableR.
Variable B : VariableY -> VariableR.
Variable At : VariableR -> VariableX.
Variable inner_product_x : VariableX -> VariableX -> float.
Variable inner_product_r : VariableR -> VariableR -> float.
Variable c : VariableR.
Variable x0 : VariableX.
Variable y0 : VariableY.
Variable params : Params.ADMMParams float.

Local Abbreviation State := (Vars.t VariableX VariableY VariableR float).
Local Abbreviation max_computation_time :=
  (Params.max_computation_time (Params.base params)).
Local Abbreviation iteration :=
  (admm_iteration Stopwatch_tock minLx minLy A B At
     inner_product_x inner_product_r c params).
Local Abbreviation solve :=
  (ADMM Stopwatch_tock minLx minLy A B At
     inner_product_x inner_product_r c x0 y0 params).
Local Abbreviation primal_norm :=
  (primal_residual_norm minLx minLy A B inner_product_r c).
Local Abbreviation dual_norm :=
  (dual_residual_norm minLx minLy B At inner_product_x).
Local Abbreviation eps_primal :=
  (eps_primal_at minLx minLy A B inner_product_r c params).
Local Abbreviation eps_dual :=
  (eps_dual_at minLx minLy A B At inner_product_x c params).

(** X11: in binary64 a pass in which a residual norm or a stopping tolerance
    is a NaN does not stop with RESIDUAL_TOLERANCE: if it leaves the loop at
    all, it does so by the elapsed-time test. *)
Theorem nan_residual_never_converges (i : nat) (st st' : State) :
  PrimFloat.is_nan
    (primal_residual_norm minLx minLy A B inner_product_r c st) = true
  \/ PrimFloat.is_nan
       (dual_residual_norm minLx minLy B At inner_product_x st) = true
  \/ PrimFloat.is_nan
       (eps_primal_at minLx minLy A B inner_product_r c params st) = true
  \/ PrimFloat.is_nan
       (eps_dual_at minLx minLy A B At inner_product_x c params st) = true ->
  admm_iteration Stopwatch_tock minLx minLy A B At
    inner_product_x inner_product_r c params i st = Break st' ->
  Vars.result_status st' = ADMMStatus.ELAPSED_TIME.
Proof.
  intros Hnan Hit.
  apply iteration_Break in Hit as [(_ & ->) | (_ & Hconv & _)];
    [reflexivity |].
  exfalso. unfold residuals_within_tolerance in Hconv.
  cbn [dlt binary64] in Hconv.
  apply andb_prop in Hconv as [Hp Hd].
  destruct Hnan as [H | [H | [H | H]]]; apply is_nan_spec in H.
  - destruct (nan_compares_false _ (eps_primal st) H) as (Hlt & _).
    congruence.
  - destruct (nan_compares_false _ (eps_dual st) H) as (Hlt & _).
    congruence.
  - destruct (nan_compares_false _ (primal_norm st) H) as (_ & Hlt & _).
    congruence.
  - destruct (nan_compares_false _ (dual_norm st) H) as (_ & Hlt & _).
    congruence.
Qed.

(** X12: in binary64 a time budget of +infinity, or a NaN one, switches the
    elapsed-time criterion off: no call returns ELAPSED_TIME. *)
Theorem unlimited_time_budget res :
  max_computation_time = infinity
  \/ PrimFloat.is_nan max_computation_time = true ->
  solve = Some res ->
  Result.status res <> ADMMStatus.ELAPSED_TIME.
Proof.
  intros Hbudget Hsolve.
  destruct (solve_final_state _ _ _ _ _ _ _ _ _ _ _ _ Hsolve)
    as (st' & Hloop & ->). cbn. clear Hsolve.
  assert (Hnever : forall st : State,
             time_exceeded Stopwatch_tock params st = false).
  { intros st. unfold time_exceeded.
    destruct Hbudget as [-> | H].
    - apply infinity_not_exceeded.
    - apply is_nan_spec in H.
      apply (nan_compares_false _ (elapsed_at Stopwatch_tock st) H). }
  revert st' Hloop.
  apply run_rule
    with (P := fun (_ : nat) (st : State) =>
                 Vars.result_status st = ADMMStatus.ITERATION_LIMIT).
  - reflexivity.
  - intros i st st1 _ Hstatus Hit.
    apply iteration_Continue in Hit as (compute & update & _ & _ & _ & _ & ->).
    exact Hstatus.
  - intros i st st1 _ Hstatus Hit.
    apply iteration_Break in Hit
      as [(Htime & _) | (_ & _ & compute & _ & ->)].
    + rewrite Hnever in Htime. discriminate.
    + cbn. discriminate.
  - intros st Hstatus. rewrite Hstatus. discriminate.
Qed.
End Binary64Solver.

(** * Comparing runs *)

Section RunComparison.
Context {D : Type} {DO : DoubleOps D}.
Context {VariableX VariableY VariableR : Type}.
Context {VX : VariableOps D VariableX}.
Context {VY : VariableOps D VariableY}.
Context {VR : VariableOps D VariableR}.
Variable Stopwatch_tock : nat -> D.
Variable minLx : VariableX -> VariableY -> VariableR -> D -> VariableX.
Variable minLy : VariableX -> VariableY -> VariableR -> D -> VariableY.
Variable A : VariableX -> VariableR.
Variable B : VariableY -> VariableR.
Variable At : VariableR -> VariableX.
Variable inner_product_x : VariableX -> VariableX -> D.
Variable inner_product_r : VariableR -> VariableR -> D.
Variable c : VariableR.
Variable x0 : VariableX.
Variable y0 : VariableY.
Variable params : Params.ADMMParams D.

Local Abbreviation State := (Vars.t VariableX VariableY VariableR D).
Local Abbreviation iteration_with p :=
  (admm_iteration Stopwatch_tock minLx minLy A B At
     inner_product_x inner_product_r c p).
Local Abbreviation loop_with p :=
  (admm_loop Stopwatch_tock minLx minLy A B At
     inner_product_x inner_product_r c p).
Local Abbreviation iteration := (iteration_with params).
Local Abbreviation loop := (loop_with params).
Local Abbreviation init := (admm_init A B c x0 y0 params).
Local Abbreviation solve_with p :=
  (ADMM Stopwatch_tock minLx minLy A B At
     inner_product_x inner_product_r c x0 y0 p).

Lemma iteration_Continue_status (i : nat) (st st' : State) :
  iteration i st = Continue st' ->
  Vars.result_status st' = Vars.result_status st.
Proof.
  intros Hit.
  apply iteration_Continue in Hit as (compute & update & _ & _ & _ & _ & ->).
  reflexivity.
Qed.

Lemma iteration_Break_status (i : nat) (st st' : State) :
  iteration i st = Break st' ->
  Vars.result_status st' <> ADMMStatus.ITERATION_LIMIT.
Proof.
  intros Hit.
  apply iteration_Break in Hit as [(_ & ->) | (_ & _ & compute & _ & ->)];
    cbn; discriminate.
Qed.

(** Running [n] passes and then, unless the loop was left, [m] more is
    running [n + m] passes. *)
Lemma admm_loop_add (n m i : nat) (st : State) :
  Vars.result_status st = ADMMStatus.ITERATION_LIMIT ->
  loop (n + m) i st =
  match loop n i st with
  | Some st' =>
    match Vars.result_status st' with
    | ADMMStatus.ITERATION_LIMIT => loop m (i + n) st'
    | _ => Some st'
    end
  | None => None
  end.
Proof.
  revert i st. induction n as [| n IH]; intros i st Hstatus.
  - cbn. rewrite Hstatus, Nat.add_0_r. reflexivity.
  - cbn [admm_loop Nat.add].
    destruct (iteration i st) as [st1 | st1 |] eqn:Hit.
    + rewrite IH.
      * replace (S i + n) with (i + S n) by lia. reflexivity.
      * rewrite (@iteration_Continue_status i st st1 Hit). exact Hstatus.
    + pose proof (@iteration_Break_status i st st1 Hit) as Hne.
      destruct (Vars.result_status st1); try reflexivity. contradiction.
    + reflexivity.
Qed.

(** The passes of a loop only append to the recorded sequences. *)
Lemma loop_extends_records (n i : nat) (st st' : State) :
  loop n i st = Some st' ->
  (exists s, Vars.result_time st' = Vars.result_time st ++ s)
  /\ (exists s, Vars.result_primal_residuals st'
                = Vars.result_primal_residuals st ++ s)
  /\ (exists s, Vars.result_dual_residuals st'
                = Vars.result_dual_residuals st ++ s)
  /\ (exists s, Vars.result_penalty_parameters st'
                = Vars.result_penalty_parameters st ++ s).
Proof.
  revert i st. induction n as [| n IH]; intros i st Hloop.
  - injection Hloop as <-.
    repeat split; exists []; symmetry; apply app_nil_r.
  - cbn [admm_loop] in Hloop.
    destruct (iteration i st) as [st1 | st1 |] eqn:Hit; try discriminate.
    + apply iteration_Continue in Hit
        as (compute & update & _ & _ & _ & _ & ->).
      destruct (IH _ _ Hloop) as ((s1 & H1) & (s2 & H2) & (s3 & H3) & s4 & H4).
      cbn in H1, H2, H3, H4.
      rewrite H1, H2, H3, H4, <- !app_assoc. repeat split; eauto.
    + injection Hloop as <-.
      apply iteration_Break in Hit
        as [(_ & ->) | (_ & _ & compute & _ & ->)]; cbn.
      * repeat split; exists []; symmetry; apply app_nil_r.
      * repeat split; eauto.
Qed.

Lemma loop_with_max_iterations (n k i : nat) (st : State) :
  loop_with (with_max_iterations n params) k i st = loop k i st.
Proof.
  reflexivity.
Qed.

Lemma solve_with_max_iterations (n : nat) :
  solve_with (with_max_iterations n params) =
  match iter_field_width n with
  | None => None
  | Some _ =>
    match loop n 0 init with
    | Some st => Some (admm_result Stopwatch_tock st)
    | None => None
    end
  end.
Proof.
  unfold ADMM. cbn [Params.max_iterations Params.base with_max_iterations].
  change (admm_init A B c x0 y0 (with_max_iterations n params)) with init.
  rewrite loop_with_max_iterations. reflexivity.
Qed.

Lemma firstn_prefix {T : Type} (l s : list T) :
  firstn (length l) (l ++ s) = l.
Proof.
  rewrite firstn_app, Nat.sub_diag, firstn_all. cbn. apply app_nil_r.
Qed.

(** X13: raising max_iterations never changes what a run has already done.
    A call that stops by the residual or the elapsed-time test within n
    passes returns the same result with any larger iteration budget; and if
    it exhausts n passes, the first n entries of each telemetry sequence of
    a run with a larger budget are its telemetry. *)
Theorem raising_iteration_budget (n m : nat) res :
  solve_with (with_max_iterations n params) = Some res ->
  (Result.status res <> ADMMStatus.ITERATION_LIMIT ->
   solve_with (with_max_iterations (n + m) params) = Some res)
  /\ (Result.status res = ADMMStatus.ITERATION_LIMIT ->
      forall res',
        solve_with (with_max_iterations (n + m) params) = Some res' ->
        firstn n (Result.time (Result.base res'))
        = Result.time (Result.base res)
        /\ firstn n (Result.primal_residuals res')
           = Result.primal_residuals res
        /\ firstn n (Result.dual_residuals res') = Result.dual_residuals res
        /\ firstn n (Result.penalty_parameters res')
           = Result.penalty_parameters res).
Proof.
  rewrite !solve_with_max_iterations. unfold iter_field_width.
  destruct (Nat.eqb_spec n 0) as [Hzero | Hpos]; [discriminate |].
  destruct (Nat.eqb_spec (n + m) 0) as [Hzero | _]; [lia |].
  rewrite (admm_loop_add n m 0 init eq_refl).
  destruct (loop n 0 init) as [st |] eqn:Hloop; [| discriminate].
  intros H. injection H as <-. cbn. split.
  - intros Hstatus.
    destruct (Vars.result_status st); try reflexivity. contradiction.
  - intros Hstatus res'. rewrite Hstatus.
    destruct (loop m n st) as [st' |] eqn:Hmore; [| discriminate].
    intros H. injection H as <-. cbn.
    destruct (loop_iteration_limit _ _ _ _ _ _ _ _ _ _ _ _ _ Hloop
                eq_refl Hstatus) as (L1 & L2 & L3 & L4).
    cbn in L1, L2, L3, L4.
    destruct (loop_extends_records _ _ _ Hmore)
      as ((s1 & H1) & (s2 & H2) & (s3 & H3) & s4 & H4).
    rewrite H1, H2, H3, H4.
    split; [rewrite <- L1; apply firstn_prefix |].
    split; [rewrite <- L2; apply firstn_prefix |].
    split; [rewrite <- L3; apply firstn_prefix |].
    rewrite <- L4; apply firstn_prefix.
Qed.
End RunComparison.

Section Independence.
Context {D : Type} {DO : DoubleOps D}.
Context {VariableX VariableY VariableR : Type}.
Context {VX : VariableOps D VariableX}.
Context {VY : VariableOps D VariableY}.
Context {VR : VariableOps D VariableR}.
Variable Stopwatch_tock : nat -> D.
Variable other_tock : nat -> D.
Variable minLx : VariableX -> VariableY -> VariableR -> D -> VariableX.
Variable minLy : VariableX -> VariableY -> VariableR -> D -> VariableY.
Variable A : VariableX -> VariableR.
Variable B : VariableY -> VariableR.
Variable At : VariableR -> VariableX.
Variable inner_product_x : VariableX -> VariableX -> D.
Variable inner_product_r : VariableR -> VariableR -> D.
Variable c : VariableR.
Variable x0 : VariableX.
Variable y0 : VariableY.
Variable params : Params.ADMMParams D.

Local Abbreviation State := (Vars.t VariableX VariableY VariableR D).
Local Abbreviation max_iterations :=
  (Params.max_iterations (Params.base params)).
Local Abbreviation max_computation_time :=
  (Params.max_computation_time (Params.base params)).
Local Abbreviation iteration_on clock p :=
  (admm_iteration clock minLx minLy A B At
     inner_product_x inner_product_r c p).
Local Abbreviation loop_on clock p :=
  (admm_loop clock minLx minLy A B At
     inner_product_x inner_product_r c p).
Local Abbreviation solve_on clock p :=
  (ADMM clock minLx minLy A B At
     inner_product_x inner_product_r c x0 y0 p).

(** What a pass computes does not look at the recorded times. *)
Lemma pass_ignores_times (st1 st2 : State) :
  without_times st1 = without_times st2 ->
  Vars.tocks st1 = Vars.tocks st2
  /\ residuals_within_tolerance minLx minLy A B At
       inner_product_x inner_product_r c params st1
     = residuals_within_tolerance minLx minLy A B At
         inner_product_x inner_product_r c params st2
  /\ without_times (state_on_timeout st1) = without_times (state_on_timeout st2)
  /\ (forall compute : bool,
         without_times
           (state_on_convergence Stopwatch_tock minLx minLy A B At
              inner_product_x inner_product_r c params compute st1)
         = without_times
             (state_on_convergence other_tock minLx minLy A B At
                inner_product_x inner_product_r c params compute st2))
  /\ (forall compute update : bool,
         without_times
           (state_on_continue Stopwatch_tock minLx minLy A B At
              inner_product_x inner_product_r c params compute update st1)
         = without_times
             (state_on_continue other_tock minLx minLy A B At
                inner_product_x inner_product_r c params compute update st2)).
Proof.
  intros Hsame.
  destruct st1, st2. unfold without_times in Hsame. cbn in Hsame.
  injection Hsame; intros; subst.
  repeat split; reflexivity.
Qed.

(** Two passes from states that differ in the recorded times only, on clocks
    whose readings fall on the same side of the time budget, leave the same
    way, in states that differ in the recorded times only. *)
Lemma iteration_ignores_times (i : nat) (st1 st2 : State) :
  (forall k : nat,
      (Stopwatch_tock k >? max_computation_time)%D
      = (other_tock k >? max_computation_time)%D) ->
  without_times st1 = without_times st2 ->
  match iteration_on Stopwatch_tock params i st1,
        iteration_on other_tock params i st2 with
  | Continue a, Continue b | Break a, Break b =>
    without_times a = without_times b
  | Undefined, Undefined => True
  | _, _ => False
  end.
Proof.
  intros Hclock Hsame.
  destruct (pass_ignores_times Hsame)
    as (Htocks & Hconv & Htimeout & Hconvergence & Hcontinue).
  rewrite !admm_iteration_unfold.
  unfold time_exceeded, elapsed_at. rewrite Htocks, Hclock, Hconv.
  destruct (other_tock _ >? max_computation_time)%D; [exact Htimeout |].
  destruct (spectral_trigger params i) as [compute |]; [| exact I].
  destruct (residuals_within_tolerance _ _ _ _ _ _ _ _ _ st2);
    [apply Hconvergence |].
  destruct (adaptation_trigger params i); [apply Hcontinue | exact I].
Qed.

Lemma loop_ignores_times (n i : nat) (st1 st2 : State) :
  (forall k : nat,
      (Stopwatch_tock k >? max_computation_time)%D
      = (other_tock k >? max_computation_time)%D) ->
  without_times st1 = without_times st2 ->
  match loop_on Stopwatch_tock params n i st1,
        loop_on other_tock params n i st2 with
  | Some a, Some b => without_times a = without_times b
  | None, None => True
  | _, _ => False
  end.
Proof.
  intros Hclock. revert i st1 st2.
  induction n as [| n IH]; intros i st1 st2 Hsame; [exact Hsame |].
  cbn [admm_loop].
  pose proof (iteration_ignores_times i Hclock Hsame) as Hstep.
  destruct (iteration_on Stopwatch_tock params i st1) as [a | a |],
    (iteration_on other_tock params i st2) as [b | b |];
    try contradiction; try exact I.
  - apply IH, Hstep.
  - exact Hstep.
Qed.

(** X14: the numerical run does not depend on the clock beyond the outcome
    of the elapsed-time test.  On two clocks whose readings fall on the same
    side of max_computation_time, a call returns the same status, final
    pair, residuals, penalty parameters and snapshots; only the recorded
    times may differ. *)
Theorem result_independent_of_clock res :
  (forall k : nat,
      (Stopwatch_tock k >? max_computation_time)%D
      = (other_tock k >? max_computation_time)%D) ->
  solve_on Stopwatch_tock params = Some res ->
  exists res',
    solve_on other_tock params = Some res'
    /\ Result.status res' = Result.status res
    /\ Result.x (Result.base res') = Result.x (Result.base res)
    /\ Result.primal_residuals res' = Result.primal_residuals res
    /\ Result.dual_residuals res' = Result.dual_residuals res
    /\ Result.penalty_parameters res' = Result.penalty_parameters res
    /\ Result.iterates (Result.base res') = Result.iterates (Result.base res).
Proof.
  intros Hclock. unfold ADMM.
  destruct (iter_field_width max_iterations) as [w |]; [| discriminate].
  pose proof (@loop_ignores_times max_iterations 0
                (admm_init A B c x0 y0 params) (admm_init A B c x0 y0 params)
                Hclock eq_refl) as Hloop.
  destruct (loop_on Stopwatch_tock params max_iterations 0 _) as [st |];
    [| discriminate].
  destruct (loop_on other_tock params max_iterations 0 _) as [st' |];
    [| contradiction].
  intros H. injection H as <-.
  eexists. split; [reflexivity |].
  destruct st, st'. unfold without_times in Hloop. cbn in Hloop.
  injection Hloop; intros; subst.
  cbn. repeat split; reflexivity.
Qed.

(** What a pass computes does not look at the snapshots or at
    log_iterates. *)
Lemma pass_ignores_logging (log : bool) (st1 st2 : State) :
  without_iterates st1 = without_iterates st2 ->
  time_exceeded Stopwatch_tock params st1
  = time_exceeded Stopwatch_tock (with_log_iterates log params) st2
  /\ residuals_within_tolerance minLx minLy A B At
       inner_product_x inner_product_r c params st1
     = residuals_within_tolerance minLx minLy A B At
         inner_product_x inner_product_r c (with_log_iterates log params) st2
  /\ without_iterates (state_on_timeout st1)
     = without_iterates (state_on_timeout st2)
  /\ (forall compute : bool,
         without_iterates
           (state_on_convergence Stopwatch_tock minLx minLy A B At
              inner_product_x inner_product_r c params compute st1)
         = without_iterates
             (state_on_convergence Stopwatch_tock minLx minLy A B At
                inner_product_x inner_product_r c
                (with_log_iterates log params) compute st2))
  /\ (forall compute update : bool,
         without_iterates
           (state_on_continue Stopwatch_tock minLx minLy A B At
              inner_product_x inner_product_r c params compute update st1)
         = without_iterates
             (state_on_continue Stopwatch_tock minLx minLy A B At
                inner_product_x inner_product_r c
                (with_log_iterates log params) compute update st2)).
Proof.
  intros Hsame.
  destruct st1, st2. unfold without_iterates in Hsame. cbn in Hsame.
  injection Hsame; intros; subst.
  repeat split; reflexivity.
Qed.

(** Two passes from states that differ in the snapshots only, under
    configurations that differ in log_iterates only, leave the same way, in
    states that differ in the snapshots only. *)
Lemma iteration_ignores_logging (log : bool) (i : nat) (st1 st2 : State) :
  without_iterates st1 = without_iterates st2 ->
  match iteration_on Stopwatch_tock params i st1,
        iteration_on Stopwatch_tock (with_log_iterates log params) i st2 with
  | Continue a, Continue b | Break a, Break b =>
    without_iterates a = without_iterates b
  | Undefined, Undefined => True
  | _, _ => False
  end.
Proof.
  intros Hsame.
  destruct (pass_ignores_logging log Hsame)
    as (Htime & Hconv & Htimeout & Hconvergence & Hcontinue).
  rewrite !admm_iteration_unfold. rewrite Htime, Hconv.
  change (spectral_trigger (with_log_iterates log params) i)
    with (spectral_trigger params i).
  change (adaptation_trigger (with_log_iterates log params) i)
    with (adaptation_trigger params i).
  destruct (time_exceeded _ _ st2); [exact Htimeout |].
  destruct (spectral_trigger params i) as [compute |]; [| exact I].
  destruct (residuals_within_tolerance _ _ _ _ _ _ _ _ _ st2);
    [apply Hconvergence |].
  destruct (adaptation_trigger params i); [apply Hcontinue | exact I].
Qed.

Lemma loop_ignores_logging (log : bool) (n i : nat) (st1 st2 : State) :
  without_iterates st1 = without_iterates st2 ->
  match loop_on Stopwatch_tock params n i st1,
        loop_on Stopwatch_tock (with_log_iterates log params) n i st2 with
  | Some a, Some b => without_iterates a = without_iterates b
  | None, None => True
  | _, _ => False
  end.
Proof.
  revert i st1 st2.
  induction n as [| n IH]; intros i st1 st2 Hsame; [exact Hsame |].
  cbn [admm_loop].
  pose proof (iteration_ignores_logging log i Hsame) as Hstep.
  destruct (iteration_on Stopwatch_tock params i st1) as [a | a |],
    (iteration_on Stopwatch_tock (with_log_iterates log params) i st2)
      as [b | b |];
    try contradiction; try exact I.
  - apply IH, Hstep.
  - exact Hstep.
Qed.

(** X15: log_iterates only switches the snapshots on or off.  With the
    other value of log_iterates a call returns the same status, final pair,
    total elapsed time, recorded times, residuals and penalty parameters. *)
Theorem result_independent_of_logging (log : bool) res :
  solve_on Stopwatch_tock params = Some res ->
  exists res',
    solve_on Stopwatch_tock (with_log_iterates log params) = Some res'
    /\ Result.status res' = Result.status res
    /\ Result.x (Result.base res') = Result.x (Result.base res)
    /\ Result.elapsed_time (Result.base res')
       = Result.elapsed_time (Result.base res)
    /\ Result.time (Result.base res') = Result.time (Result.base res)
    /\ Result.primal_residuals res' = Result.primal_residuals res
    /\ Result.dual_residuals res' = Result.dual_residuals res
    /\ Result.penalty_parameters res' = Result.penalty_parameters res.
Proof.
  unfold ADMM.
  cbn [Params.max_iterations Params.base with_log_iterates].
  change (admm_init A B c x0 y0 (with_log_iterates log params))
    with (admm_init A B c x0 y0 params).
  destruct (iter_field_width max_iterations) as [w |]; [| discriminate].
  pose proof (@loop_ignores_logging log max_iterations 0
                (admm_init A B c x0 y0 params) (admm_init A B c x0 y0 params)
                eq_refl) as Hloop.
  destruct (loop_on Stopwatch_tock params max_iterations 0 _) as [st |];
    [| discriminate].
  destruct (loop_on Stopwatch_tock (with_log_iterates log params)
              max_iterations 0 _) as [st' |]; [| contradiction].
  intros H. injection H as <-.
  eexists. split; [reflexivity |].
  destruct st, st'. unfold without_iterates in Hloop. cbn in Hloop.
  injection Hloop; intros; subst.
  cbn. repeat split; reflexivity.
Qed.
End Independence.

(** * The strict residual test with zero tolerances, in binary64 *)

(** Rounding a magnitude with a positive sign does not produce a negative
    value. *)
Lemma binary_round_aux_not_negative (mx ex : Z) (lx : SpecFloat.location) :
  SFltb (binary_round_aux prec emax false mx ex lx) (S754_zero false) = false.
Proof.
  unfold binary_round_aux.
  destruct (shr_fexp prec emax mx ex lx) as [mrs' e'].
  destruct (shr_fexp prec emax
              (round_nearest_even (shr_m mrs') (loc_of_shr_record mrs'))
              e' loc_Exact) as [mrs'' e''].
  destruct (shr_m mrs'') as [| m | m]; try reflexivity.
  destruct (Z.leb e'' (emax - prec)); reflexivity.
Qed.

(** The tolerance 0 + 0 * m is zero or, for an infinite or NaN m, a NaN. *)
Lemma zero_tolerance_value (m : float) :
  Prim2SF (0 + 0 * m)%float = S754_nan
  \/ Prim2SF (0 + 0 * m)%float = S754_zero false.
Proof.
  rewrite add_spec, mul_spec.
  change (Prim2SF 0) with (S754_zero false).
  unfold SF64add, SF64mul, SFadd, SFmul.
  destruct (Prim2SF m) as [s | s | | s mm e]; auto; destruct s; auto.
Qed.

(** A norm, being a square root, is never below a zero tolerance. *)
Lemma sqrt_not_below_zero_tolerance (u m : float) :
  (PrimFloat.sqrt u <? 0 + 0 * m)%float = false.
Proof.
  rewrite ltb_spec, sqrt_spec.
  destruct (zero_tolerance_value m) as [-> | ->].
  - unfold SFltb, SFcompare.
    destruct (SF64sqrt (Prim2SF u)) as [s | s | | s mm e]; reflexivity.
  - unfold SF64sqrt, SFsqrt.
    destruct (Prim2SF u) as [s | s | | s mm e]; try reflexivity.
    + destruct s; reflexivity.
    + destruct s; [reflexivity |].
      destruct (SFsqrt_core_binary prec emax (Z.pos mm) e) as [[mz ez] lz].
      apply binary_round_aux_not_negative.
Qed.

Section Binary64ZeroTolerance.
Context {VariableX VariableY VariableR : Type}.
Context {VX : VariableOps float VariableX}.
Context {VY : VariableOps float VariableY}.
Context {VR : VariableOps float VariableR}.
Variable Stopwatch_tock : nat -> float.
Variable minLx : VariableX -> VariableY -> VariableR -> float -> VariableX.
Variable minLy : VariableX -> VariableY -> VariableR -> float -> VariableY.
Variable A : VariableX -> VariableR.
Variable B : VariableY -> VariableR.
Variable At : VariableR -> VariableX.
Variable inner_product_x : VariableX -> VariableX -> float.
Variable inner_product_r : VariableR -> VariableR -> float.
Variable c : VariableR.
Variable x0 : VariableX.
Variable y0 : VariableY.
Variable params : Params.ADMMParams float.

Local Abbreviation State := (Vars.t VariableX VariableY VariableR float).
Local Abbreviation solve :=
  (ADMM Stopwatch_tock minLx minLy A B At
     inner_product_x inner_product_r c x0 y0 params).

(** X16: the residual test is strict, so in binary64 a zero tolerance is
    never met: with eps_rel = 0 and eps_abs_pri = 0 (or eps_abs_dual = 0) no
    call returns RESIDUAL_TOLERANCE, whatever the residuals are, a residual
    of exactly zero included. *)
Theorem zero_tolerance_never_met res :
  Params.eps_rel params = 0%float ->
  Params.eps_abs_pri params = 0%float
  \/ Params.eps_abs_dual params = 0%float ->
  solve = Some res ->
  Result.status res <> ADMMStatus.RESIDUAL_TOLERANCE.
Proof.
  intros Hrel Habs Hsolve.
  destruct (solve_final_state _ _ _ _ _ _ _ _ _ _ _ _ Hsolve)
    as (st' & Hloop & ->). cbn. clear Hsolve.
  assert (Hnever : forall st : State,
             residuals_within_tolerance minLx minLy A B At
               inner_product_x inner_product_r c params st = false).
  { intros st. unfold residuals_within_tolerance, primal_residual_norm,
      dual_residual_norm, eps_primal_at, eps_dual_at, norm_r, norm_x.
    rewrite Hrel. cbn [dlt dadd dmul dsqrt binary64].
    destruct Habs as [-> | ->].
    - rewrite sqrt_not_below_zero_tolerance. reflexivity.
    - rewrite (sqrt_not_below_zero_tolerance
                 (inner_product_x _ _)). apply andb_false_r. }
  revert st' Hloop.
  apply run_rule
    with (P := fun (_ : nat) (st : State) =>
                 Vars.result_status st = ADMMStatus.ITERATION_LIMIT).
  - reflexivity.
  - intros i st st1 _ Hstatus Hit.
    apply iteration_Continue in Hit as (compute & update & _ & _ & _ & _ & ->).
    exact Hstatus.
  - intros i st st1 _ Hstatus Hit.
    apply iteration_Break in Hit
      as [(_ & ->) | (_ & Hconv & _)].
    + cbn. discriminate.
    + rewrite Hnever in Hconv. discriminate.
  - intros st Hstatus. rewrite Hstatus. discriminate.
Qed.
End Binary64ZeroTolerance.

(** * Residual balancing in exact arithmetic *)

(** X17: in exact arithmetic, with mu >= 1 and non-negative residuals (norms
    are), the two tests of residual balancing exclude each other, so their
    order does not matter: the update returns tau * rho when p > mu * d,
    rho / tau when d > mu * p, and rho when neither holds. *)
Theorem residual_balance_tests_exclusive (p d mu tau rho : R) :
  (1 <= mu)%R -> (0 <= p)%R -> (0 <= d)%R ->
  ~ ((p > mu * d)%R /\ (d > mu * p)%R)
  /\ ((p > mu * d)%R ->
      residual_balance_penalty_parameter_update p d mu tau rho
      = (tau * rho)%R)
  /\ ((d > mu * p)%R ->
      residual_balance_penalty_parameter_update p d mu tau rho
      = (rho / tau)%R)
  /\ (~ (p > mu * d)%R -> ~ (d > mu * p)%R ->
      residual_balance_penalty_parameter_update p d mu tau rho = rho).
Proof.
  intros Hmu Hp Hd.
  assert (Hexcl : ~ ((p > mu * d)%R /\ (d > mu * p)%R)).
  { intros [H1 H2]. nra. }
  unfold residual_balance_penalty_parameter_update. cbn. unfold Rltb.
  repeat split.
  - exact Hexcl.
  - intros H. destruct (Rlt_dec (mu * d) p); [reflexivity | lra].
  - intros H. destruct (Rlt_dec (mu * d) p) as [H' |].
    + exfalso. apply Hexcl. split; assumption.
    + destruct (Rlt_dec (mu * p) d); [reflexivity | lra].
  - intros H1 H2.
    destruct (Rlt_dec (mu * d) p); [lra |].
    destruct (Rlt_dec (mu * p) d); [lra | reflexivity].
Qed.

Section ExactResidualBalance.
Context {VariableX VariableY VariableR : Type}.
Context {VX : VariableOps R VariableX}.
Context {VY : VariableOps R VariableY}.
Context {VR : VariableOps R VariableR}.
Variable Stopwatch_tock : nat -> R.
Variable minLx : VariableX -> VariableY -> VariableR -> R -> VariableX.
Variable minLy : VariableX -> VariableY -> VariableR -> R -> VariableY.
Variable A : VariableX -> VariableR.
Variable B : VariableY -> VariableR.
Variable At : VariableR -> VariableX.
Variable inner_product_x : VariableX -> VariableX -> R.
Variable inner_product_r : VariableR -> VariableR -> R.
Variable c : VariableR.
Variable x0 : VariableX.
Variable y0 : VariableY.
Variable params : Params.ADMMParams R.

Local Abbreviation State := (Vars.t VariableX VariableY VariableR R).
Local Abbreviation mode := (Params.penalty_adaptation_mode params).
Local Abbreviation tau := (Params.residual_balance_tau params).
Local Abbreviation iteration :=
  (admm_iteration Stopwatch_tock minLx minLy A B At
     inner_product_x inner_product_r c params).
Local Abbreviation heads :=
  (head_from Stopwatch_tock minLx minLy A B At
     inner_product_x inner_product_r c params).
Local Abbreviation head :=
  (loop_head Stopwatch_tock minLx minLy A B At
     inner_product_x inner_product_r c x0 y0 params).

Lemma iteration_balance_power (i : nat) (st st' : State) (z : Z) :
  mode = ADMMPenaltyAdaptation.Residual_Balance ->
  tau <> 0%R ->
  iteration i st = Continue st' ->
  Vars.rho st = (Params.rho params * powerRZ tau z)%R ->
  exists z' : Z,
    (Z.abs (z' - z) <= 1)%Z
    /\ Vars.rho st' = (Params.rho params * powerRZ tau z')%R.
Proof.
  intros Hmode Htau Hit Hrho.
  apply iteration_Continue in Hit as (compute & update & _ & _ & _ & _ & ->).
  cbn. unfold rho_next, rho_balanced. rewrite Hmode. cbn.
  rewrite andb_false_r.
  destruct (update && true); [| exists z; split; [lia | exact Hrho]].
  unfold residual_balance_penalty_parameter_update. cbn.
  destruct (Rltb _ _); [| destruct (Rltb _ _)].
  - exists (z + 1)%Z. split; [lia |].
    rewrite Hrho, powerRZ_add by exact Htau. rewrite powerRZ_1. ring.
  - exists (z + - 1)%Z. split; [lia |].
    rewrite Hrho, powerRZ_add by exact Htau.
    change (powerRZ tau (- 1)) with (/ (tau * 1))%R.
    rewrite Rmult_1_r. unfold Rdiv. ring.
  - exists z. split; [lia | exact Hrho].
Qed.

End ExactResidualBalance.

(** * The further properties on concrete runs *)

Lemma telemetry_lengths_agree_witness :
  exists res,
    Quadratic.solve Scenario.logged = Some res
    /\ length (Result.primal_residuals res)
       = length (Result.time (Result.base res))
    /\ length (Result.iterates (Result.base res))
       = length (Result.time (Result.base res)).
Proof.
  unfold Quadratic.solve, SingleSpace.ADMM.
  match goal with
  | |- exists res, ?call = Some res /\ _ =>
    assert (Hrun : exists res, call = Some res)
      by (eexists; vm_compute; reflexivity)
  end.
  destruct Hrun as [res Hrun]. exists res. split; [exact Hrun |].
  destruct (telemetry_lengths_agree
              Quadratic.seconds (Quadratic.minLx 1) (Quadratic.minLy 3)
           Quadratic.A Quadratic.B Quadratic.At
           Quadratic.inner_product Quadratic.inner_product
           0%float 0%float 0%float Scenario.logged Hrun)
    as (Hprimal & _ & _ & Hiterates).
  split; [exact Hprimal | exact Hiterates].
Defined.

Lemma recorded_passes_and_status_witness :
  exists res,
    Quadratic.solve Scenario.logged = Some res
    /\ length (Result.time (Result.base res)) <= 50.
Proof.
  unfold Quadratic.solve, SingleSpace.ADMM.
  match goal with
  | |- exists res, ?call = Some res /\ _ =>
    assert (Hrun : exists res, call = Some res)
      by (eexists; vm_compute; reflexivity)
  end.
  destruct Hrun as [res Hrun]. exists res. split; [exact Hrun |].
  exact (proj1 (recorded_passes_and_status
           Quadratic.seconds (Quadratic.minLx 1) (Quadratic.minLy 3)
           Quadratic.A Quadratic.B Quadratic.At
           Quadratic.inner_product Quadratic.inner_product
           0%float 0%float 0%float Scenario.logged Hrun)).
Defined.

Lemma final_pair_is_last_snapshot_witness :
  exists res,
    Quadratic.solve Scenario.logged = Some res
    /\ Result.x (Result.base res)
       = last (Result.iterates (Result.base res)) (0%float, 0%float).
Proof.
  unfold Quadratic.solve, SingleSpace.ADMM.
  match goal with
  | |- exists res, ?call = Some res /\ _ =>
    assert (Hrun : exists res, call = Some res)
      by (eexists; vm_compute; reflexivity)
  end.
  destruct Hrun as [res Hrun]. exists res. split; [exact Hrun |].
  exact (final_pair_is_last_snapshot
           Quadratic.seconds (Quadratic.minLx 1) (Quadratic.minLy 3)
           Quadratic.A Quadratic.B Quadratic.At
           Quadratic.inner_product Quadratic.inner_product
           0%float 0%float 0%float Scenario.logged Hrun eq_refl).
Defined.

Lemma recorded_times_are_clock_readings_witness :
  exists res,
    Quadratic.solve Scenario.logged = Some res
    /\ Result.time (Result.base res)
       = map Quadratic.seconds
           (seq 0 (length (Result.time (Result.base res)))).
Proof.
  unfold Quadratic.solve, SingleSpace.ADMM.
  match goal with
  | |- exists res, ?call = Some res /\ _ =>
    assert (Hrun : exists res, call = Some res)
      by (eexists; vm_compute; reflexivity)
  end.
  destruct Hrun as [res Hrun]. exists res. split; [exact Hrun |].
  exact (proj1 (recorded_times_are_clock_readings
           Quadratic.seconds (Quadratic.minLx 1) (Quadratic.minLy 3)
           Quadratic.A Quadratic.B Quadratic.At
           Quadratic.inner_product Quadratic.inner_product
           0%float 0%float 0%float Scenario.logged Hrun)).
Defined.

Lemma penalties_constant_without_adaptation_witness :
  exists res,
    Quadratic.solve Scenario.logged = Some res
    /\ Forall (fun r => r = 1%float) (Result.penalty_parameters res).
Proof.
  unfold Quadratic.solve, SingleSpace.ADMM.
  match goal with
  | |- exists res, ?call = Some res /\ _ =>
    assert (Hrun : exists res, call = Some res)
      by (eexists; vm_compute; reflexivity)
  end.
  destruct Hrun as [res Hrun]. exists res. split; [exact Hrun |].
  exact (penalties_constant_without_adaptation
           Quadratic.seconds (Quadratic.minLx 1) (Quadratic.minLy 3)
           Quadratic.A Quadratic.B Quadratic.At
           Quadratic.inner_product Quadratic.inner_product
           0%float 0%float 0%float Scenario.logged eq_refl Hrun).
Defined.

Lemma residual_balance_steps_witness :
  exists st st',
    Quadratic.head 1 3 Scenario.short_window 0 = Some st
    /\ Quadratic.head 1 3 Scenario.short_window 1 = Some st'
    /\ (Vars.rho st' = (2 * Vars.rho st)%float
        \/ Vars.rho st' = (Vars.rho st / 2)%float
        \/ Vars.rho st' = Vars.rho st).
Proof.
  unfold Quadratic.head.
  match goal with
  | |- exists st st', ?first = Some st /\ ?second = Some st' /\ _ =>
    assert (Hst : exists st, first = Some st)
      by (eexists; vm_compute; reflexivity);
    assert (Hst' : exists st', second = Some st')
      by (eexists; vm_compute; reflexivity)
  end.
  destruct Hst as [st Hst]. destruct Hst' as [st' Hst'].
  exists st, st'. split; [exact Hst |]. split; [exact Hst' |].
  exact (residual_balance_steps
           Quadratic.seconds (Quadratic.minLx 1) (Quadratic.minLy 3)
           Quadratic.A Quadratic.B Quadratic.At
           Quadratic.inner_product Quadratic.inner_product
           0%float 0%float 0%float Scenario.short_window 0 eq_refl Hst Hst').
Defined.

Lemma penalty_constant_after_window_witness :
  exists st st',
    Quadratic.head 1 3 Scenario.short_window 2 = Some st
    /\ Quadratic.head 1 3 Scenario.short_window (2 + 3) = Some st'
    /\ Vars.rho st' = Vars.rho st.
Proof.
  unfold Quadratic.head.
  match goal with
  | |- exists st st', ?first = Some st /\ ?second = Some st' /\ _ =>
    assert (Hst : exists st, first = Some st)
      by (eexists; vm_compute; reflexivity);
    assert (Hst' : exists st', second = Some st')
      by (eexists; vm_compute; reflexivity)
  end.
  destruct Hst as [st Hst]. destruct Hst' as [st' Hst'].
  exists st, st'. split; [exact Hst |]. split; [exact Hst' |].
  exact (penalty_constant_after_window
           Quadratic.seconds (Quadratic.minLx 1) (Quadratic.minLy 3)
           Quadratic.A Quadratic.B Quadratic.At
           Quadratic.inner_product Quadratic.inner_product
           0%float 0%float 0%float Scenario.short_window 3 (le_n 2) Hst Hst').
Defined.

Lemma nan_correlation_keeps_rho_witness :
  spectral_penalty_parameter_update 1%float 0%float 1%float 0%float
    Quadratic.inner_product Quadratic.eps_cor 5%float = 5%float.
Proof.
  apply nan_correlation_keeps_rho. right. vm_compute. reflexivity.
Defined.

Lemma vanishing_step_keeps_rho_witness :
  spectral_penalty_parameter_update 1%float 1%float 0%float 1%float
    Quadratic.inner_product Quadratic.eps_cor 5%float = 5%float.
Proof.
  apply vanishing_step_keeps_rho. left. split; vm_compute; reflexivity.
Defined.

Lemma nan_residual_keeps_rho_witness :
  residual_balance_penalty_parameter_update nan 1%float 10%float 2%float
    5%float = 5%float.
Proof.
  apply nan_residual_keeps_rho. left. vm_compute. reflexivity.
Defined.

Lemma nan_residual_never_converges_witness :
  exists st',
    admm_iteration Quadratic.seconds (Quadratic.minLx nan) (Quadratic.minLy 3)
      Quadratic.A Quadratic.B Quadratic.At
      Quadratic.inner_product Quadratic.inner_product 0%float
      Scenario.no_time 0
      (admm_init Quadratic.A Quadratic.B 0%float 0%float 0%float
         Scenario.no_time)
    = Break st'
    /\ Vars.result_status st' = ADMMStatus.ELAPSED_TIME.
Proof.
  match goal with
  | |- exists st', ?pass = Break st' /\ _ =>
    assert (Hpass : exists st', pass = Break st')
      by (eexists; vm_compute; reflexivity)
  end.
  destruct Hpass as [st' Hpass]. exists st'. split; [exact Hpass |].
  refine (nan_residual_never_converges
            Quadratic.seconds (Quadratic.minLx nan) (Quadratic.minLy 3)
            Quadratic.A Quadratic.B Quadratic.At
            Quadratic.inner_product Quadratic.inner_product 0%float
            Scenario.no_time 0
            (admm_init Quadratic.A Quadratic.B 0%float 0%float 0%float
               Scenario.no_time) _ Hpass).
  left. vm_compute. reflexivity.
Defined.

Lemma unlimited_time_budget_witness :
  exists res,
    Quadratic.solve Scenario.unlimited = Some res
    /\ Result.status res <> ADMMStatus.ELAPSED_TIME.
Proof.
  unfold Quadratic.solve, SingleSpace.ADMM.
  match goal with
  | |- exists res, ?call = Some res /\ _ =>
    assert (Hrun : exists res, call = Some res)
      by (eexists; vm_compute; reflexivity)
  end.
  destruct Hrun as [res Hrun]. exists res. split; [exact Hrun |].
  exact (unlimited_time_budget
           Quadratic.seconds (Quadratic.minLx 1) (Quadratic.minLy 3)
           Quadratic.A Quadratic.B Quadratic.At
           Quadratic.inner_product Quadratic.inner_product
           0%float 0%float 0%float Scenario.unlimited (or_introl eq_refl) Hrun).
Defined.

Lemma raising_iteration_budget_witness :
  exists res,
    Quadratic.solve (with_max_iterations 10 Scenario.logged) = Some res
    /\ Quadratic.solve (with_max_iterations (10 + 40) Scenario.logged)
       = Some res.
Proof.
  unfold Quadratic.solve, SingleSpace.ADMM.
  match goal with
  | |- exists res, ?call = Some res /\ _ =>
    assert (Hrun : exists res,
               call = Some res
               /\ Result.status res = ADMMStatus.RESIDUAL_TOLERANCE)
      by (eexists; split; vm_compute; reflexivity)
  end.
  destruct Hrun as (res & Hrun & Hstatus). exists res. split; [exact Hrun |].
  apply (proj1 (raising_iteration_budget
           Quadratic.seconds (Quadratic.minLx 1) (Quadratic.minLy 3)
           Quadratic.A Quadratic.B Quadratic.At
           Quadratic.inner_product Quadratic.inner_product
           0%float 0%float 0%float Scenario.logged 10 40 Hrun)).
  rewrite Hstatus. discriminate.
Defined.

Lemma result_independent_of_clock_witness :
  exists res,
    Quadratic.solve Scenario.unlimited = Some res
    /\ exists res',
         SingleSpace.ADMM Scenario.still
           (Quadratic.minLx 1) (Quadratic.minLy 3)
           Quadratic.A Quadratic.B Quadratic.At Quadratic.inner_product
           0%float 0%float 0%float Scenario.unlimited = Some res'
         /\ Result.status res' = Result.status res
         /\ Result.primal_residuals res' = Result.primal_residuals res.
Proof.
  unfold Quadratic.solve, SingleSpace.ADMM.
  match goal with
  | |- exists res, ?call = Some res /\ _ =>
    assert (Hrun : exists res, call = Some res)
      by (eexists; vm_compute; reflexivity)
  end.
  destruct Hrun as [res Hrun]. exists res. split; [exact Hrun |].
  destruct (result_independent_of_clock
              Quadratic.seconds Scenario.still
              (Quadratic.minLx 1) (Quadratic.minLy 3)
              Quadratic.A Quadratic.B Quadratic.At
              Quadratic.inner_product Quadratic.inner_product
              0%float 0%float 0%float Scenario.unlimited
              (fun k => eq_trans
                 (infinity_not_exceeded (Quadratic.seconds k))
                 (eq_sym (infinity_not_exceeded (Scenario.still k))))
              Hrun)
    as (res' & Hrun' & Hstatus & _ & Hprimal & _).
  exists res'. split; [exact Hrun' |]. split; [exact Hstatus | exact Hprimal].
Defined.

Lemma result_independent_of_logging_witness :
  exists res,
    Quadratic.solve Scenario.logged = Some res
    /\ exists res',
         Quadratic.solve (with_log_iterates false Scenario.logged) = Some res'
         /\ Result.x (Result.base res') = Result.x (Result.base res)
         /\ Result.primal_residuals res' = Result.primal_residuals res.
Proof.
  unfold Quadratic.solve, SingleSpace.ADMM.
  match goal with
  | |- exists res, ?call = Some res /\ _ =>
    assert (Hrun : exists res, call = Some res)
      by (eexists; vm_compute; reflexivity)
  end.
  destruct Hrun as [res Hrun]. exists res. split; [exact Hrun |].
  destruct (result_independent_of_logging
              Quadratic.seconds (Quadratic.minLx 1) (Quadratic.minLy 3)
           Quadratic.A Quadratic.B Quadratic.At
           Quadratic.inner_product Quadratic.inner_product
           0%float 0%float 0%float Scenario.logged false Hrun)
    as (res' & Hrun' & _ & Hx & _ & _ & Hprimal & _).
  exists res'. split; [exact Hrun' |]. split; [exact Hx | exact Hprimal].
Defined.

Lemma zero_tolerance_never_met_witness :
  exists res,
    Quadratic.solve Scenario.short_window = Some res
    /\ Result.status res <> ADMMStatus.RESIDUAL_TOLERANCE.
Proof.
  unfold Quadratic.solve, SingleSpace.ADMM.
  match goal with
  | |- exists res, ?call = Some res /\ _ =>
    assert (Hrun : exists res, call = Some res)
      by (eexists; vm_compute; reflexivity)
  end.
  destruct Hrun as [res Hrun]. exists res. split; [exact Hrun |].
  exact (zero_tolerance_never_met
           Quadratic.seconds (Quadratic.minLx 1) (Quadratic.minLy 3)
           Quadratic.A Quadratic.B Quadratic.At
           Quadratic.inner_product Quadratic.inner_product
           0%float 0%float 0%float Scenario.short_window eq_refl (or_introl eq_refl) Hrun).
Defined.

Lemma residual_balance_tests_exclusive_witness :
  residual_balance_penalty_parameter_update 1%R 100%R 10%R 2%R 1%R
  = (1 / 2)%R.
Proof.
  destruct (@residual_balance_tests_exclusive 1 100 10 2 1
              ltac:(lra) ltac:(lra) ltac:(lra)) as (_ & _ & Hdown & _).
  apply Hdown. lra.
Defined.

(** The first pass of the exact problem with residual balancing: x = 1/2,
    y = 7/4, primal residual 5/4 and dual residual 7/4.  With mu = 1/2 the
    primal residual dominates and the pass doubles rho. *)
Lemma exact_balance_first_pass :
  loop_head QuadraticExact.clock QuadraticExact.minLx QuadraticExact.minLy
    QuadraticExact.A QuadraticExact.B QuadraticExact.At
    QuadraticExact.inner_product QuadraticExact.inner_product
    0%R 0%R 0%R Scenario.exact_balance 1
  = Some
      (state_on_continue QuadraticExact.clock QuadraticExact.minLx
         QuadraticExact.minLy QuadraticExact.A QuadraticExact.B
         QuadraticExact.At QuadraticExact.inner_product
         QuadraticExact.inner_product 0%R Scenario.exact_balance false true
         (admm_init QuadraticExact.A QuadraticExact.B 0%R 0%R 0%R
            Scenario.exact_balance)).
Proof.
  unfold loop_head. cbn [head_from]. rewrite admm_iteration_unfold.
  replace (time_exceeded _ _ _) with false.
  2:{ symmetry. unfold time_exceeded, elapsed_at. cbn.
      apply Rltb_intro_false. unfold QuadraticExact.clock. lra. }
  change (spectral_trigger Scenario.exact_balance 0) with (Some false).
  replace (residuals_within_tolerance _ _ _ _ _ _ _ _ _ _) with false.
  - reflexivity.
  - symmetry. apply andb_false_intro1. apply Rltb_intro_false.
    unfold eps_primal_at, primal_residual_norm, norm_r. cbn.
    match goal with |- (_ <= sqrt ?u)%R => pose proof (sqrt_pos u) end.
    lra.
Qed.

Lemma exact_balance_first_rho :
  Vars.rho
    (state_on_continue QuadraticExact.clock QuadraticExact.minLx
       QuadraticExact.minLy QuadraticExact.A QuadraticExact.B
       QuadraticExact.At QuadraticExact.inner_product
       QuadraticExact.inner_product 0%R Scenario.exact_balance false true
       (admm_init QuadraticExact.A QuadraticExact.B 0%R 0%R 0%R
          Scenario.exact_balance))
  = 2%R.
Proof.
  cbn [Vars.rho state_on_continue state_after_record].
  unfold rho_next, rho_balanced. cbn [andb ADMMPenaltyAdaptation.eqb
    Params.penalty_adaptation_mode Scenario.exact_balance].
  unfold residual_balance_penalty_parameter_update,
    primal_residual_norm, dual_residual_norm, norm_r, norm_x,
    primal_residual_vector, dual_residual_vector, y_next, x_next, admm_init.
  cbn.
  unfold QuadraticExact.inner_product, QuadraticExact.minLy,
    QuadraticExact.minLx, QuadraticExact.A, QuadraticExact.B,
    QuadraticExact.At.
  assert (Hx : ((1 - 1 * (0 + - 0 - 0) + 1 * 0) / (1 + 1) = 1 / 2)%R)
    by field.
  rewrite !Hx.
  assert (Hy : ((3 + 1 * (0 + - 0 - 0) + 1 * (1 / 2)) / (1 + 1) = 7 / 4)%R)
    by field.
  rewrite !Hy.
  replace ((1 / 2 + - (7 / 4) - 0) * (1 / 2 + - (7 / 4) - 0))%R
    with ((5 / 4) * (5 / 4))%R by field.
  replace (1 * - (7 / 4 - 0) * (1 * - (7 / 4 - 0)))%R
    with ((7 / 4) * (7 / 4))%R by field.
  rewrite !sqrt_square by lra.
  unfold Rltb. destruct (Rlt_dec (1 / 2 * (7 / 4)) (5 / 4)); lra.
Qed.

